(** * D-ary heap, priority queue, Prim and Dijkstra of [datastructsalgo]

    A shallow embedding of
    - [datastructsalgo/trees/heaps.py] ([DHeap], [BinaryHeap]),
    - [datastructsalgo/miscellaneous_data_structures/queue.py]
      ([PriorityQueue], [BinaryHeapPriorityQueue]),
    - [datastructsalgo/graphs/algorithms.py] (Prim, Dijkstra),
    - [datastructsalgo/utils/misc_util.py] (the node and edge records),
    - [min_max_stream.py] ([modify_heaps]),
    followed by the properties the specification states about them. *)

From Stdlib Require Import ZArith Lia String Ascii Sorted Permutation.
From stdpp Require Import base list strings.

Local Open Scope string_scope.
Local Open Scope nat_scope.
Set Warnings "-clear-no-such-hyp".

(** ** Exceptions and results *)

(** The Python exceptions the modelled code raises. *)
Inductive exn : Type :=
| IndexError (msg : string)
| ValueError (msg : string)
| KeyError (k : string)
| AttributeError (k : string)
| ZeroDivisionError
| TypeError
| StopIteration
| NotImplementedError (msg : string).

(** A call returns a value, raises, or (for a [while] loop run on a budget
    of iterations) has not finished when the budget is spent. *)
Inductive result (A : Type) : Type :=
| Ok (a : A)
| Raise (e : exn)
| OutOfFuel.

Arguments Ok {A} a.
Arguments Raise {A} e.
Arguments OutOfFuel {A}.

Definition bind {A B : Type} (r : result A) (f : A -> result B) : result B :=
  match r with
  | Ok a => f a
  | Raise e => Raise e
  | OutOfFuel => OutOfFuel
  end.

Notation "'let*' x ':=' r 'in' k" := (bind r (fun x => k))
  (at level 10, x pattern, r at level 100, k at level 200).

(** ** Numbers

    Keys, priorities and distances are Python numbers: the integers, and
    [float('inf')], which Dijkstra uses as the initial distance. *)
Inductive num : Type :=
| Fin (z : Z)
| Inf.

(** [a <= b] *)
Definition num_leb (a b : num) : bool :=
  match a, b with
  | Fin x, Fin y => (x <=? y)%Z
  | _, Inf => true
  | Inf, Fin _ => false
  end.

(** [a < b] *)
Definition num_ltb (a b : num) : bool :=
  match a, b with
  | Fin x, Fin y => (x <? y)%Z
  | Fin _, Inf => true
  | Inf, _ => false
  end.

(** [a + w] for an integer [w] *)
Definition num_add (a : num) (w : Z) : num :=
  match a with
  | Fin x => Fin (x + w)
  | Inf => Inf
  end.

Definition num_le (a b : num) : Prop := num_leb a b = true.
Definition num_ge (a b : num) : Prop := num_leb b a = true.

(** ** Ordered dictionaries

    A Python [dict] keeps its keys in insertion order, and the code iterates
    over one ([for vertex in dist]); assigning to a present key keeps its
    place. *)
Definition dict (V : Type) : Type := list (string * V).

Fixpoint dict_get {V : Type} (k : string) (m : dict V) : option V :=
  match m with
  | [] => None
  | (k', v) :: m' => if String.eqb k k' then Some v else dict_get k m'
  end.

Definition dict_mem {V : Type} (k : string) (m : dict V) : bool :=
  match dict_get k m with
  | Some _ => true
  | None => false
  end.

Fixpoint dict_set {V : Type} (k : string) (v : V) (m : dict V) : dict V :=
  match m with
  | [] => [(k, v)]
  | (k', v') :: m' =>
      if String.eqb k k' then (k, v) :: m' else (k', v') :: dict_set k v m'
  end.

Definition dict_keys {V : Type} (m : dict V) : list string := map fst m.

(** [m[k]], raising [KeyError] on an absent key. *)
Definition dict_item {V : Type} (k : string) (m : dict V) : result V :=
  match dict_get k m with
  | Some v => Ok v
  | None => Raise (KeyError k)
  end.

(** ** Nodes ([misc_util.py]) *)

(** [TreeNode(key, data)].  Only [key] and [data] are read by the heap; the
    remaining slots ([left], [right], [parent], [height], [size], [is_root])
    and the [_leftmost]/[_rightmost] marks set by the heap are written and
    read by [__str__] only. *)
Record TreeNode (D : Type) : Type := mkTreeNode {
  key : num;
  data : D
}.

Arguments mkTreeNode {D} key data.
Arguments key {D} _.
Arguments data {D} _.

(** ** The backing array *)

(** Modelled from the spec: [DynamicOneDimensionalArray] of
    [datastructsalgo/linear_data_structures/arrays.py] is not among the
    sources.  The spec describes the backing store as a growable array,
    dense over [[0, size)] with no gaps, so it is a list; [append] adds at
    the end, [delete] of the last occupied index drops the last element,
    [_last_pos_filled] is [size - 1], and reading an index outside
    [[0, size)] raises [IndexError]. *)
Definition array_getitem {A : Type} (l : list A) (i : nat) : result A :=
  match l !! i with
  | Some x => Ok x
  | None => Raise (IndexError "Index out of range.")
  end.

Definition array_append {A : Type} (l : list A) (x : A) : list A := l ++ [x].

Definition array_delete {A : Type} (l : list A) (i : nat) : list A := delete i l.

Definition array_last_pos_filled {A : Type} (l : list A) : Z :=
  (Z.of_nat (length l) - 1)%Z.

(** ** [DHeap] ([heaps.py]) *)

(** The slots of a [DHeap].  The arity [d] is a count of children (the
    specification asks for [d >= 2]); [_last_pos_filled] is derived from
    the array, see below. *)
Record DHeap (D : Type) : Type := mkDHeap {
  _comp : num -> num -> bool;
  heap : list (TreeNode D);
  d : nat;
  heap_property : string
}.

Arguments mkDHeap {D} _ _ _ _.
Arguments _comp {D} _.
Arguments heap {D} _.
Arguments d {D} _.
Arguments heap_property {D} _.

Section Heap.
Context {D : Type}.

Definition set_heap (h : DHeap D) (l : list (TreeNode D)) : DHeap D :=
  mkDHeap (_comp h) l (d h) (heap_property h).

(** The heap's own [_last_pos_filled] is a copy of the array's, kept equal
    to it by [insert] ([+= 1] after [append]) and [extract] ([-= 1] after
    [delete]). *)
Definition _last_pos_filled (h : DHeap D) : Z := array_last_pos_filled (heap h).

(** [_swap]: the keys and data of the two slots change places. *)
Definition _swap (l : list (TreeNode D)) (idx1 idx2 : nat)
  : result (list (TreeNode D)) :=
  let* n1 := array_getitem l idx1 in
  let* n2 := array_getitem l idx2 in
  Ok (<[idx2 := n1]> (<[idx1 := n2]> l)).

(** The [for j in range(l, r+1)] scan of [_heapify]: [js] is what is left of
    the range, [target] the running choice; the scan stops at the first [j]
    past the last occupied slot. *)
Fixpoint scan_children (comp : num -> num -> bool) (l : list (TreeNode D))
    (target : nat) (js : list nat) : result nat :=
  match js with
  | [] => Ok target
  | j :: js' =>
      if (Z.of_nat j <=? array_last_pos_filled l)%Z then
        let* nj := array_getitem l j in
        let* nt := array_getitem l target in
        scan_children comp l (if comp (key nj) (key nt) then j else target) js'
      else Ok target
  end.

(** The child (or [i] itself) that one round of [_heapify] at [i] picks. *)
Definition heapify_target (comp : num -> num -> bool) (dd : nat)
    (l : list (TreeNode D)) (i : nat) : result nat :=
  let lo := dd * i + 1 in
  let r := dd * i + dd in
  scan_children comp l i (seq lo (r + 1 - lo)).

(** [_heapify]: the [while True] loop, on a budget of rounds. *)
Fixpoint heapify_loop (fuel : nat) (comp : num -> num -> bool) (dd : nat)
    (l : list (TreeNode D)) (i : nat) : result (list (TreeNode D)) :=
  match fuel with
  | 0 => OutOfFuel
  | S fuel' =>
      let* target := heapify_target comp dd l i in
      if negb (target =? i) then
        let* l' := _swap l target i in
        heapify_loop fuel' comp dd l' target
      else Ok l
  end.

(** Every round moves [i] to a larger index below [length l], so
    [length l + 1] rounds are never used up (see [heapify_loop_perm]). *)
Definition _heapify (comp : num -> num -> bool) (dd : nat)
    (l : list (TreeNode D)) (i : nat) : result (list (TreeNode D)) :=
  heapify_loop (S (length l)) comp dd l i.

(** [_build]: [_heapify(i)] for [i] in
    [range((_last_pos_filled + 1)//d, -1, -1)]. *)
Fixpoint build_loop (comp : num -> num -> bool) (dd : nat)
    (l : list (TreeNode D)) (idxs : list nat) : result (list (TreeNode D)) :=
  match idxs with
  | [] => Ok l
  | i :: idxs' =>
      let* l' := _heapify comp dd l i in
      build_loop comp dd l' idxs'
  end.

Definition _build (h : DHeap D) : result (DHeap D) :=
  if d h =? 0 then Raise ZeroDivisionError
  else
    let start := Z.to_nat (_last_pos_filled h + 1) / d h in
    let* l := build_loop (_comp h) (d h) (heap h) (rev (seq 0 (start + 1))) in
    Ok (set_heap h l).

(** [DHeap.__new__(elements, heap_property, d)]; [elements] is [None] or a
    list of nodes. *)
Definition DHeap_new (elements : option (list (TreeNode D)))
    (heap_property : string) (dd : nat) : result (DHeap D) :=
  let* comp :=
    if String.eqb heap_property "min" then
      Ok (fun key_parent key_child => num_leb key_parent key_child)
    else if String.eqb heap_property "max" then
      Ok (fun key_parent key_child => num_leb key_child key_parent)
    else Raise (ValueError (heap_property ++ " is invalid heap property")) in
  let elements :=
    match elements with
    | None => []
    | Some l => l
    end in
  _build (mkDHeap comp elements dd heap_property).

(** The sift-up [while True] loop of [insert], on a budget of rounds.  For
    [i = 0] Python's [(i - 1)//d] is [-1] and is not used; the truncated
    subtraction of [nat] gives [0], which is not used either. *)
Fixpoint sift_up (fuel : nat) (comp : num -> num -> bool) (dd : nat)
    (l : list (TreeNode D)) (i : nat) : result (list (TreeNode D)) :=
  match fuel with
  | 0 => OutOfFuel
  | S fuel' =>
      if dd =? 0 then Raise ZeroDivisionError
      else
        let parent := (i - 1) / dd in
        if i =? 0 then Ok l
        else
          let* np := array_getitem l parent in
          let* ni := array_getitem l i in
          if comp (key np) (key ni) then Ok l
          else
            let* l' := _swap l i parent in
            sift_up fuel' comp dd l' parent
  end.

(** [insert(key, data)]: append the node, then sift it up from the last
    slot. *)
Definition insert (h : DHeap D) (k : num) (x : D) : result (DHeap D) :=
  let new_node := mkTreeNode k x in
  let l := array_append (heap h) new_node in
  let i := Z.to_nat (array_last_pos_filled l) in
  let* l' := sift_up (S i) (_comp h) (d h) l i in
  Ok (set_heap h l').

(** [extract()]: raise on the empty heap; otherwise copy the root, swap it
    with the last slot, delete that slot and sift down from the root. *)
Definition extract (h : DHeap D) : result (TreeNode D * DHeap D) :=
  if (_last_pos_filled h =? -1)%Z then Raise (IndexError "Heap is empty.")
  else
    let* root := array_getitem (heap h) 0 in
    let element_to_be_extracted := mkTreeNode (key root) (data root) in
    let* l1 := _swap (heap h) 0 (Z.to_nat (_last_pos_filled h)) in
    let l2 := array_delete l1 (Z.to_nat (_last_pos_filled h)) in
    let* l3 := _heapify (_comp h) (d h) l2 0 in
    Ok (element_to_be_extracted, set_heap h l3).

(** The property [is_empty]. *)
Definition is_empty (h : DHeap D) : bool :=
  (array_last_pos_filled (heap h) =? -1)%Z.

(** [BinaryHeap.__new__(elements, heap_property)] *)
Definition BinaryHeap_new (elements : option (list (TreeNode D)))
    (heap_property : string) : result (DHeap D) :=
  DHeap_new elements heap_property 2.

End Heap.

(** ** [PriorityQueue] ([queue.py])

    [queue.py] imports [BinaryHeap] from [pydatastructs.trees.heaps], the
    library this package was taken from; the heap modelled here is that
    class as the repository's own [heaps.py] gives it. *)

Record BinaryHeapPriorityQueue (V : Type) : Type := mkPQ {
  items : DHeap V
}.

Arguments mkPQ {V} _.
Arguments items {V} _.

Section Queue.
Context {V : Type}.

(** [BinaryHeapPriorityQueue.__new__(comp)]: a [BinaryHeap()] whose [_comp]
    is then replaced by [comp]. *)
Definition BinaryHeapPriorityQueue_new (comp : num -> num -> bool)
  : result (BinaryHeapPriorityQueue V) :=
  let* h := BinaryHeap_new None "min" in
  Ok (mkPQ (mkDHeap comp (heap h) (d h) (heap_property h))).

(** [PriorityQueue.__new__(implementation, comp=...)]; the default [comp]
    is [lambda u, v: u < v]. *)
Definition PriorityQueue_new (implementation : string)
    (comp : option (num -> num -> bool))
  : result (BinaryHeapPriorityQueue V) :=
  let comp :=
    match comp with
    | Some c => c
    | None => fun u v => num_ltb u v
    end in
  if String.eqb implementation "binary_heap" then
    BinaryHeapPriorityQueue_new comp
  else
    Raise (NotImplementedError
      "%s implementation is not currently supported by priority queue.").

Definition push (q : BinaryHeapPriorityQueue V) (value : V) (priority : num)
  : result (BinaryHeapPriorityQueue V) :=
  let* h := insert (items q) priority value in
  Ok (mkPQ h).

Definition pop (q : BinaryHeapPriorityQueue V)
  : result (V * BinaryHeapPriorityQueue V) :=
  let* (node, h) := extract (items q) in
  Ok (data node, mkPQ h).

Definition peek (q : BinaryHeapPriorityQueue V) : result (TreeNode V) :=
  if is_empty (items q) then Raise (IndexError "Priority queue is empty.")
  else array_getitem (heap (items q)) 0.

Definition pq_is_empty (q : BinaryHeapPriorityQueue V) : bool :=
  is_empty (items q).

End Queue.

(** ** Graph nodes and edges ([misc_util.py]) *)

(** [AdjacencyListGraphNode(name, data, adjacency_list)]: the name and the
    names of the adjacent nodes; [data] is opaque to the algorithms. *)
Record AdjacencyListGraphNode : Type := mkNode {
  name : string;
  adjacent : list string
}.

(** [add_adjacent_node(name)]: a node already adjacent only has its data
    reset; a new one is appended to [adjacent]. *)
Definition add_adjacent_node (n : AdjacencyListGraphNode) (nm : string)
  : AdjacencyListGraphNode :=
  if existsb (String.eqb nm) (adjacent n) then n
  else mkNode (name n) (adjacent n ++ [nm]).

(** [GraphEdge(node1, node2, value)].  The two node objects are held by
    reference; the model holds their names, under which the graph that owns
    them stores them. *)
Record GraphEdge : Type := mkEdge {
  source : string;
  target : string;
  value : Z
}.

(** ** The graph container *)

(** Modelled from the spec: [datastructsalgo/graphs/graph.py] and the
    adjacency-list class behind it are not among the sources.  The spec
    gives the capability the algorithms consume: a vertex set with unique
    string identifiers, iterated in a fixed order ([vertices]); the
    neighbours of a vertex; directed edge weights keyed by the ordered pair
    of vertices, which the algorithms read as [edge_weights[u + '_' + v]];
    a fresh empty graph, [add_vertex] and [add_edge(from, to, weight)] for
    the output of Prim.  The test [hasattr(graph, v)] is membership of [v]
    among the vertices, and [_impl] is the implementation name the
    dispatchers read. *)
Record Graph : Type := mkGraph {
  _impl : string;
  vertices : list string;
  nodes : dict AdjacencyListGraphNode;
  edge_weights : dict GraphEdge
}.

Definition Graph_empty (implementation : string) : Graph :=
  mkGraph implementation [] [] [].

Definition graph_hasattr (g : Graph) (v : string) : bool :=
  dict_mem v (nodes g).

Definition graph_getattribute (g : Graph) (v : string)
  : result AdjacencyListGraphNode :=
  match dict_get v (nodes g) with
  | Some n => Ok n
  | None => Raise (AttributeError v)
  end.

Definition add_vertex (g : Graph) (n : AdjacencyListGraphNode) : Graph :=
  mkGraph (_impl g)
    (if graph_hasattr g (name n) then vertices g else vertices g ++ [name n])
    (dict_set (name n) n (nodes g))
    (edge_weights g).

Definition add_edge (g : Graph) (s t : string) (cost : Z) : result Graph :=
  match dict_get s (nodes g), dict_get t (nodes g) with
  | None, _ =>
      Raise (ValueError ("Vertex " ++ s ++ " is not present in the graph."))
  | _, None =>
      Raise (ValueError ("Vertex " ++ t ++ " is not present in the graph."))
  | Some sn, Some tn =>
      let sn' := add_adjacent_node sn (name tn) in
      Ok (mkGraph (_impl g) (vertices g)
            (dict_set s sn' (nodes g))
            (dict_set (name sn' ++ "_" ++ name tn)
               (mkEdge (name sn') (name tn) cost)
               (edge_weights g)))
  end.

Fixpoint mapM {A B : Type} (f : A -> result B) (l : list A) : result (list B) :=
  match l with
  | [] => Ok []
  | a :: l' =>
      let* b := f a in
      let* bs := mapM f l' in
      Ok (b :: bs)
  end.

Definition neighbors (g : Graph) (v : string)
  : result (list AdjacencyListGraphNode) :=
  let* n := graph_getattribute g v in
  mapM (graph_getattribute g) (adjacent n).

(** [Graph] over the given nodes, with the default adjacency-list implementation. *)
Definition Graph_new (ns : list AdjacencyListGraphNode) : Graph :=
  fold_left add_vertex ns (Graph_empty "adjacency_list").

(** ** Prim ([algorithms.py]) *)

Record PrimState : Type := mkPrim {
  prim_q : BinaryHeapPriorityQueue string;
  prim_e : dict GraphEdge;
  prim_mst : Graph
}.

(** The body of [for w_node in graph.neighbors(v)], folded over the
    neighbours. *)
Fixpoint prim_neighbors (graph : Graph) (v : string)
    (ws : list AdjacencyListGraphNode)
    (q : BinaryHeapPriorityQueue string) (e : dict GraphEdge)
  : result (BinaryHeapPriorityQueue string * dict GraphEdge) :=
  match ws with
  | [] => Ok (q, e)
  | w_node :: ws' =>
      let w := name w_node in
      let* vw := dict_item (v ++ "_" ++ w) (edge_weights graph) in
      let* q := push q w (Fin (value vw)) in
      let e :=
        match dict_get w e with
        | None => dict_set w vw e
        | Some ew => if (value ew >? value vw)%Z then dict_set w vw e else e
        end in
      prim_neighbors graph v ws' q e
  end.

(** The [while not q.is_empty] loop, on a budget of rounds. *)
Fixpoint prim_loop (fuel : nat) (graph : Graph) (st : PrimState)
  : result Graph :=
  match fuel with
  | 0 => OutOfFuel
  | S fuel' =>
      if pq_is_empty (prim_q st) then Ok (prim_mst st)
      else
        let* (v, q) := pop (prim_q st) in
        if negb (graph_hasattr (prim_mst st) v) then
          let* vnode := graph_getattribute graph v in
          let mst := add_vertex (prim_mst st) vnode in
          let* mst :=
            match dict_get v (prim_e st) with
            | Some edge =>
                let* tnode := graph_getattribute graph (target edge) in
                let mst := add_vertex mst tnode in
                let* mst := add_edge mst (source edge) (target edge)
                              (value edge) in
                add_edge mst (target edge) (source edge) (value edge)
            | None => Ok mst
            end in
          let* ws := neighbors graph v in
          let* (q, e) := prim_neighbors graph v ws q (prim_e st) in
          prim_loop fuel' graph (mkPrim q e mst)
        else prim_loop fuel' graph (mkPrim q (prim_e st) (prim_mst st))
  end.

Definition _minimum_spanning_tree_prim_adjacency_list (fuel : nat)
    (graph : Graph) : result Graph :=
  let* q := PriorityQueue_new "binary_heap" None in
  let e : dict GraphEdge := [] in
  let mst := Graph_empty "adjacency_list" in
  let* first :=
    match vertices graph with
    | v :: _ => Ok v
    | [] => Raise StopIteration
    end in
  let* q := push q first (Fin 0) in
  prim_loop fuel graph (mkPrim q e mst).

(** The functions [algorithms.py] defines at module level, which the two
    dispatchers look up by a name built from the algorithm and [_impl]. *)
Definition algorithms_functions : list string :=
  [ "_generate_mst_object"; "_sort_edges";
    "_minimum_spanning_tree_prim_adjacency_list";
    "_dijkstra_adjacency_list"; "_dijkstra_adjacency_matrix" ].

Definition algorithms_hasattr (func : string) : bool :=
  existsb (String.eqb func) algorithms_functions.

Definition minimum_spanning_tree (fuel : nat) (graph : Graph)
    (algorithm : string) : result Graph :=
  let func := "_minimum_spanning_tree_" ++ algorithm ++ "_" ++ _impl graph in
  if negb (algorithms_hasattr func) then
    Raise (NotImplementedError
      ("Currently " ++ algorithm ++ " algoithm for " ++ _impl graph ++
       " implementation of graphs isn't implemented for finding minimum spanning trees."))
  else _minimum_spanning_tree_prim_adjacency_list fuel graph.

(** ** Dijkstra ([algorithms.py]) *)

(** One assignment [dist[v] = ...; pred[v] = u]: the edge [(u, v)] it went
    along, the weight read for that edge and the distance written. *)
Record relaxation : Type := mkRelaxation {
  rel_from : string;
  rel_to : string;
  rel_weight : Z;
  rel_dist : num
}.

(** The locals of [_dijkstra_adjacency_list].  [relaxed] is not a variable
    of the code: it is the history of the assignments to [dist[v]] and
    [pred[v]] made in the main loop, kept so that properties of the whole
    run can be stated. *)
Record DijkstraState : Type := mkDijkstra {
  visited : dict bool;
  dist : dict num;
  pred : dict (option string);
  pq : BinaryHeapPriorityQueue string;
  relaxed : list relaxation
}.

(** The first loop: [visited], [pred] and the infinite distances. *)
Fixpoint dijkstra_init (start : string) (vs : list string)
    (visited : dict bool) (dist : dict num) (pred : dict (option string))
  : dict bool * dict num * dict (option string) :=
  match vs with
  | [] => (visited, dist, pred)
  | v :: vs' =>
      let visited := dict_set v false visited in
      let pred := dict_set v None pred in
      let dist := if negb (String.eqb v start) then dict_set v Inf dist else dist in
      dijkstra_init start vs' visited dist pred
  end.

(** [for vertex in dist: pq.push(vertex, dist[vertex])] *)
Fixpoint dijkstra_fill (dist : dict num) (ks : list string)
    (q : BinaryHeapPriorityQueue string)
  : result (BinaryHeapPriorityQueue string) :=
  match ks with
  | [] => Ok q
  | vertex :: ks' =>
      let* dv := dict_item vertex dist in
      let* q := push q vertex dv in
      dijkstra_fill dist ks' q
  end.

(** The body of [for v in graph.vertices] for one [v]. *)
Definition dijkstra_relax (graph : Graph) (u v : string) (st : DijkstraState)
  : result DijkstraState :=
  let edge_str := u ++ "_" ++ v in
  match dict_get edge_str (edge_weights graph) with
  | None => Ok st
  | Some edge =>
      if (value edge >? 0)%Z then
        let* vis := dict_item v (visited st) in
        if negb vis then
          let* dv := dict_item v (dist st) in
          let* du := dict_item u (dist st) in
          if num_ltb (num_add du (value edge)) dv then
            let new := num_add du (value edge) in
            let dist := dict_set v new (dist st) in
            let pred := dict_set v (Some u) (pred st) in
            let* q := push (pq st) v new in
            Ok (mkDijkstra (visited st) dist pred q
                  (relaxed st ++ [mkRelaxation u v (value edge) new]))
          else Ok st
        else Ok st
      else Ok st
  end.

Fixpoint dijkstra_inner (graph : Graph) (u : string) (vs : list string)
    (st : DijkstraState) : result DijkstraState :=
  match vs with
  | [] => Ok st
  | v :: vs' =>
      let* st := dijkstra_relax graph u v st in
      dijkstra_inner graph u vs' st
  end.

(** [for _ in range(V)] *)
Fixpoint dijkstra_outer (graph : Graph) (n : nat) (st : DijkstraState)
  : result DijkstraState :=
  match n with
  | 0 => Ok st
  | S n' =>
      let* (u, q) := pop (pq st) in
      let st := mkDijkstra (dict_set u true (visited st)) (dist st) (pred st)
                  q (relaxed st) in
      let* st := dijkstra_inner graph u (vertices graph) st in
      dijkstra_outer graph n' st
  end.

(** Everything up to the [return]. *)
Definition dijkstra_run (graph : Graph) (start : string)
  : result DijkstraState :=
  let V := length (vertices graph) in
  let '(visited, dist, pred) := dijkstra_init start (vertices graph) [] [] [] in
  let dist := dict_set start (Fin 0) dist in
  let* q := PriorityQueue_new "binary_heap" None in
  let* q := dijkstra_fill dist (dict_keys dist) q in
  dijkstra_outer graph V (mkDijkstra visited dist pred q []).

(** What [_dijkstra_adjacency_list] returns: [(dist[target], pred)] or
    [(dist, pred)]. *)
Inductive paths : Type :=
| ToTarget (distance : num) (predecessors : dict (option string))
| AllPaths (distances : dict num) (predecessors : dict (option string)).

Definition _dijkstra_adjacency_list (graph : Graph) (start target : string)
  : result paths :=
  let* st := dijkstra_run graph start in
  if negb (String.eqb target "") then
    let* dt := dict_item target (dist st) in
    Ok (ToTarget dt (pred st))
  else Ok (AllPaths (dist st) (pred st)).

Definition _dijkstra_adjacency_matrix := _dijkstra_adjacency_list.

(** [shortest_paths(graph, algorithm, source, target="")].  The other
    functions of the module take one or two arguments, so reaching one of
    them by name with three is a [TypeError]. *)
Definition shortest_paths (graph : Graph) (algorithm : string)
    (src : string) (tgt : string) : result paths :=
  let func := "_" ++ algorithm ++ "_" ++ _impl graph in
  if negb (algorithms_hasattr func) then
    Raise (NotImplementedError
      ("Currently " ++ algorithm ++
       " algorithm isn't implemented for finding shortest paths in graphs."))
  else if String.eqb func "_dijkstra_adjacency_list" then
    _dijkstra_adjacency_list graph src tgt
  else if String.eqb func "_dijkstra_adjacency_matrix" then
    _dijkstra_adjacency_matrix graph src tgt
  else Raise TypeError.

(** ** The graphs of the examples *)

Definition node_of (nm : string) : AdjacencyListGraphNode := mkNode nm [].

Fixpoint add_edges (g : Graph) (es : list (string * string * Z)) : result Graph :=
  match es with
  | [] => Ok g
  | (s, t, c) :: es' =>
      let* g := add_edge g s t c in
      add_edges g es'
  end.

(** Vertices V1, V2, V3 with V2-V3 of weight 10 and V1-V2 of weight 11,
    each stored in both directions. *)
Definition G_dijkstra : result Graph :=
  add_edges (Graph_new [node_of "V1"; node_of "V2"; node_of "V3"])
    [("V2", "V3", 10%Z); ("V3", "V2", 10%Z);
     ("V1", "V2", 11%Z); ("V2", "V1", 11%Z)].

(** Vertices A and B with one undirected edge of weight 3. *)
Definition G_prim : result Graph :=
  add_edges (Graph_new [node_of "A"; node_of "B"])
    [("A", "B", 3%Z); ("B", "A", 3%Z)].

(** The first example graph, and the state in which its run from V1
    reaches the [return], both evaluated. *)
Definition G_dijkstra_graph : Graph :=
  Eval vm_compute in
    match G_dijkstra with
    | Ok g => g
    | _ => Graph_empty "adjacency_list"
    end.

Definition G_dijkstra_final : DijkstraState :=
  Eval vm_compute in
    match dijkstra_run G_dijkstra_graph "V1" with
    | Ok st => st
    | _ => mkDijkstra [] [] [] (mkPQ (mkDHeap (fun u v => num_ltb u v) [] 2 "min")) []
    end.

(** ** The stream of [min_max_stream.py] *)

(** Modelled from the spec: [_num] of the backing array, which is not among
    the sources, is the number of nodes it holds; the array is dense, so it
    is the length of the list. *)
Definition array_num {A : Type} (l : list A) : Z := Z.of_nat (length l).

Section Stream.
Context {D : Type}.

(** [modify_heaps(min_heap, max_heap, curr_num, k)] of [min_max_stream.py];
    [insert(curr_num)] stores the data [None].  The two heaps are updated in
    place and are returned here beside the pair [(large, small)]. *)
Definition modify_heaps (min_heap max_heap : DHeap (option D))
    (curr_num k : Z)
  : result (num * num * DHeap (option D) * DHeap (option D)) :=
  let* min_heap := insert min_heap (Fin curr_num) None in
  let* max_heap := insert max_heap (Fin curr_num) None in
  let* min_heap :=
    if (array_num (heap min_heap) >? k)%Z then
      let* (nd, h) := extract min_heap in Ok h
    else Ok min_heap in
  let* max_heap :=
    if (array_num (heap max_heap) >? k)%Z then
      let* (nd, h) := extract max_heap in Ok h
    else Ok max_heap in
  let* n_max := array_getitem (heap max_heap) 0 in
  let* n_min := array_getitem (heap min_heap) 0 in
  Ok (key n_max, key n_min, min_heap, max_heap).

(** The calls the script makes, one for each number it reads, on the same
    two heaps; the pairs are the lines it prints. *)
Fixpoint modify_heaps_stream (min_heap max_heap : DHeap (option D))
    (nums : list Z) (k : Z)
  : result (list (num * num) * DHeap (option D) * DHeap (option D)) :=
  match nums with
  | [] => Ok ([], min_heap, max_heap)
  | curr_num :: nums' =>
      let* (large, small, min_heap, max_heap) :=
        modify_heaps min_heap max_heap curr_num k in
      let* (outs, min_heap, max_heap) :=
        modify_heaps_stream min_heap max_heap nums' k in
      Ok ((large, small) :: outs, min_heap, max_heap)
  end.

End Stream.

(** The script: a min-heap and a max-heap, both empty, then [modify_heaps]
    for every number read, the closing [0] included. *)
Definition min_max_stream (k : Z) (nums : list Z) : result (list (num * num)) :=
  let* min_heap := BinaryHeap_new (D := option unit) None "min" in
  let* max_heap := BinaryHeap_new (D := option unit) None "max" in
  let* (outs, min_heap, max_heap) :=
    modify_heaps_stream min_heap max_heap nums k in
  Ok outs.

(** ** A graph on which entries are left over in the queue *)

(** Six vertices; S reaches D directly (100) and through C (50 + 1), and
    reaches A and A2 both directly (10) and through B (1 + 1). *)
Definition G_stale : Graph :=
  Eval vm_compute in
    match add_edges
            (Graph_new [node_of "S"; node_of "B"; node_of "A"; node_of "A2";
                        node_of "C"; node_of "D"])
            [("S", "B", 1%Z); ("S", "A", 10%Z); ("S", "A2", 10%Z);
             ("B", "A", 1%Z); ("B", "A2", 1%Z);
             ("S", "C", 50%Z); ("C", "D", 1%Z); ("S", "D", 100%Z)] with
    | Ok g => g
    | _ => Graph_empty "adjacency_list"
    end.

(** * Predicates of the specification *)

(** The transposition of [i] and [j]. *)
Definition transp (i j c : nat) : nat :=
  if decide (c = i) then j else if decide (c = j) then i else c.

(** The node at [p] dominates the node at [c], when both slots are
    occupied. *)
Definition dominates {D : Type} (comp : num -> num -> bool)
    (l : list (TreeNode D)) (p c : nat) : Prop :=
  forall np nc, l !! p = Some np -> l !! c = Some nc ->
                comp (key np) (key nc) = true.

Definition parent_of (dd c : nat) : nat := (c - 1) / dd.

(** Every parent at or after [lo] dominates its children. *)
Definition ordered_from {D : Type} (comp : num -> num -> bool) (dd lo : nat)
    (l : list (TreeNode D)) : Prop :=
  forall c, 0 < c -> lo <= parent_of dd c -> dominates comp l (parent_of dd c) c.

(** The invariant of the data model: for every non-root occupied index [i]
    with parent [p = (i-1)//d], [comparator(key at p, key at i)]. *)
Definition heap_invariant {D : Type} (h : DHeap D) : Prop :=
  forall i ni np, 0 < i ->
    heap h !! i = Some ni -> heap h !! ((i - 1) / d h) = Some np ->
    _comp h (key np) (key ni) = true.

(** Ordered from [lo] except that [i] need not dominate its children; the
    parent of [i] dominates them instead. *)
Definition down_except {D : Type} (comp : num -> num -> bool) (dd lo : nat)
    (l : list (TreeNode D)) (i : nat) : Prop :=
  (forall c, 0 < c -> lo <= parent_of dd c -> parent_of dd c <> i ->
             dominates comp l (parent_of dd c) c) /\
  (0 < i -> lo <= parent_of dd i ->
   forall c, 0 < c -> parent_of dd c = i -> dominates comp l (parent_of dd i) c).

(** Ordered except that [i] need not be dominated by its parent; the parent
    of [i] dominates the children of [i]. *)
Definition up_except {D : Type} (comp : num -> num -> bool) (dd : nat)
    (l : list (TreeNode D)) (i : nat) : Prop :=
  (forall c, 0 < c -> c <> i -> dominates comp l (parent_of dd c) c) /\
  (0 < i ->
   forall c, 0 < c -> parent_of dd c = i -> dominates comp l (parent_of dd i) c).

Definition total_preorder (comp : num -> num -> bool) : Prop :=
  (forall a b, comp a b = false -> comp b a = true) /\
  (forall a b c, comp a b = true -> comp b c = true -> comp a c = true).

(** The heaps an object goes through: each successful [insert] or
    [extract] is a step ([extract] on an empty heap raises before it
    assigns anything, and leaves the heap where it was). *)
Inductive reachable {D : Type} (h0 : DHeap D) : DHeap D -> Prop :=
| reach_start : reachable h0 h0
| reach_insert h k x h' :
    reachable h0 h -> insert h k x = Ok h' -> reachable h0 h'
| reach_extract h nd h' :
    reachable h0 h -> extract h = Ok (nd, h') -> reachable h0 h'.

Fixpoint insert_all {D : Type} (h : DHeap D) (kvs : list (num * D))
  : result (DHeap D) :=
  match kvs with
  | [] => Ok h
  | (k, x) :: kvs' =>
      let* h := insert h k x in
      insert_all h kvs'
  end.

Fixpoint extract_n {D : Type} (h : DHeap D) (n : nat)
  : result (list (TreeNode D) * DHeap D) :=
  match n with
  | 0 => Ok ([], h)
  | S n' =>
      let* (nd, h) := extract h in
      let* (out, h) := extract_n h n' in
      Ok (nd :: out, h)
  end.

Definition node_of_pair {D : Type} (kv : num * D) : TreeNode D :=
  mkTreeNode (fst kv) (snd kv).

Definition elements_of {D : Type} (elements : option (list (TreeNode D)))
  : list (TreeNode D) :=
  match elements with
  | None => []
  | Some l => l
  end.

(** The tie-break as the specification words it: whenever the round at [i]
    selects a child [t] and another child [c] of [i] is as dominating as
    [t], the selected index is the lower one. *)
Definition lowest_index_wins {D : Type} (comp : num -> num -> bool) (dd : nat)
    (l : list (TreeNode D)) (i : nat) : Prop :=
  forall t, heapify_target comp dd l i = Ok t -> t <> i ->
  forall c nc nt, 0 < c -> parent_of dd c = i ->
    l !! c = Some nc -> l !! t = Some nt ->
    comp (key nc) (key nt) = true -> t <= c.

(** The dictionaries [dist] and [pred] as they stand when the main loop
    starts. *)
Definition dijkstra_dist0 (graph : Graph) (start : string) : dict num :=
  dict_set start (Fin 0) (dijkstra_init start (vertices graph) [] [] []).1.2.

Definition dijkstra_pred0 (graph : Graph) (start : string)
  : dict (option string) :=
  (dijkstra_init start (vertices graph) [] [] []).2.

(** The assignments a list of relaxations makes, in order. *)
Definition replay_dist (log : list relaxation) (m : dict num) : dict num :=
  fold_left (fun m r => dict_set (rel_to r) (rel_dist r) m) log m.

Definition replay_pred (log : list relaxation) (m : dict (option string))
  : dict (option string) :=
  fold_left (fun m r => dict_set (rel_to r) (Some (rel_from r)) m) log m.

(** A recorded relaxation went along an edge of the graph, and the weight
    of that edge is greater than 0. *)
Definition positive_edge (graph : Graph) (r : relaxation) : Prop :=
  (0 < rel_weight r)%Z /\
  exists e, dict_get (rel_from r ++ "_" ++ rel_to r) (edge_weights graph)
            = Some e /\
            value e = rel_weight r.

Definition relaxations_accounted (graph : Graph) (start : string)
    (st : DijkstraState) : Prop :=
  Forall (positive_edge graph) (relaxed st) /\
  dist st = replay_dist (relaxed st) (dijkstra_dist0 graph start) /\
  pred st = replay_pred (relaxed st) (dijkstra_pred0 graph start).

(** What the main loop of Dijkstra keeps true: [visited] and [dist] have an
    entry for every vertex, [dist] has no other entry, and the queue holds
    vertices only. *)
Definition dijkstra_wf (graph : Graph) (st : DijkstraState) : Prop :=
  (forall v, v ∈ vertices graph -> is_Some (dict_get v (visited st))) /\
  (forall v, is_Some (dict_get v (dist st)) <-> v ∈ vertices graph) /\
  Forall (fun nd => data nd ∈ vertices graph) (heap (items (pq st))) /\
  d (items (pq st)) = 2.

Definition queue_length (st : DijkstraState) : nat :=
  length (heap (items (pq st))).

(** * Predicates of the further properties *)

(** [comp] decides, [le] is the order it keeps. *)
Definition refines (comp le : num -> num -> bool) : Prop :=
  (forall a b, comp a b = true -> le a b = true) /\
  (forall a b, comp a b = false -> le b a = true) /\
  (forall a b c, le a b = true -> le b c = true -> le a c = true).

Definition weakly_ordered {D : Type} (le : num -> num -> bool) (h : DHeap D)
  : Prop :=
  ordered_from le (d h) 0 (heap h).

(** [push] each [(value, priority)] in turn. *)
Fixpoint push_all {V : Type} (q : BinaryHeapPriorityQueue V)
    (vps : list (V * num)) : result (BinaryHeapPriorityQueue V) :=
  match vps with
  | [] => Ok q
  | (v, p) :: vps' =>
      let* q := push q v p in
      push_all q vps'
  end.

(** [pop] [n] times, collecting the values. *)
Fixpoint pop_n {V : Type} (q : BinaryHeapPriorityQueue V) (n : nat)
  : result (list V * BinaryHeapPriorityQueue V) :=
  match n with
  | 0 => Ok ([], q)
  | S n' =>
      let* (v, q) := pop q in
      let* (out, q) := pop_n q n' in
      Ok (v :: out, q)
  end.

(** The queues an object goes through by [push] and [pop]. *)
Inductive pq_reachable {V : Type} (q0 : BinaryHeapPriorityQueue V)
  : BinaryHeapPriorityQueue V -> Prop :=
| pq_reach_start : pq_reachable q0 q0
| pq_reach_push q v p q' :
    pq_reachable q0 q -> push q v p = Ok q' -> pq_reachable q0 q'
| pq_reach_pop q v q' :
    pq_reachable q0 q -> pop q = Ok (v, q') -> pq_reachable q0 q'.

(** A walk from [s] to [v] along edges of the graph of positive weight,
    of the given total weight; an edge from [u] to [v] is an entry of
    [edge_weights] under [u + '_' + v]. *)
Inductive walk (graph : Graph) (s : string) : string -> Z -> Prop :=
| walk_start : walk graph s s 0
| walk_step u v e w :
    walk graph s u w ->
    dict_get (u ++ "_" ++ v) (edge_weights graph) = Some e ->
    (0 < value e)%Z ->
    walk graph s v (w + value e).

(** What the main loop keeps true of [dist], [pred] and [visited]. *)
Definition dijkstra_sound (graph : Graph) (start : string)
    (st : DijkstraState) : Prop :=
  dict_get start (dist st) = Some (Fin 0) /\
  (forall k dk, dict_get k (dist st) = Some dk -> num_leb (Fin 0) dk = true) /\
  (forall v u, dict_get v (pred st) = Some (Some u) ->
     v <> start /\ dict_get u (visited st) = Some true /\
     exists e x,
       dict_get (u ++ "_" ++ v) (edge_weights graph) = Some e /\
       (0 < value e)%Z /\
       dict_get u (dist st) = Some (Fin x) /\
       dict_get v (dist st) = Some (Fin (x + value e))) /\
  (forall v x, dict_get v (dist st) = Some (Fin x) ->
     v = start \/ exists u, dict_get v (pred st) = Some (Some u)).

Definition pred_on_vertices (graph : Graph) (st : DijkstraState) : Prop :=
  forall k, is_Some (dict_get k (pred st)) <-> k ∈ vertices graph.

(** [v] is the [k]-th of the numbers [seen] counted from the far end of the
    order [le] (the last of them when there are fewer than [k]): the numbers
    split into [k] kept ones, of which [v] is the first, and dropped ones,
    all before [v]. *)
Definition kth_from_end (le : num -> num -> Prop) (k : Z) (seen : list Z)
    (v : num) : Prop :=
  exists kept dropped,
    Fin <$> seen ≡ₚ kept ++ dropped /\
    Z.of_nat (length kept) = Z.min k (Z.of_nat (length seen)) /\
    v ∈ kept /\
    (forall a, a ∈ kept -> le v a) /\
    (forall b, b ∈ dropped -> le b v).

(** What [modify_heaps] keeps true of each of its heaps after the numbers
    [seen]: the heap holds [min k (length seen)] of them, and its comparator
    puts every number it has given up before every one it holds. *)
Definition tracks {D : Type} (k : Z) (seen : list Z) (h : DHeap D) : Prop :=
  1 <= d h /\ total_preorder (_comp h) /\ heap_invariant h /\
  Z.of_nat (length (heap h)) = Z.min k (Z.of_nat (length seen)) /\
  exists dropped,
    Fin <$> seen ≡ₚ (key <$> heap h) ++ dropped /\
    forall b n, b ∈ dropped -> n ∈ heap h -> _comp h b (key n) = true.

(** What the main loop of Dijkstra keeps true when the source is not a
    vertex: the source stays at distance 0, every vertex at infinity and
    without a predecessor, and the queue holds the source and vertices. *)
Definition dijkstra_idle (graph : Graph) (start : string)
    (st : DijkstraState) : Prop :=
  dict_get start (dist st) = Some (Fin 0) /\
  (forall v, v ∈ vertices graph ->
     dict_get v (dist st) = Some Inf /\ dict_get v (pred st) = Some None /\
     is_Some (dict_get v (visited st))) /\
  Forall (fun nd => data nd = start \/ data nd ∈ vertices graph)
    (heap (items (pq st))) /\
  d (items (pq st)) = 2.

(** A walk from [s] along edges of positive weight between vertices of the
    graph, the edges the main loop of Dijkstra looks at. *)
Inductive vertex_walk (graph : Graph) (s : string) : string -> Z -> Prop :=
| vertex_walk_start : vertex_walk graph s s 0
| vertex_walk_step u v e w :
    vertex_walk graph s u w -> v ∈ vertices graph ->
    dict_get (u ++ "_" ++ v) (edge_weights graph) = Some e ->
    (0 < value e)%Z ->
    vertex_walk graph s v (w + value e).

(** What the main loop of Dijkstra keeps true of the vertices it has
    popped.  The queue is ordered and its entries are vertices with a
    priority at or above their distance; every vertex not yet popped has
    an entry at its distance; the popped vertices are at or below every
    entry; the edges out of a popped vertex [u] into [v] are relaxed where
    [P u v]; and the distance of a popped vertex is at most the weight of
    every walk to it. *)
Definition dijkstra_exact (graph : Graph) (start : string)
    (P : string -> string -> Prop) (st : DijkstraState) : Prop :=
  dijkstra_wf graph st /\
  refines (_comp (items (pq st))) num_leb /\
  weakly_ordered num_leb (items (pq st)) /\
  start ∈ vertices graph /\
  dict_get start (dist st) = Some (Fin 0) /\
  (forall k dk, dict_get k (dist st) = Some dk -> num_leb (Fin 0) dk = true) /\
  (forall nd, nd ∈ heap (items (pq st)) ->
     exists dk, dict_get (data nd) (dist st) = Some dk /\
                num_leb dk (key nd) = true) /\
  (forall z, z ∈ vertices graph -> dict_get z (visited st) = Some false ->
     exists dz, dict_get z (dist st) = Some dz /\
                mkTreeNode dz z ∈ heap (items (pq st))) /\
  (forall v dv nd,
     dict_get v (visited st) = Some true -> dict_get v (dist st) = Some dv ->
     nd ∈ heap (items (pq st)) -> num_leb dv (key nd) = true) /\
  (forall u v e du dv,
     P u v -> dict_get u (visited st) = Some true -> v ∈ vertices graph ->
     dict_get (u ++ "_" ++ v) (edge_weights graph) = Some e ->
     (0 < value e)%Z ->
     dict_get u (dist st) = Some du -> dict_get v (dist st) = Some dv ->
     num_leb dv (num_add du (value e)) = true) /\
  (forall u du y,
     dict_get u (visited st) = Some true -> dict_get u (dist st) = Some du ->
     vertex_walk graph start u y -> num_leb du (Fin y) = true).

(** The same inside the round of the popped vertex [x], whose edges into
    the vertices of [Pv] are relaxed so far; no popped vertex is farther
    than [x]. *)
Definition dijkstra_exact_from (graph : Graph) (start x : string) (dx : num)
    (Pv : string -> Prop) (st : DijkstraState) : Prop :=
  dijkstra_exact graph start (fun u v => u <> x \/ Pv v) st /\
  dict_get x (visited st) = Some true /\
  dict_get x (dist st) = Some dx /\
  (forall w dw,
     dict_get w (visited st) = Some true -> dict_get w (dist st) = Some dw ->
     num_leb dw dx = true).

(** * Properties *)

(** ** Results *)

Lemma bind_Ok {A B : Type} (r : result A) (f : A -> result B) (b : B) :
  bind r f = Ok b -> exists a, r = Ok a /\ f a = Ok b.
Proof. destruct r; simpl; intros; try discriminate. eauto. Qed.

Ltac inv_bind H :=
  let a := fresh "a" in
  let Ha := fresh "Ha" in
  apply bind_Ok in H; destruct H as (a & Ha & H).

(** ** The order on numbers *)

Lemma num_leb_total (a b : num) : num_leb a b = false -> num_leb b a = true.
Proof. destruct a, b; simpl; intros; try discriminate; try reflexivity; lia. Qed.

Lemma num_leb_trans (a b c : num) :
  num_leb a b = true -> num_leb b c = true -> num_leb a c = true.
Proof. destruct a, b, c; simpl; intros; try discriminate; try reflexivity; lia. Qed.

(** ** The backing array *)

Section Arrays.
Context {A : Type}.
Implicit Types l : list A.

Lemma array_getitem_lookup l i x :
  l !! i = Some x -> array_getitem l i = Ok x.
Proof. unfold array_getitem. intros ->. reflexivity. Qed.

Lemma array_getitem_Ok l i x :
  array_getitem l i = Ok x -> l !! i = Some x.
Proof. unfold array_getitem. destruct (l !! i); intros; simplify_eq; done. Qed.

Lemma array_getitem_lt l i :
  i < length l -> exists x, l !! i = Some x /\ array_getitem l i = Ok x.
Proof.
  intros Hi. destruct (lookup_lt_is_Some_2 l i Hi) as [x Hx].
  exists x. split; [done | by apply array_getitem_lookup].
Qed.

End Arrays.

Lemma transp_l (i j : nat) : transp i j i = j.
Proof. unfold transp. by case_decide. Qed.

Lemma transp_r (i j : nat) : transp i j j = i.
Proof. unfold transp. repeat case_decide; congruence. Qed.

Lemma transp_other (i j c : nat) : c <> i -> c <> j -> transp i j c = c.
Proof. unfold transp. intros. repeat case_decide; congruence. Qed.

Lemma transp_inj (i j : nat) : Inj (=) (=) (transp i j).
Proof. intros a b. unfold transp. repeat case_decide; lia. Qed.

Section HeapFacts.
Context {D : Type}.
Implicit Types l : list (TreeNode D).

Lemma _swap_spec l i j :
  i < length l -> j < length l ->
  exists l', _swap l i j = Ok l' /\ length l' = length l /\
             forall c, l' !! c = l !! transp i j c.
Proof.
  intros Hi Hj.
  destruct (array_getitem_lt l i Hi) as (ni & Hni & Gi).
  destruct (array_getitem_lt l j Hj) as (nj & Hnj & Gj).
  unfold _swap. rewrite Gi, Gj. simpl. eexists. split; [done|].
  split; [by rewrite !length_insert|].
  intros c. unfold transp.
  rewrite !list_lookup_insert, !length_insert.
  repeat case_decide; simplify_eq; try done; try lia; intuition (congruence || lia).
Qed.

Lemma lookup_transp_perm l l' i j :
  length l' = length l -> (forall c, l' !! c = l !! transp i j c) -> l' ≡ₚ l.
Proof.
  intros Hlen Hl. apply Permutation_inj. split; [done|].
  exists (transp i j). split; [apply transp_inj | done].
Qed.

(** *** The scan over the children *)

Lemma scan_children_range comp l n : forall a t0,
  t0 < a ->
  exists t, scan_children comp l t0 (seq a n) = Ok t /\
            (t = t0 \/ (a <= t < a + n /\ t < length l)).
Proof.
  induction n as [|n IH]; intros a t0 Ht0; simpl.
  - eauto.
  - unfold array_last_pos_filled. case_match eqn:Hlast.
    + apply Z.leb_le in Hlast.
      destruct (array_getitem_lt l a ltac:(lia)) as (na & _ & ->).
      destruct (array_getitem_lt l t0 ltac:(lia)) as (nt & _ & ->). simpl.
      destruct (IH (S a) (if comp (key na) (key nt) then a else t0)
                  ltac:(case_match; lia)) as (t & -> & Ht).
      exists t. split; [done|]. case_match; lia.
    + eauto.
Qed.

(** Whatever the comparator, no scanned child after the chosen index was
    preferred to it: the choice is the last index at which the running
    target changed. *)
Lemma scan_children_later comp l n : forall a t0 t,
  t0 < a ->
  scan_children comp l t0 (seq a n) = Ok t ->
  forall c nc nt, a <= c < a + n -> t < c ->
    l !! c = Some nc -> l !! t = Some nt -> comp (key nc) (key nt) = false.
Proof.
  induction n as [|n IH]; intros a t0 t Ht0 Hs c nc nt Hc Htc Hlc Hlt; simpl in Hs.
  - lia.
  - pose proof (lookup_lt_Some _ _ _ Hlc) as Hclen.
    unfold array_last_pos_filled in Hs. case_match eqn:Hlast.
    2:{ apply Z.leb_gt in Hlast. lia. }
    destruct (array_getitem_lt l a ltac:(apply Z.leb_le in Hlast; lia))
      as (na & Hna & Ga).
    destruct (array_getitem_lt l t0 ltac:(apply Z.leb_le in Hlast; lia))
      as (n0 & Hn0 & G0).
    rewrite Ga, G0 in Hs. simpl in Hs.
    destruct (scan_children_range comp l n (S a)
                (if comp (key na) (key n0) then a else t0)
                ltac:(case_match; lia)) as (t' & Ht' & Hrange).
    rewrite Hs in Ht'. simplify_eq.
    destruct (decide (c = a)) as [->|Hne].
    + (* the scan did not move to [a], or moved past it *)
      destruct (comp (key na) (key n0)) eqn:Hcmp.
      * destruct Hrange as [->|?]; lia.
      * destruct Hrange as [->|?]; [|lia]. by simplify_eq.
    + eapply (IH (S a)); [..|exact Hs| | | |]; try done; [case_match|]; lia.
Qed.

End HeapFacts.

Lemma parent_of_lt (dd c : nat) : 1 <= dd -> 0 < c -> parent_of dd c < c.
Proof.
  intros Hd Hc. unfold parent_of.
  pose proof (Nat.Div0.div_le_upper_bound (c - 1) dd (c - 1)). nia.
Qed.

Lemma parent_of_child (dd i c : nat) :
  1 <= dd -> (0 < c /\ parent_of dd c = i) <-> dd * i + 1 <= c < dd * i + dd + 1.
Proof.
  intros Hd. unfold parent_of.
  pose proof (Nat.div_mod_eq (c - 1) dd) as E.
  pose proof (Nat.mod_upper_bound (c - 1) dd ltac:(lia)) as B.
  split.
  - intros [Hc <-]. nia.
  - intros Hc. split; [lia|].
    assert (dd * ((c - 1) / dd) <= c - 1 < dd * ((c - 1) / dd) + dd) by lia.
    nia.
Qed.

Section Swapped.
Context {D : Type} (comp : num -> num -> bool).
Implicit Types l : list (TreeNode D).

Lemma dominates_swapped l l' i j p c :
  (forall k, l' !! k = l !! transp i j k) ->
  dominates comp l (transp i j p) (transp i j c) -> dominates comp l' p c.
Proof. intros Hl Hd np nc. rewrite !Hl. apply Hd. Qed.

Lemma heap_invariant_ordered (h : DHeap D) :
  heap_invariant h <-> ordered_from (_comp h) (d h) 0 (heap h).
Proof.
  unfold heap_invariant, ordered_from, dominates, parent_of. split.
  - intros H c Hc _ np nc Hp Hl. eauto.
  - intros H i ni np Hi Hl Hp. eapply H; eauto. lia.
Qed.

End Swapped.

(** *** Sifting under a total preorder *)

Section Ordered.
Context {D : Type} (comp : num -> num -> bool).
Hypothesis comp_total : forall a b, comp a b = false -> comp b a = true.
Hypothesis comp_trans :
  forall a b c, comp a b = true -> comp b c = true -> comp a c = true.
Implicit Types l : list (TreeNode D).

Lemma comp_refl (a : num) : comp a a = true.
Proof. pose proof (comp_total a a). destruct (comp a a); auto. Qed.

Lemma dominates_refl l c : dominates comp l c c.
Proof. intros np nc Hp Hc. simplify_eq. apply comp_refl. Qed.

Lemma dominates_trans l a b c :
  b < length l ->
  dominates comp l a b -> dominates comp l b c -> dominates comp l a c.
Proof.
  intros Hb Hab Hbc na nc Ha Hc.
  destruct (lookup_lt_is_Some_2 l b Hb) as [nb Hnb]. eauto.
Qed.

(** The chosen index dominates the starting target and every scanned
    child. *)
Lemma scan_children_best l n : forall a t0 t,
  t0 < a ->
  scan_children comp l t0 (seq a n) = Ok t ->
  forall c, c = t0 \/ a <= c < a + n -> dominates comp l t c.
Proof.
  induction n as [|n IH]; intros a t0 t Ht0 Hs c Hc; simpl in Hs.
  - simplify_eq. destruct Hc as [->|?]; [apply dominates_refl | lia].
  - unfold array_last_pos_filled in Hs. case_match eqn:Hlast.
    2:{ apply Z.leb_gt in Hlast. simplify_eq.
        destruct Hc as [->|?]; [apply dominates_refl|].
        intros np nc _ Hl. apply lookup_lt_Some in Hl. lia. }
    apply Z.leb_le in Hlast.
    destruct (array_getitem_lt l a ltac:(lia)) as (na & Hna & Ga).
    destruct (array_getitem_lt l t0 ltac:(lia)) as (n0 & Hn0 & G0).
    rewrite Ga, G0 in Hs. simpl in Hs.
    set (t1 := if comp (key na) (key n0) then a else t0) in *.
    assert (Ht1 : t1 < S a) by (subst t1; case_match; lia).
    assert (Ht1len : t1 < length l) by lia.
    pose proof (IH (S a) t1 t Ht1 Hs) as Hbest.
    assert (H10 : dominates comp l t1 t0).
    { subst t1. destruct (comp (key na) (key n0)) eqn:E.
      - intros ? ? ? ?. by simplify_eq.
      - apply dominates_refl. }
    assert (H1a : dominates comp l t1 a).
    { subst t1. destruct (comp (key na) (key n0)) eqn:E.
      - apply dominates_refl.
      - intros ? ? ? ?. simplify_eq. by apply comp_total. }
    destruct Hc as [->|Hc].
    + eapply dominates_trans; [exact Ht1len | apply Hbest; by left | done].
    + destruct (decide (c = a)) as [->|?].
      * eapply dominates_trans; [exact Ht1len | apply Hbest; by left | done].
      * apply Hbest. right. lia.
Qed.

End Ordered.

(** *** One round of [_heapify] *)

Section Heapify.
Context {D : Type} (comp : num -> num -> bool) (dd : nat).
Hypothesis dd_pos : 1 <= dd.
Implicit Types l : list (TreeNode D).

Lemma heapify_target_unfold l i :
  heapify_target comp dd l i = scan_children comp l i (seq (dd * i + 1) dd).
Proof. unfold heapify_target. f_equal. f_equal. lia. Qed.

Lemma heapify_target_range l i :
  exists t, heapify_target comp dd l i = Ok t /\
            (t = i \/ (0 < t /\ parent_of dd t = i /\ t < length l)).
Proof.
  rewrite heapify_target_unfold.
  destruct (scan_children_range comp l dd (dd * i + 1) i ltac:(nia))
    as (t & Ht & Hr).
  exists t. split; [done|]. destruct Hr as [?|[Hr ?]]; [by left | right].
  pose proof (proj2 (parent_of_child dd i t dd_pos) ltac:(lia)) as [? ?]. done.
Qed.

(** [_heapify] returns, with the same nodes in the same number of slots. *)
Lemma heapify_loop_perm fuel : forall l i,
  length l - i < fuel ->
  exists l', heapify_loop fuel comp dd l i = Ok l' /\
             length l' = length l /\ l' ≡ₚ l.
Proof.
  induction fuel as [|fuel IH]; intros l i Hfuel; [lia|]. simpl.
  destruct (heapify_target_range l i) as (t & -> & Ht). simpl.
  destruct (Nat.eqb_spec t i) as [->|Hne]; simpl; [by eauto|].
  destruct Ht as [?|(Ht0 & Hpar & Htlen)]; [done|].
  pose proof (parent_of_lt dd t dd_pos Ht0) as Hlt. rewrite Hpar in Hlt.
  destruct (_swap_spec l t i Htlen ltac:(lia)) as (l1 & -> & Hlen1 & Hl1).
  simpl. destruct (IH l1 t ltac:(lia)) as (l' & -> & Hlen' & Hperm).
  exists l'. split; [done|]. split; [lia|].
  rewrite Hperm. by eapply lookup_transp_perm.
Qed.

Hypothesis comp_total : forall a b, comp a b = false -> comp b a = true.
Hypothesis comp_trans :
  forall a b c, comp a b = true -> comp b c = true -> comp a c = true.

Lemma heapify_target_best l i t :
  heapify_target comp dd l i = Ok t ->
  forall c, c = i \/ (0 < c /\ parent_of dd c = i) -> dominates comp l t c.
Proof.
  rewrite heapify_target_unfold. intros Hs c Hc.
  eapply (scan_children_best comp comp_total comp_trans);
    [|exact Hs|]; [nia|].
  destruct Hc as [?|Hc]; [by left | right].
  apply parent_of_child in Hc; [lia | done].
Qed.

Lemma down_done lo l i :
  heapify_target comp dd l i = Ok i ->
  down_except comp dd lo l i -> ordered_from comp dd lo l.
Proof.
  intros Ht [H1 _] c Hc Hlo.
  destruct (decide (parent_of dd c = i)) as [E|E]; [|by apply H1].
  rewrite E. eapply heapify_target_best; [done | by right].
Qed.

Lemma down_step lo l l' i t :
  lo <= i ->
  heapify_target comp dd l i = Ok t -> t <> i ->
  length l' = length l -> (forall c, l' !! c = l !! transp t i c) ->
  down_except comp dd lo l i -> down_except comp dd lo l' t.
Proof.
  intros Hlo Ht Hne Hlen Hl [H1 H2].
  destruct (heapify_target_range l i) as (t' & Ht' & Hr).
  assert (t' = t) as -> by congruence.
  destruct Hr as [?|(Ht0 & Hpar & Htlen)]; [done|].
  pose proof (parent_of_lt dd t dd_pos Ht0) as Hti. rewrite Hpar in Hti.
  pose proof (heapify_target_best l i t Ht) as Hbest.
  split.
  - intros c Hc Hloc Hpc. eapply dominates_swapped; [exact Hl|].
    pose proof (parent_of_lt dd c dd_pos Hc) as Hpclt.
    destruct (decide (c = t)) as [->|Hct].
    { rewrite Hpar, transp_r, transp_l. apply Hbest. by left. }
    destruct (decide (c = i)) as [->|Hci].
    { rewrite transp_r, transp_other by lia. apply H2; done. }
    rewrite (transp_other t i c) by done.
    destruct (decide (parent_of dd c = i)) as [Hpi|Hpi].
    { rewrite Hpi, transp_r. apply Hbest. by right. }
    rewrite transp_other by done. by apply H1.
  - intros _ _ c Hc Hpc. eapply dominates_swapped; [exact Hl|].
    pose proof (parent_of_lt dd c dd_pos Hc) as Hpclt.
    rewrite Hpar, transp_r, transp_other by lia.
    rewrite <- Hpc. apply H1; [done | lia | lia].
Qed.

Lemma heapify_loop_ordered lo fuel : forall l i l',
  lo <= i ->
  heapify_loop fuel comp dd l i = Ok l' ->
  down_except comp dd lo l i -> ordered_from comp dd lo l'.
Proof.
  induction fuel as [|fuel IH]; intros l i l' Hlo Hrun Hex; [done|].
  simpl in Hrun.
  destruct (heapify_target_range l i) as (t & Ht & Hr).
  rewrite Ht in Hrun. simpl in Hrun.
  destruct (Nat.eqb_spec t i) as [Heq|Hne]; simpl in Hrun.
  - simplify_eq. by eapply down_done.
  - destruct Hr as [?|(Ht0 & Hpar & Htlen)]; [done|].
    pose proof (parent_of_lt dd t dd_pos Ht0) as Hti. rewrite Hpar in Hti.
    destruct (_swap_spec l t i Htlen ltac:(lia)) as (l1 & Hsw & Hlen1 & Hl1).
    rewrite Hsw in Hrun. simpl in Hrun.
    eapply (IH l1 t); [lia | exact Hrun|].
    eapply down_step; eauto.
Qed.

End Heapify.

(** *** The sift-up loop of [insert] *)

Section SiftUp.
Context {D : Type} (comp : num -> num -> bool) (dd : nat).
Hypothesis dd_pos : 1 <= dd.
Implicit Types l : list (TreeNode D).

Lemma dd_nonzero : (dd =? 0) = false.
Proof. apply Nat.eqb_neq. lia. Qed.

(** [insert]'s loop returns, with the same nodes in the same number of
    slots. *)
Lemma sift_up_perm fuel : forall l i,
  i < length l -> i < fuel ->
  exists l', sift_up fuel comp dd l i = Ok l' /\
             length l' = length l /\ l' ≡ₚ l.
Proof.
  induction fuel as [|fuel IH]; intros l i Hi Hfuel; [lia|]. simpl.
  rewrite dd_nonzero.
  destruct (Nat.eqb_spec i 0) as [Hi0|Hi0]; [by eauto|].
  pose proof (parent_of_lt dd i dd_pos ltac:(lia)) as Hp. unfold parent_of in Hp.
  destruct (array_getitem_lt l ((i - 1) / dd) ltac:(lia)) as (np & _ & ->).
  destruct (array_getitem_lt l i Hi) as (ni & _ & ->). simpl.
  destruct (comp (key np) (key ni)); [by eauto|].
  destruct (_swap_spec l i ((i - 1) / dd) Hi ltac:(lia))
    as (l1 & -> & Hlen1 & Hl1). simpl.
  destruct (IH l1 ((i - 1) / dd) ltac:(lia) ltac:(lia)) as (l' & -> & Hlen' & Hperm).
  exists l'. split; [done|]. split; [lia|].
  rewrite Hperm. by eapply lookup_transp_perm.
Qed.

Hypothesis comp_total : forall a b, comp a b = false -> comp b a = true.
Hypothesis comp_trans :
  forall a b c, comp a b = true -> comp b c = true -> comp a c = true.

Lemma up_step l l' i np ni :
  0 < i -> i < length l ->
  l !! parent_of dd i = Some np -> l !! i = Some ni ->
  comp (key np) (key ni) = false ->
  length l' = length l ->
  (forall c, l' !! c = l !! transp i (parent_of dd i) c) ->
  up_except comp dd l i -> up_except comp dd l' (parent_of dd i).
Proof.
  intros Hi Hilen Hnp Hni Hcmp Hlen Hl [H1 H2].
  pose proof (parent_of_lt dd i dd_pos Hi) as Hpi.
  set (p := parent_of dd i) in *.
  assert (Hip : dominates comp l i p).
  { intros ? ? ? ?. simplify_eq. by apply comp_total. }
  assert (Hdt := dominates_trans comp comp_trans l).
  split.
  - intros c Hc Hcp. eapply dominates_swapped; [exact Hl|].
    pose proof (parent_of_lt dd c dd_pos Hc) as Hpc.
    destruct (decide (c = i)) as [->|Hci].
    { fold p. by rewrite transp_r, transp_l. }
    rewrite (transp_other i p c) by done.
    destruct (decide (parent_of dd c = i)) as [Hq|Hq].
    { rewrite Hq, transp_l. by apply H2. }
    destruct (decide (parent_of dd c = p)) as [Hq'|Hq'].
    { rewrite Hq', transp_r. eapply (Hdt i p c); [lia | done |].
      rewrite <- Hq'. by apply H1. }
    rewrite transp_other by done. by apply H1.
  - intros Hp c Hc Hcp. eapply dominates_swapped; [exact Hl|].
    pose proof (parent_of_lt dd p dd_pos Hp) as Hq.
    rewrite (transp_other i p (parent_of dd p)) by lia.
    assert (Hqp : dominates comp l (parent_of dd p) p) by (apply H1; lia).
    destruct (decide (c = i)) as [->|Hci].
    { by rewrite transp_l. }
    pose proof (parent_of_lt dd c dd_pos Hc).
    rewrite transp_other by lia.
    eapply (Hdt _ p c); [lia | done |].
    rewrite <- Hcp. by apply H1.
Qed.

Lemma sift_up_ordered fuel : forall l i l',
  i < length l ->
  sift_up fuel comp dd l i = Ok l' ->
  up_except comp dd l i -> ordered_from comp dd 0 l'.
Proof.
  induction fuel as [|fuel IH]; intros l i l' Hi Hrun Hex; [done|].
  simpl in Hrun. rewrite dd_nonzero in Hrun.
  destruct (Nat.eqb_spec i 0) as [Hi0|Hi0].
  { simplify_eq. intros c Hc _. apply Hex; lia. }
  pose proof (parent_of_lt dd i dd_pos ltac:(lia)) as Hp.
  fold (parent_of dd i) in Hrun.
  destruct (array_getitem_lt l (parent_of dd i) ltac:(lia)) as (np & Hnp & Gp).
  destruct (array_getitem_lt l i Hi) as (ni & Hni & Gi).
  rewrite Gp, Gi in Hrun. simpl in Hrun.
  destruct (comp (key np) (key ni)) eqn:Hcmp.
  { simplify_eq. intros c Hc _.
    destruct (decide (c = i)) as [->|Hci]; [|by apply Hex].
    intros ? ? ? ?. by simplify_eq. }
  destruct (_swap_spec l i (parent_of dd i) Hi ltac:(lia))
    as (l1 & Hsw & Hlen1 & Hl1).
  rewrite Hsw in Hrun. simpl in Hrun.
  eapply (IH l1 (parent_of dd i)); [lia | exact Hrun |].
  eapply up_step; eauto. lia.
Qed.

End SiftUp.

(** ** The operations of [DHeap] *)

Section Operations.
Context {D : Type}.
Implicit Types h : DHeap D.
Implicit Types l : list (TreeNode D).

Lemma _heapify_perm comp dd l i :
  1 <= dd ->
  exists l', _heapify comp dd l i = Ok l' /\ length l' = length l /\ l' ≡ₚ l.
Proof. intros Hd. apply heapify_loop_perm; [done | lia]. Qed.

Lemma _heapify_ordered comp dd lo l i l' :
  1 <= dd -> total_preorder comp -> lo <= i ->
  _heapify comp dd l i = Ok l' ->
  down_except comp dd lo l i -> ordered_from comp dd lo l'.
Proof. intros Hd [Ht Hr]. by apply heapify_loop_ordered. Qed.

(** *** [insert] *)

Lemma last_pos_append l (x : TreeNode D) :
  Z.to_nat (array_last_pos_filled (array_append l x)) = length l.
Proof.
  unfold array_last_pos_filled, array_append. rewrite length_app. simpl. lia.
Qed.

Lemma insert_unfold h k x :
  insert h k x =
  let* l' := sift_up (S (length (heap h))) (_comp h) (d h)
               (heap h ++ [mkTreeNode k x]) (length (heap h)) in
  Ok (set_heap h l').
Proof. unfold insert. rewrite last_pos_append. reflexivity. Qed.

Lemma insert_Ok h k x :
  1 <= d h ->
  exists h', insert h k x = Ok h' /\
             heap h' ≡ₚ mkTreeNode k x :: heap h /\
             length (heap h') = S (length (heap h)) /\
             _comp h' = _comp h /\ d h' = d h /\
             heap_property h' = heap_property h.
Proof.
  intros Hd. rewrite insert_unfold.
  destruct (sift_up_perm (_comp h) (d h) Hd (S (length (heap h)))
              (heap h ++ [mkTreeNode k x]) (length (heap h)))
    as (l' & -> & Hlen & Hperm); [rewrite length_app; simpl; lia | lia |].
  simpl. eexists. split; [done|]. simpl.
  rewrite length_app in Hlen. simpl in Hlen.
  repeat split; try done; [|lia].
  rewrite Hperm. by rewrite Permutation_app_comm.
Qed.

Lemma insert_invariant h k x h' :
  1 <= d h -> total_preorder (_comp h) ->
  insert h k x = Ok h' -> heap_invariant h -> heap_invariant h'.
Proof.
  intros Hd [Ht Hr] Hins Hinv.
  apply heap_invariant_ordered. apply heap_invariant_ordered in Hinv.
  rewrite insert_unfold in Hins.
  inv_bind Hins. simplify_eq. simpl.
  eapply (sift_up_ordered (_comp h) (d h) Hd Ht Hr); [|exact Ha|].
  { rewrite length_app. simpl. lia. }
  split.
  - intros c Hc Hne np nc Hp Hl.
    pose proof (parent_of_lt (d h) c Hd Hc) as Hpc.
    pose proof (lookup_lt_Some _ _ _ Hl) as Hclen.
    rewrite length_app in Hclen. simpl in Hclen.
    rewrite lookup_app_l in Hp, Hl by lia.
    eapply Hinv; eauto. lia.
  - intros Hn c Hc Hpar np nc _ Hl.
    pose proof (parent_of_lt (d h) c Hd Hc) as Hpc.
    apply lookup_lt_Some in Hl. rewrite length_app in Hl. simpl in Hl. lia.
Qed.

(** *** [extract] *)

Lemma extract_empty h :
  heap h = [] -> extract h = Raise (IndexError "Heap is empty.").
Proof. unfold extract, _last_pos_filled. intros ->. reflexivity. Qed.

Lemma extract_unfold h root rest :
  heap h = root :: rest ->
  extract h =
  let* l1 := _swap (heap h) 0 (length rest) in
  let* l3 := _heapify (_comp h) (d h) (delete (length rest) l1) 0 in
  Ok (root, set_heap h l3).
Proof.
  intros Hh. unfold extract, _last_pos_filled, array_last_pos_filled,
    array_delete.
  assert (Hlen : length (heap h) = S (length rest)) by (by rewrite Hh).
  destruct (Z.eqb_spec (Z.of_nat (length (heap h)) - 1) (-1)) as [?|_]; [lia|].
  replace (Z.to_nat (Z.of_nat (length (heap h)) - 1)) with (length rest) by lia.
  assert (H0 : heap h !! 0 = Some root) by (by rewrite Hh).
  rewrite (array_getitem_lookup _ _ _ H0). simpl. by destruct root.
Qed.

Lemma extract_Ok h :
  1 <= d h -> heap h <> [] ->
  exists root h', extract h = Ok (root, h') /\
                  heap h !! 0 = Some root /\
                  heap h ≡ₚ root :: heap h' /\
                  S (length (heap h')) = length (heap h) /\
                  _comp h' = _comp h /\ d h' = d h /\
                  heap_property h' = heap_property h.
Proof.
  intros Hd Hne.
  destruct (heap h) as [|root rest] eqn:Hh; [done|].
  rewrite (extract_unfold h root rest Hh).
  assert (Hlen : length (heap h) = S (length rest)) by (by rewrite Hh).
  destruct (_swap_spec (heap h) 0 (length rest) ltac:(lia) ltac:(lia))
    as (l1 & -> & Hlen1 & Hl1). simpl.
  destruct (_heapify_perm (_comp h) (d h) (delete (length rest) l1) 0 Hd)
    as (l3 & -> & Hlen3 & Hperm3). simpl.
  exists root, (set_heap h l3). simpl.
  split; [done|]. split; [done|].
  rewrite length_delete in Hlen3
    by (apply lookup_lt_is_Some; lia).
  repeat split; try done; [|lia].
  rewrite Hperm3, <- Hh.
  rewrite <- (delete_Permutation l1 (length rest));
    [symmetry; by eapply lookup_transp_perm|].
  by rewrite Hl1, transp_r, Hh.
Qed.

Lemma extract_invariant h root h' :
  1 <= d h -> total_preorder (_comp h) ->
  extract h = Ok (root, h') -> heap_invariant h -> heap_invariant h'.
Proof.
  intros Hd Hpre Hex Hinv.
  apply heap_invariant_ordered. apply heap_invariant_ordered in Hinv.
  destruct (heap h) as [|r rest] eqn:Hh.
  { by rewrite (extract_empty h Hh) in Hex. }
  rewrite (extract_unfold h r rest Hh) in Hex.
  assert (Hlast : S (length rest) = length (heap h)) by (by rewrite Hh).
  destruct (_swap_spec (heap h) 0 (length rest) ltac:(lia) ltac:(lia))
    as (l1 & Hsw & Hlen1 & Hl1).
  rewrite Hsw in Hex. simpl in Hex. inv_bind Hex. simplify_eq. simpl.
  eapply (_heapify_ordered (_comp h) (d h) 0); [done..| exact Ha |].
  split; [|lia].
  intros c Hc _ Hp0 np nc Hp Hl.
  pose proof (parent_of_lt (d h) c Hd Hc) as Hpc.
  pose proof (lookup_lt_Some _ _ _ Hl) as Hclen.
  rewrite length_delete in Hclen by (apply lookup_lt_is_Some; lia).
  rewrite list_lookup_delete_lt in Hp, Hl by lia.
  rewrite Hl1, transp_other in Hp, Hl by lia.
  rewrite <- Hh in Hinv. eapply Hinv; eauto. lia.
Qed.

End Operations.

(** *** [_build] and the constructor *)

Section Build.
Context {D : Type}.
Implicit Types h : DHeap D.
Implicit Types l : list (TreeNode D).

Lemma build_loop_perm comp dd idxs : forall l,
  1 <= dd ->
  exists l', build_loop comp dd l idxs = Ok l' /\
             length l' = length l /\ l' ≡ₚ l.
Proof.
  induction idxs as [|i idxs IH]; intros l Hd; simpl; [by eauto|].
  destruct (_heapify_perm comp dd l i Hd) as (l1 & -> & Hlen1 & Hp1). simpl.
  destruct (IH l1 Hd) as (l' & -> & Hlen' & Hp').
  exists l'. split; [done|]. split; [lia | by rewrite Hp'].
Qed.

(** Sifting down at [k-1], ..., [0] orders a list that is ordered from
    [k] on. *)
Lemma build_loop_ordered comp dd k : forall l l',
  1 <= dd -> total_preorder comp ->
  ordered_from comp dd k l ->
  build_loop comp dd l (rev (seq 0 k)) = Ok l' ->
  ordered_from comp dd 0 l'.
Proof.
  induction k as [|k IH]; intros l l' Hd Hpre Hord Hrun.
  - simpl in Hrun. by simplify_eq.
  - rewrite seq_S, rev_app_distr in Hrun. simpl in Hrun.
    inv_bind Hrun. eapply (IH a l'); [done..| |exact Hrun].
    eapply (_heapify_ordered comp dd k); [done..| exact Ha |].
    split.
    + intros c Hc Hlo Hne. apply Hord; [done | lia].
    + intros Hk Hlo. pose proof (parent_of_lt dd k Hd Hk). lia.
Qed.

(** Past the last parent there is nothing to order. *)
Lemma ordered_from_leaves comp dd l :
  1 <= dd -> ordered_from comp dd (length l / dd + 1) l.
Proof.
  intros Hd c Hc Hlo np nc _ Hl. apply lookup_lt_Some in Hl.
  unfold parent_of in Hlo.
  pose proof (Nat.div_mod_eq (length l) dd).
  pose proof (Nat.mod_upper_bound (length l) dd ltac:(lia)).
  pose proof (Nat.div_mod_eq (c - 1) dd).
  pose proof (Nat.mod_upper_bound (c - 1) dd ltac:(lia)).
  nia.
Qed.

(** The last parent index of [n] slots, [(n - 2)//d], is not after the
    index [_build] starts from. *)
Lemma build_start_covers (n dd : nat) :
  1 <= dd -> parent_of dd (n - 1) <= n / dd.
Proof.
  intros Hd. unfold parent_of. apply Nat.Div0.div_le_mono. lia.
Qed.

Lemma _build_Ok h :
  1 <= d h ->
  exists h', _build h = Ok h' /\ heap h' ≡ₚ heap h /\
             _comp h' = _comp h /\ d h' = d h /\
             heap_property h' = heap_property h.
Proof.
  intros Hd. unfold _build. rewrite (dd_nonzero (d h) Hd).
  destruct (build_loop_perm (_comp h) (d h)
              (rev (seq 0 (Z.to_nat (_last_pos_filled h + 1) / d h + 1)))
              (heap h) Hd) as (l' & -> & _ & Hperm).
  simpl. eexists. split; [done|]. simpl. done.
Qed.

Lemma _build_invariant h h' :
  1 <= d h -> total_preorder (_comp h) ->
  _build h = Ok h' -> heap_invariant h'.
Proof.
  intros Hd Hpre Hb. apply heap_invariant_ordered.
  unfold _build in Hb. rewrite (dd_nonzero (d h) Hd) in Hb.
  inv_bind Hb. simplify_eq. simpl.
  eapply build_loop_ordered; [done..| |exact Ha].
  unfold _last_pos_filled, array_last_pos_filled.
  replace (Z.to_nat (Z.of_nat (length (heap h)) - 1 + 1)) with (length (heap h))
    by lia.
  by apply ordered_from_leaves.
Qed.

Lemma min_comp_preorder : total_preorder (fun kp kc => num_leb kp kc).
Proof. split; [apply num_leb_total | apply num_leb_trans]. Qed.

Lemma max_comp_preorder : total_preorder (fun kp kc => num_leb kc kp).
Proof.
  split.
  - intros a b. apply num_leb_total.
  - intros a b c H1 H2. by apply (num_leb_trans c b a).
Qed.

Lemma DHeap_new_Ok elements hp dd :
  1 <= dd -> hp = "min" \/ hp = "max" ->
  exists h, DHeap_new elements hp dd = Ok h /\
            heap h ≡ₚ elements_of elements /\
            d h = dd /\ heap_property h = hp /\
            total_preorder (_comp h) /\
            (hp = "min" -> _comp h = fun kp kc => num_leb kp kc) /\
            (hp = "max" -> _comp h = fun kp kc => num_leb kc kp).
Proof.
  intros Hd Hhp. unfold DHeap_new.
  destruct Hhp as [-> | ->]; simpl.
  - destruct (_build_Ok (mkDHeap (fun kp kc => num_leb kp kc)
                (elements_of elements) dd "min") Hd)
      as (h & Hb & Hperm & Hc & Hdd & Hp). simpl in *.
    exists h. unfold elements_of in *. rewrite Hb, Hc.
    repeat split; try done; apply min_comp_preorder.
  - destruct (_build_Ok (mkDHeap (fun kp kc => num_leb kc kp)
                (elements_of elements) dd "max") Hd)
      as (h & Hb & Hperm & Hc & Hdd & Hp). simpl in *.
    exists h. unfold elements_of in *. rewrite Hb, Hc.
    repeat split; try done; apply max_comp_preorder.
Qed.

Lemma DHeap_new_invariant elements hp dd h :
  1 <= dd -> DHeap_new elements hp dd = Ok h -> heap_invariant h.
Proof.
  intros Hd Hnew. unfold DHeap_new in Hnew. inv_bind Hnew.
  eapply _build_invariant; [| |exact Hnew]; simpl; [done|].
  destruct (String.eqb hp "min"); [simplify_eq; apply min_comp_preorder|].
  destruct (String.eqb hp "max"); [simplify_eq; apply max_comp_preorder|].
  done.
Qed.

End Build.

(** ** Sequences of operations *)

Section Sequences.
Context {D : Type}.
Implicit Types h : DHeap D.

Lemma reachable_invariant h0 h :
  1 <= d h0 -> total_preorder (_comp h0) -> heap_invariant h0 ->
  reachable h0 h ->
  heap_invariant h /\ _comp h = _comp h0 /\ d h = d h0 /\
  heap_property h = heap_property h0.
Proof.
  intros Hd Hpre Hinv Hreach.
  induction Hreach as [|h k x h' _ IH Hins|h nd h' _ IH Hex]; [done|..].
  - destruct IH as (Hi & Hc & Hdd & Hp).
    destruct (insert_Ok h k x ltac:(lia)) as (h'' & E & _ & _ & Hc' & Hd' & Hp').
    assert (h'' = h') as -> by congruence.
    split; [|by rewrite Hc', Hd', Hp'].
    eapply insert_invariant; [| |exact Hins|done]; [lia | by rewrite Hc].
  - destruct IH as (Hi & Hc & Hdd & Hp).
    assert (Hne : heap h <> []).
    { intros E. by rewrite (extract_empty h E) in Hex. }
    destruct (extract_Ok h ltac:(lia) Hne)
      as (r & h'' & E & _ & _ & _ & Hc' & Hd' & Hp').
    assert (h'' = h') as -> by congruence.
    split; [|by rewrite Hc', Hd', Hp'].
    eapply extract_invariant; [| |exact Hex|done]; [lia | by rewrite Hc].
Qed.

Lemma insert_all_Ok (kvs : list (num * D)) : forall h,
  1 <= d h ->
  exists h', insert_all h kvs = Ok h' /\
             heap h' ≡ₚ map node_of_pair kvs ++ heap h /\
             length (heap h') = length kvs + length (heap h) /\
             _comp h' = _comp h /\ d h' = d h /\
             (total_preorder (_comp h) -> heap_invariant h -> heap_invariant h').
Proof.
  induction kvs as [|[k x] kvs IH]; intros h Hd; simpl.
  - exists h. done.
  - destruct (insert_Ok h k x Hd) as (h1 & E & Hperm & Hlen & Hc & Hdd & _).
    rewrite E. simpl.
    destruct (IH h1 ltac:(lia)) as (h' & -> & Hperm' & Hlen' & Hc' & Hdd' & Hinv').
    exists h'. split; [done|].
    split; [by rewrite Hperm', Hperm, Permutation_middle|].
    split; [lia|]. split; [congruence|]. split; [congruence|].
    intros Hpre Hinv. apply Hinv'; [by rewrite Hc|].
    by eapply insert_invariant.
Qed.

(** The root dominates every node of an ordered heap. *)
Lemma root_dominates h :
  1 <= d h -> total_preorder (_comp h) -> heap_invariant h ->
  forall c n0 nc, heap h !! 0 = Some n0 -> heap h !! c = Some nc ->
                  _comp h (key n0) (key nc) = true.
Proof.
  intros Hd [Ht Hr] Hinv c. induction (lt_wf c) as [c _ IH].
  intros n0 nc H0 Hc. destruct (decide (c = 0)) as [->|Hne].
  - simplify_eq. by apply comp_refl.
  - pose proof (parent_of_lt (d h) c Hd ltac:(lia)) as Hp.
    unfold parent_of in Hp.
    destruct (lookup_lt_is_Some_2 (heap h) ((c - 1) / d h)) as [np Hnp].
    { apply lookup_lt_Some in Hc. lia. }
    eapply Hr; [eapply (IH _ Hp); eauto|].
    apply (Hinv c nc np); [lia | done | done].
Qed.

Lemma extract_n_Ok n : forall h,
  1 <= d h -> n <= length (heap h) ->
  exists out h', extract_n h n = Ok (out, h') /\
                 heap h ≡ₚ out ++ heap h' /\ length out = n /\
                 _comp h' = _comp h /\ d h' = d h /\
                 (total_preorder (_comp h) -> heap_invariant h ->
                  heap_invariant h' /\
                  StronglySorted (fun a b => _comp h a b = true) (map key out)).
Proof.
  induction n as [|n IH]; intros h Hd Hn; simpl.
  - exists [], h. repeat split; try done. constructor.
  - assert (Hne : heap h <> []) by (destruct (heap h); simpl in *; [lia|done]).
    destruct (extract_Ok h Hd Hne)
      as (root & h1 & E & H0 & Hperm & Hlen & Hc & Hdd & _).
    rewrite E. simpl.
    destruct (IH h1 ltac:(lia) ltac:(lia))
      as (out & h' & -> & Hperm' & Hlen' & Hc' & Hdd' & Hinv').
    simpl. exists (root :: out), h'. split; [done|].
    split; [by rewrite Hperm, Hperm'|].
    split; [simpl; lia|]. split; [congruence|]. split; [congruence|].
    intros Hpre Hinv.
    assert (Hinv1 : heap_invariant h1) by (by eapply extract_invariant).
    destruct (Hinv' ltac:(by rewrite Hc) Hinv1) as [Hinv2 Hsorted].
    split; [done|]. simpl. constructor; [by rewrite <- Hc|].
    assert (Hall : Forall (fun x => _comp h (key root) (key x) = true) (heap h)).
    { apply Forall_lookup. intros c nc Hl. by eapply root_dominates. }
    rewrite Hperm, Hperm' in Hall.
    apply Forall_cons in Hall as [_ Hall].
    apply Forall_app in Hall as [Hall _].
    apply Forall_map. eapply Forall_impl; [exact Hall|]. done.
Qed.

End Sequences.

Section Constructor.
Context {D : Type}.
Implicit Types h : DHeap D.

Lemma DHeap_new_inv (elements : option (list (TreeNode D))) hp dd h :
  DHeap_new elements hp dd = Ok h ->
  1 <= dd /\ (hp = "min" \/ hp = "max").
Proof.
  intros Hnew. unfold DHeap_new in Hnew. inv_bind Hnew. split.
  - unfold _build in Hnew. simpl in Hnew.
    destruct (Nat.eqb_spec dd 0); [done | lia].
  - destruct (String.eqb_spec hp "min"); [by left|].
    destruct (String.eqb_spec hp "max"); [by right | done].
Qed.

Lemma DHeap_new_empty hp dd h :
  DHeap_new None hp dd = Ok h -> heap h = [] /\ 1 <= d h.
Proof.
  intros Hnew. destruct (DHeap_new_inv _ _ _ _ Hnew) as [Hd Hhp].
  destruct (DHeap_new_Ok (D:=D) None hp dd Hd Hhp) as (h' & E & Hperm & Hdd & _).
  assert (h' = h) as -> by congruence.
  split; [by apply Permutation_nil_r | lia].
Qed.

(** At an index with no occupied child the scan picks the index itself,
    and the sift-down changes nothing. *)
Lemma heapify_target_leaf comp dd (l : list (TreeNode D)) i :
  1 <= dd -> length l <= dd * i + 1 -> heapify_target comp dd l i = Ok i.
Proof.
  intros Hd Hleaf. rewrite heapify_target_unfold by done.
  destruct dd as [|dd]; [lia|]. cbn [seq scan_children].
  unfold array_last_pos_filled.
  case_match eqn:E; [apply Z.leb_le in E; lia | done].
Qed.

Lemma _heapify_leaf comp dd (l : list (TreeNode D)) i :
  1 <= dd -> length l <= dd * i + 1 -> _heapify comp dd l i = Ok l.
Proof.
  intros Hd Hleaf. unfold _heapify. cbn [heapify_loop].
  rewrite heapify_target_leaf by done. cbn [bind].
  by rewrite Nat.eqb_refl.
Qed.

(** Starting the build loop above the last parent index is starting it at
    the last parent index. *)
Lemma build_loop_from_last_parent comp dd (l : list (TreeNode D)) k :
  1 <= dd -> parent_of dd (length l - 1) < k ->
  build_loop comp dd l (rev (seq 0 (S k))) =
  build_loop comp dd l (rev (seq 0 (S (parent_of dd (length l - 1))))).
Proof.
  intros Hd. induction k as [|k IH]; intros Hk; [lia|].
  rewrite (seq_S (S k)), rev_app_distr. simpl rev at 1. simpl app at 1.
  cbn [build_loop]. rewrite _heapify_leaf; [simpl| done |].
  - destruct (decide (parent_of dd (length l - 1) = k)) as [<-|Hne]; [done|].
    apply IH. lia.
  - unfold parent_of in Hk.
    pose proof (Nat.div_mod_eq (length l - 1 - 1) dd).
    pose proof (Nat.mod_upper_bound (length l - 1 - 1) dd ltac:(lia)).
    nia.
Qed.

End Constructor.

(** ** The heap invariant (C1, C7) *)

(** C1.  For every [DHeap] the constructor returns (arity [d >= 2], heap
    property ['min'] or ['max']) and every heap reached from it by a
    sequence of [insert] and [extract] operations, each non-root occupied
    index [i] with parent [p = (i-1)//d] has [comparator(key at p, key at
    i)] true: parent key [<=] child key for ['min'], [>=] for ['max']. *)
Theorem heap_invariant_after_operations {D : Type}
    (elements : option (list (TreeNode D))) (hp : string) (dd : nat)
    (h0 h : DHeap D) :
  2 <= dd -> hp = "min" \/ hp = "max" ->
  DHeap_new elements hp dd = Ok h0 -> reachable h0 h ->
  forall i ni np, 0 < i ->
    heap h !! i = Some ni -> heap h !! ((i - 1) / dd) = Some np ->
    _comp h (key np) (key ni) = true /\
    (hp = "min" -> num_le (key np) (key ni)) /\
    (hp = "max" -> num_ge (key np) (key ni)).
Proof.
  intros Hd Hhp Hnew Hreach i ni np Hi Hni Hnp.
  destruct (DHeap_new_Ok elements hp dd ltac:(lia) Hhp)
    as (h0' & E & _ & Hdd & _ & Hpre & Hmin & Hmax).
  assert (h0' = h0) as -> by congruence.
  pose proof (DHeap_new_invariant elements hp dd h0 ltac:(lia) Hnew) as Hinv0.
  destruct (reachable_invariant h0 h ltac:(lia) Hpre Hinv0 Hreach)
    as (Hinv & Hc & Hdh & _).
  assert (Hcmp : _comp h (key np) (key ni) = true).
  { apply (Hinv i ni np Hi Hni). by rewrite Hdh, Hdd. }
  split; [done|]. split; intros Ep.
  - unfold num_le. by rewrite Hc, (Hmin Ep) in Hcmp.
  - unfold num_ge. by rewrite Hc, (Hmax Ep) in Hcmp.
Qed.

(** Two inserts and an extract on a ternary min-heap built from [7; 2; 9]. *)
Lemma heap_invariant_after_operations_witness :
  _comp (mkDHeap (fun kp kc => num_leb kp kc)
           [mkTreeNode (Fin 2) 2%Z; mkTreeNode (Fin 7) 7%Z;
            mkTreeNode (Fin 9) 9%Z; mkTreeNode (Fin 4) 4%Z] 3 "min")
    (Fin 2) (Fin 7) = true /\
  ("min" = "min" -> num_le (Fin 2) (Fin 7)) /\
  ("min" = "max" -> num_ge (Fin 2) (Fin 7)).
Proof.
  eapply (heap_invariant_after_operations
           (Some [mkTreeNode (Fin 7) 7%Z; mkTreeNode (Fin 2) 2%Z;
                  mkTreeNode (Fin 9) 9%Z]) "min" 3 _ _
           ltac:(lia) (or_introl eq_refl) eq_refl)
    with (i := 1) (ni := mkTreeNode (Fin 7) 7%Z) (np := mkTreeNode (Fin 2) 2%Z).
  - eapply reach_insert with (k := Fin 4) (x := 4%Z);
      [apply reach_start | reflexivity].
  - lia.
  - reflexivity.
  - reflexivity.
Defined.

(** C7.  For every list of initial nodes, every arity [d >= 2] and heap
    property ['min'] or ['max'], the constructor returns a heap that holds
    exactly the given nodes and satisfies the parent-dominates-child
    invariant at every occupied index; the heap is what sifting down at the
    last parent index [(n-2)//d], then at each smaller index down to the
    root, makes of the list. *)
Theorem build_establishes_invariant {D : Type}
    (elements : list (TreeNode D)) (hp : string) (dd : nat) :
  2 <= dd -> hp = "min" \/ hp = "max" ->
  exists h,
    DHeap_new (Some elements) hp dd = Ok h /\
    heap h ≡ₚ elements /\
    build_loop (_comp h) dd elements
      (rev (seq 0 (S (parent_of dd (length elements - 1))))) = Ok (heap h) /\
    forall i ni np, 0 < i ->
      heap h !! i = Some ni -> heap h !! ((i - 1) / dd) = Some np ->
      _comp h (key np) (key ni) = true /\
      (hp = "min" -> num_le (key np) (key ni)) /\
      (hp = "max" -> num_ge (key np) (key ni)).
Proof.
  intros Hd Hhp.
  destruct (DHeap_new_Ok (Some elements) hp dd ltac:(lia) Hhp)
    as (h & E & Hperm & Hdd & _ & Hpre & Hmin & Hmax).
  exists h. split; [done|]. split; [done|].
  pose proof (DHeap_new_invariant (Some elements) hp dd h ltac:(lia) E) as Hinv.
  split.
  - clear Hinv Hperm Hpre Hmin Hmax Hdd.
    unfold DHeap_new in E. inv_bind E. unfold _build in E.
    cbn [d heap _comp] in E.
    rewrite (dd_nonzero dd ltac:(lia)) in E. inv_bind E.
    injection E as <-. cbn [set_heap heap _comp].
    unfold _last_pos_filled, array_last_pos_filled in Ha0. cbn [heap] in Ha0.
    replace (Z.to_nat (Z.of_nat (length elements) - 1 + 1))
      with (length elements) in Ha0 by lia.
    rewrite <- Ha0, Nat.add_1_r.
    pose proof (build_start_covers (length elements) dd ltac:(lia)) as Hle.
    destruct (decide (parent_of dd (length elements - 1) = length elements / dd))
      as [->|Hne]; [done|].
    symmetry. apply build_loop_from_last_parent; lia.
  - intros i ni np Hi Hni Hnp.
    assert (Hcmp : _comp h (key np) (key ni) = true).
    { apply (Hinv i ni np Hi Hni). by rewrite Hdd. }
    split; [done|]. split; intros Ep.
    + unfold num_le. by rewrite (Hmin Ep) in Hcmp.
    + unfold num_ge. by rewrite (Hmax Ep) in Hcmp.
Qed.

Lemma build_establishes_invariant_witness :
  exists h,
    DHeap_new (Some [mkTreeNode (Fin 5) 5%Z; mkTreeNode (Fin 3) 3%Z;
                     mkTreeNode (Fin 8) 8%Z; mkTreeNode (Fin 1) 1%Z])
      "max" 2 = Ok h /\
    heap h ≡ₚ [mkTreeNode (Fin 5) 5%Z; mkTreeNode (Fin 3) 3%Z;
               mkTreeNode (Fin 8) 8%Z; mkTreeNode (Fin 1) 1%Z] /\
    build_loop (_comp h) 2
      [mkTreeNode (Fin 5) 5%Z; mkTreeNode (Fin 3) 3%Z;
       mkTreeNode (Fin 8) 8%Z; mkTreeNode (Fin 1) 1%Z]
      (rev (seq 0 (S (parent_of 2 (4 - 1))))) = Ok (heap h) /\
    forall i ni np, 0 < i ->
      heap h !! i = Some ni -> heap h !! ((i - 1) / 2) = Some np ->
      _comp h (key np) (key ni) = true /\
      ("max" = "min" -> num_le (key np) (key ni)) /\
      ("max" = "max" -> num_ge (key np) (key ni)).
Proof.
  apply (build_establishes_invariant
           [mkTreeNode (Fin 5) 5%Z; mkTreeNode (Fin 3) 3%Z;
            mkTreeNode (Fin 8) 8%Z; mkTreeNode (Fin 1) 1%Z] "max" 2
           ltac:(lia) (or_intror eq_refl)).
Defined.

(** ** The stored pairs (C10) *)

(** C10.  On every heap (arity at least 1) [insert(key, data)] returns
    without raising, and the stored nodes afterwards are the new [(key,
    data)] node together with exactly the nodes stored before; [extract()]
    on a non-empty heap returns the root node, and the nodes stored before
    are the returned node together with exactly the nodes stored
    afterwards.  ([is_empty] and [peek] return no heap: they change
    nothing.) *)
Theorem insert_extract_preserve_pairs {D : Type} (h : DHeap D) :
  1 <= d h ->
  (forall k x, exists h',
      insert h k x = Ok h' /\ heap h' ≡ₚ mkTreeNode k x :: heap h) /\
  (heap h <> [] -> exists root h',
      extract h = Ok (root, h') /\ heap h !! 0 = Some root /\
      heap h ≡ₚ root :: heap h').
Proof.
  intros Hd. split.
  - intros k x. destruct (insert_Ok h k x Hd) as (h' & E & Hperm & _).
    eauto.
  - intros Hne. destruct (extract_Ok h Hd Hne) as (r & h' & E & H0 & Hperm & _).
    eauto 6.
Qed.

Lemma insert_extract_preserve_pairs_witness :
  (forall k x, exists h',
      insert (mkDHeap (fun kp kc => num_leb kp kc)
                [mkTreeNode (Fin 1) "a"; mkTreeNode (Fin 5) "b"] 2 "min") k x
      = Ok h' /\
      heap h' ≡ₚ mkTreeNode k x :: [mkTreeNode (Fin 1) "a"; mkTreeNode (Fin 5) "b"]) /\
  ([mkTreeNode (Fin 1) "a"; mkTreeNode (Fin 5) "b"] <> [] -> exists root h',
      extract (mkDHeap (fun kp kc => num_leb kp kc)
                 [mkTreeNode (Fin 1) "a"; mkTreeNode (Fin 5) "b"] 2 "min")
      = Ok (root, h') /\
      [mkTreeNode (Fin 1) "a"; mkTreeNode (Fin 5) "b"] !! 0 = Some root /\
      [mkTreeNode (Fin 1) "a"; mkTreeNode (Fin 5) "b"] ≡ₚ root :: heap h').
Proof.
  apply (insert_extract_preserve_pairs
           (mkDHeap (fun kp kc => num_leb kp kc)
              [mkTreeNode (Fin 1) "a"; mkTreeNode (Fin 5) "b"] 2 "min")).
  simpl. lia.
Defined.

(** ** Emptiness (C6) *)

(** C6.  On a freshly built empty heap [extract()] raises the empty-heap
    [IndexError] and returns nothing; on a freshly built priority queue
    [pop()] and [peek] raise it too; and after inserting [k] elements into
    the empty heap and extracting [k] times, [is_empty] is true again. *)
Theorem empty_heap_raises_and_drains {D V : Type} (hp : string) (dd : nat)
    (h0 : DHeap D) (comp : option (num -> num -> bool))
    (q : BinaryHeapPriorityQueue V) :
  DHeap_new None hp dd = Ok h0 ->
  PriorityQueue_new "binary_heap" comp = Ok q ->
  is_empty h0 = true /\
  extract h0 = Raise (IndexError "Heap is empty.") /\
  pop q = Raise (IndexError "Heap is empty.") /\
  peek q = Raise (IndexError "Priority queue is empty.") /\
  forall kvs : list (num * D), exists h1 out h2,
    insert_all h0 kvs = Ok h1 /\
    extract_n h1 (length kvs) = Ok (out, h2) /\
    length out = length kvs /\
    is_empty h2 = true.
Proof.
  intros Hnew Hq.
  destruct (DHeap_new_empty hp dd h0 Hnew) as [Hh0 Hd0].
  split; [unfold is_empty; by rewrite Hh0|].
  split; [by apply extract_empty|].
  assert (q = mkPQ (mkDHeap
            match comp with Some c => c | None => fun u v => num_ltb u v end
            [] 2 "min")) as ->.
  { assert (Hq' : PriorityQueue_new (V := V) "binary_heap" comp =
                  Ok (mkPQ (mkDHeap
                    match comp with Some c => c | None => fun u v => num_ltb u v end
                    [] 2 "min"))) by (destruct comp; reflexivity).
    congruence. }
  split; [done|]. split; [done|].
  intros kvs.
  destruct (insert_all_Ok kvs h0 Hd0) as (h1 & E1 & _ & Hlen1 & _ & Hd1 & _).
  destruct (extract_n_Ok (length kvs) h1 ltac:(lia) ltac:(lia))
    as (out & h2 & E2 & Hperm & Hlen2 & _).
  exists h1, out, h2. repeat split; try done.
  apply Permutation_length in Hperm. rewrite length_app in Hperm.
  unfold is_empty, array_last_pos_filled. rewrite Hh0 in Hlen1. simpl in Hlen1.
  apply Z.eqb_eq. lia.
Qed.

Lemma empty_heap_raises_and_drains_witness :
  is_empty (mkDHeap (fun kp kc => num_leb kp kc) ([] : list (TreeNode Z)) 4 "min")
    = true /\
  extract (mkDHeap (fun kp kc => num_leb kp kc) ([] : list (TreeNode Z)) 4 "min")
    = Raise (IndexError "Heap is empty.") /\
  pop (mkPQ (mkDHeap (fun u v => num_ltb u v) ([] : list (TreeNode string)) 2 "min"))
    = Raise (IndexError "Heap is empty.") /\
  peek (mkPQ (mkDHeap (fun u v => num_ltb u v) ([] : list (TreeNode string)) 2 "min"))
    = Raise (IndexError "Priority queue is empty.") /\
  forall kvs : list (num * Z), exists h1 out h2,
    insert_all (mkDHeap (fun kp kc => num_leb kp kc) [] 4 "min") kvs = Ok h1 /\
    extract_n h1 (length kvs) = Ok (out, h2) /\
    length out = length kvs /\
    is_empty h2 = true.
Proof.
  apply (empty_heap_raises_and_drains (D := Z) (V := string) "min" 4
           (mkDHeap (fun kp kc => num_leb kp kc) [] 4 "min") None
           (mkPQ (mkDHeap (fun u v => num_ltb u v) [] 2 "min"))).
  - reflexivity.
  - reflexivity.
Defined.

(** ** Extraction order (C2) *)

(** C2.  For every list of [n] keys (with their data), [n] inserts into an
    initially empty heap followed by [n] extracts all return, the extracted
    nodes are the inserted ones, and the extracted key sequence is sorted
    ascending for ['min'] and descending for ['max']. *)
Theorem extraction_is_sorted {D : Type} (hp : string) (dd : nat)
    (h0 : DHeap D) (kvs : list (num * D)) :
  2 <= dd -> hp = "min" \/ hp = "max" ->
  DHeap_new None hp dd = Ok h0 ->
  exists h1 out h2,
    insert_all h0 kvs = Ok h1 /\
    extract_n h1 (length kvs) = Ok (out, h2) /\
    out ≡ₚ map node_of_pair kvs /\
    (hp = "min" -> Sorted num_le (map key out)) /\
    (hp = "max" -> Sorted num_ge (map key out)).
Proof.
  intros Hd Hhp Hnew.
  destruct (DHeap_new_Ok (D := D) None hp dd ltac:(lia) Hhp)
    as (h0' & E & _ & Hdd & _ & Hpre & Hmin & Hmax).
  assert (h0' = h0) as -> by congruence.
  pose proof (DHeap_new_invariant None hp dd h0 ltac:(lia) Hnew) as Hinv0.
  destruct (DHeap_new_empty hp dd h0 Hnew) as [Hh0 Hd0].
  destruct (insert_all_Ok kvs h0 Hd0)
    as (h1 & E1 & Hperm1 & Hlen1 & Hc1 & Hd1 & Hinv1).
  destruct (extract_n_Ok (length kvs) h1 ltac:(lia) ltac:(lia))
    as (out & h2 & E2 & Hperm2 & Hlen2 & _ & _ & Hsorted).
  destruct (Hsorted ltac:(by rewrite Hc1) (Hinv1 Hpre Hinv0)) as [_ Hss].
  exists h1, out, h2. split; [done|]. split; [done|].
  assert (Hh2 : heap h2 = []).
  { apply Permutation_length in Hperm2. rewrite length_app in Hperm2.
    rewrite Hh0 in Hlen1. simpl in Hlen1.
    destruct (heap h2); [done | simpl in Hperm2; lia]. }
  split.
  { rewrite Hh2, app_nil_r in Hperm2. rewrite Hh0, app_nil_r in Hperm1.
    by rewrite <- Hperm2, Hperm1. }
  apply StronglySorted_Sorted in Hss. rewrite Hc1 in Hss.
  split; intros Ep.
  - by rewrite (Hmin Ep) in Hss.
  - by rewrite (Hmax Ep) in Hss.
Qed.

Lemma extraction_is_sorted_witness :
  exists h1 out h2,
    insert_all (mkDHeap (fun kp kc => num_leb kc kp) [] 3 "max")
      [(Fin 4, "d"); (Fin 9, "i"); (Fin 4, "e"); (Inf, "z"); (Fin (-2), "m")]
      = Ok h1 /\
    extract_n h1 5 = Ok (out, h2) /\
    out ≡ₚ map node_of_pair
      [(Fin 4, "d"); (Fin 9, "i"); (Fin 4, "e"); (Inf, "z"); (Fin (-2), "m")] /\
    ("max" = "min" -> Sorted num_le (map key out)) /\
    ("max" = "max" -> Sorted num_ge (map key out)).
Proof.
  apply (extraction_is_sorted "max" 3
           (mkDHeap (fun kp kc => num_leb kc kp) [] 3 "max")
           [(Fin 4, "d"); (Fin 9, "i"); (Fin 4, "e"); (Inf, "z"); (Fin (-2), "m")]
           ltac:(lia) (or_intror eq_refl) eq_refl).
Defined.

(** ** The child a sift-down round selects (C5) *)

Lemma heapify_target_later {D : Type} comp dd (l : list (TreeNode D)) i t :
  1 <= dd ->
  heapify_target comp dd l i = Ok t ->
  forall c nc nt, 0 < c -> parent_of dd c = i ->
    l !! c = Some nc -> l !! t = Some nt ->
    comp (key nc) (key nt) = true -> c <= t.
Proof.
  intros Hd Ht c nc nt Hc Hpar Hlc Hlt Hcmp.
  rewrite heapify_target_unfold in Ht by done.
  destruct (decide (c <= t)) as [|Hgt]; [done|].
  pose proof (proj1 (parent_of_child dd i c Hd) (conj Hc Hpar)) as Hrange.
  rewrite (scan_children_later comp l dd (dd * i + 1) i t ltac:(nia) Ht
             c nc nt ltac:(lia) ltac:(lia) Hlc Hlt) in Hcmp.
  done.
Qed.

(** C5 as stated fails: in the binary min-heap round over keys [5; 3; 3]
    the two children tie and the round selects index 2, not index 1; built
    from these three nodes, the heap has the second [3] at the root. *)
Lemma lowest_index_wins_counterexample :
  ~ lowest_index_wins (fun kp kc => num_leb kp kc) 2
      [mkTreeNode (Fin 5) "p"; mkTreeNode (Fin 3) "first";
       mkTreeNode (Fin 3) "second"] 0
  /\ exists h,
       DHeap_new (Some [mkTreeNode (Fin 5) "p"; mkTreeNode (Fin 3) "first";
                        mkTreeNode (Fin 3) "second"]) "min" 2 = Ok h /\
       heap h = [mkTreeNode (Fin 3) "second"; mkTreeNode (Fin 3) "first";
                 mkTreeNode (Fin 5) "p"].
Proof.
  split.
  - intros H.
    specialize (H 2 eq_refl ltac:(lia) 1 (mkTreeNode (Fin 3) "first")
                  (mkTreeNode (Fin 3) "second") ltac:(lia) eq_refl eq_refl
                  eq_refl eq_refl).
    lia.
  - eexists. split; reflexivity.
Qed.

(** C5, amended.  In each round of the sift-down of a min- or max-heap (in
    [extract] and in the bulk build), the index selected is [i] itself or
    an occupied child of [i]; it dominates [i] and every occupied child of
    [i] under the comparator; and when two or more children tie for most
    dominating, the highest-index one (the last scanned) is selected. *)
Theorem sift_down_selects_last_best {D : Type} (h : DHeap D) (i : nat) :
  1 <= d h ->
  _comp h = (fun kp kc => num_leb kp kc) \/
  _comp h = (fun kp kc => num_leb kc kp) ->
  exists t,
    heapify_target (_comp h) (d h) (heap h) i = Ok t /\
    (t = i \/ (0 < t /\ parent_of (d h) t = i /\ t < length (heap h))) /\
    (forall c nc nt, (c = i \/ (0 < c /\ parent_of (d h) c = i)) ->
       heap h !! c = Some nc -> heap h !! t = Some nt ->
       _comp h (key nt) (key nc) = true) /\
    (forall c nc nt, 0 < c -> parent_of (d h) c = i ->
       heap h !! c = Some nc -> heap h !! t = Some nt ->
       _comp h (key nc) (key nt) = true -> c <= t).
Proof.
  intros Hd Hcomp.
  assert (Hpre : total_preorder (_comp h)).
  { destruct Hcomp as [-> | ->];
      [apply min_comp_preorder | apply max_comp_preorder]. }
  destruct Hpre as [Ht Hr].
  destruct (heapify_target_range (_comp h) (d h) Hd (heap h) i)
    as (t & Etarget & Hrange).
  exists t. split; [done|]. split; [done|]. split.
  - intros c nc nt Hc Hlc Hlt.
    by apply (heapify_target_best (_comp h) (d h) Hd Ht Hr (heap h) i t
                Etarget c Hc nt nc).
  - by apply heapify_target_later.
Qed.

Lemma sift_down_selects_last_best_witness :
  exists t,
    heapify_target (fun kp kc => num_leb kp kc) 2
      [mkTreeNode (Fin 5) "p"; mkTreeNode (Fin 3) "first";
       mkTreeNode (Fin 3) "second"] 0 = Ok t /\
    (t = 0 \/ (0 < t /\ parent_of 2 t = 0 /\ t < 3)) /\
    (forall c nc nt, (c = 0 \/ (0 < c /\ parent_of 2 c = 0)) ->
       [mkTreeNode (Fin 5) "p"; mkTreeNode (Fin 3) "first";
        mkTreeNode (Fin 3) "second"] !! c = Some nc ->
       [mkTreeNode (Fin 5) "p"; mkTreeNode (Fin 3) "first";
        mkTreeNode (Fin 3) "second"] !! t = Some nt ->
       num_leb (key nt) (key nc) = true) /\
    (forall c nc nt, 0 < c -> parent_of 2 c = 0 ->
       [mkTreeNode (Fin 5) "p"; mkTreeNode (Fin 3) "first";
        mkTreeNode (Fin 3) "second"] !! c = Some nc ->
       [mkTreeNode (Fin 5) "p"; mkTreeNode (Fin 3) "first";
        mkTreeNode (Fin 3) "second"] !! t = Some nt ->
       num_leb (key nc) (key nt) = true -> c <= t).
Proof.
  apply (sift_down_selects_last_best
           (mkDHeap (fun kp kc => num_leb kp kc)
              [mkTreeNode (Fin 5) "p"; mkTreeNode (Fin 3) "first";
               mkTreeNode (Fin 3) "second"] 2 "min") 0).
  - simpl. lia.
  - left. reflexivity.
Defined.

(** ** The two worked examples (C3, C4) *)

(** C3.  On the graph with vertices V1, V2, V3 and the bidirectional edges
    V2-V3 of weight 10 and V1-V2 of weight 11, [shortest_paths] with
    ['dijkstra'], source V1 and no target returns the distances
    [{V1: 0, V2: 11, V3: 21}] and the predecessors
    [{V1: None, V2: V1, V3: V2}]. *)
Theorem dijkstra_three_vertices :
  exists g distances predecessors,
    G_dijkstra = Ok g /\
    shortest_paths g "dijkstra" "V1" "" = Ok (AllPaths distances predecessors) /\
    distances = [("V2", Fin 11); ("V3", Fin 21); ("V1", Fin 0)] /\
    predecessors = [("V1", None); ("V2", Some "V1"); ("V3", Some "V2")] /\
    dict_get "V1" distances = Some (Fin 0) /\
    dict_get "V2" distances = Some (Fin 11) /\
    dict_get "V3" distances = Some (Fin 21) /\
    dict_get "V1" predecessors = Some None /\
    dict_get "V2" predecessors = Some (Some "V1") /\
    dict_get "V3" predecessors = Some (Some "V2").
Proof.
  eexists _, _, _. split; [reflexivity|]. split; [vm_compute; reflexivity|].
  repeat split.
Qed.

(** C4.  On the graph over A and B with one undirected edge of weight 3,
    stored as A->B and B->A, [minimum_spanning_tree] with ['prim'] returns
    (within four rounds of its loop) a graph whose edges are exactly A->B
    and B->A, each of weight 3: total weight 3 for the undirected edge. *)
Theorem prim_two_vertices (fuel : nat) :
  4 <= fuel ->
  exists g mst,
    G_prim = Ok g /\
    minimum_spanning_tree fuel g "prim" = Ok mst /\
    edge_weights mst = [("A_B", mkEdge "A" "B" 3); ("B_A", mkEdge "B" "A" 3)] /\
    (foldr Z.add 0 (map (fun kv => value (snd kv)) (edge_weights mst)) / 2 = 3)%Z.
Proof.
  intros Hfuel.
  do 4 (destruct fuel as [|fuel]; [lia|]).
  eexists _, _. split; [reflexivity|]. split; [vm_compute; reflexivity|].
  split; reflexivity.
Qed.

Lemma prim_two_vertices_witness :
  exists g mst,
    G_prim = Ok g /\
    minimum_spanning_tree 4 g "prim" = Ok mst /\
    edge_weights mst = [("A_B", mkEdge "A" "B" 3); ("B_A", mkEdge "B" "A" 3)] /\
    (foldr Z.add 0 (map (fun kv => value (snd kv)) (edge_weights mst)) / 2 = 3)%Z.
Proof. apply (prim_two_vertices 4). lia. Defined.

(** ** Dictionaries *)

Section Dicts.
Context {V : Type}.
Implicit Types m : dict V.

Lemma dict_get_set_eq k v m : dict_get k (dict_set k v m) = Some v.
Proof.
  induction m as [|[k' v'] m IH]; simpl.
  - by rewrite String.eqb_refl.
  - destruct (String.eqb_spec k k') as [->|Hne]; simpl.
    + by rewrite String.eqb_refl.
    + by destruct (String.eqb_spec k k').
Qed.

Lemma dict_get_set_ne k k' v m :
  k' <> k -> dict_get k' (dict_set k v m) = dict_get k' m.
Proof.
  intros Hne. induction m as [|[k0 v0] m IH]; simpl.
  - by destruct (String.eqb_spec k' k).
  - destruct (String.eqb_spec k k0) as [->|Hne0]; simpl.
    + destruct (String.eqb_spec k' k0); [done|]. done.
    + destruct (String.eqb_spec k' k0); [done|]. done.
Qed.

Lemma dict_get_set_is_Some k k' v m :
  is_Some (dict_get k' (dict_set k v m)) <-> k' = k \/ is_Some (dict_get k' m).
Proof.
  destruct (decide (k' = k)) as [->|Hne].
  - rewrite dict_get_set_eq. split; [by left | by eauto].
  - rewrite dict_get_set_ne by done. naive_solver.
Qed.

Lemma dict_get_keys k m : is_Some (dict_get k m) <-> k ∈ dict_keys m.
Proof.
  induction m as [|[k0 v0] m IH]; simpl.
  - split; [by intros [? ?] | by intros ?%elem_of_nil].
  - rewrite elem_of_cons, <- IH.
    destruct (String.eqb_spec k k0) as [->|Hne]; [|naive_solver].
    split; [by left | by eauto].
Qed.

Lemma dict_item_Some k v m : dict_get k m = Some v -> dict_item k m = Ok v.
Proof. unfold dict_item. by intros ->. Qed.

Lemma dict_item_None k m : dict_get k m = None -> dict_item k m = Raise (KeyError k).
Proof. unfold dict_item. by intros ->. Qed.

End Dicts.

(** ** Relaxation in Dijkstra (C8) *)

Lemma dijkstra_relax_cases graph u v st st' :
  dijkstra_relax graph u v st = Ok st' ->
  st' = st \/
  exists e du q,
    dict_get (u ++ "_" ++ v) (edge_weights graph) = Some e /\
    (0 < value e)%Z /\
    dict_get u (dist st) = Some du /\
    push (pq st) v (num_add du (value e)) = Ok q /\
    st' = mkDijkstra (visited st)
            (dict_set v (num_add du (value e)) (dist st))
            (dict_set v (Some u) (pred st)) q
            (relaxed st ++ [mkRelaxation u v (value e) (num_add du (value e))]).
Proof.
  unfold dijkstra_relax. intros H.
  destruct (dict_get (u ++ "_" ++ v) (edge_weights graph)) as [e|] eqn:He;
    [|left; congruence].
  destruct (Z.gtb_spec (value e) 0) as [Hpos|_]; [|left; congruence].
  inv_bind H. destruct a; simpl in H; [left; congruence|].
  inv_bind H. inv_bind H.
  destruct (num_ltb (num_add a0 (value e)) a); [|left; congruence].
  inv_bind H. right. exists e, a0, a1.
  unfold dict_item in Ha1. destruct (dict_get u (dist st)); [|done].
  simplify_eq. repeat split; try done; lia.
Qed.

Lemma dijkstra_relax_accounted graph start u v st st' :
  dijkstra_relax graph u v st = Ok st' ->
  relaxations_accounted graph start st -> relaxations_accounted graph start st'.
Proof.
  intros Hrel (HP & Hd & Hp).
  destruct (dijkstra_relax_cases _ _ _ _ _ Hrel)
    as [->|(e & du & q & He & Hpos & _ & _ & ->)]; [done|].
  split; [|split]; simpl.
  - apply Forall_app. split; [done|]. constructor; [|done].
    split; [done|]. exists e. done.
  - unfold replay_dist. rewrite fold_left_app. simpl. by rewrite Hd.
  - unfold replay_pred. rewrite fold_left_app. simpl. by rewrite Hp.
Qed.

Lemma dijkstra_inner_accounted graph start u vs : forall st st',
  dijkstra_inner graph u vs st = Ok st' ->
  relaxations_accounted graph start st -> relaxations_accounted graph start st'.
Proof.
  induction vs as [|v vs IH]; intros st st' Hrun Hacc; simpl in Hrun.
  - by simplify_eq.
  - inv_bind Hrun. eapply IH; [exact Hrun|].
    by eapply dijkstra_relax_accounted.
Qed.

Lemma dijkstra_outer_accounted graph start n : forall st st',
  dijkstra_outer graph n st = Ok st' ->
  relaxations_accounted graph start st -> relaxations_accounted graph start st'.
Proof.
  induction n as [|n IH]; intros st st' Hrun Hacc; simpl in Hrun.
  - by simplify_eq.
  - inv_bind Hrun. destruct a as [u q]. inv_bind Hrun.
    eapply IH; [exact Hrun|].
    eapply dijkstra_inner_accounted; [exact Ha0|]. done.
Qed.

Lemma dijkstra_run_unfold graph start :
  dijkstra_run graph start =
  let* q := PriorityQueue_new "binary_heap" None in
  let* q := dijkstra_fill (dijkstra_dist0 graph start)
              (dict_keys (dijkstra_dist0 graph start)) q in
  dijkstra_outer graph (length (vertices graph))
    (mkDijkstra (dijkstra_init start (vertices graph) [] [] []).1.1
       (dijkstra_dist0 graph start) (dijkstra_pred0 graph start) q []).
Proof.
  unfold dijkstra_run, dijkstra_dist0, dijkstra_pred0.
  by destruct (dijkstra_init start (vertices graph) [] [] []) as [[vis dst] prd].
Qed.

(** An edge that is absent or whose weight is zero or less changes
    nothing. *)
Lemma dijkstra_relax_guard graph u v st :
  (forall e, dict_get (u ++ "_" ++ v) (edge_weights graph) = Some e ->
             (value e <= 0)%Z) ->
  dijkstra_relax graph u v st = Ok st.
Proof.
  intros Hw. unfold dijkstra_relax.
  destruct (dict_get (u ++ "_" ++ v) (edge_weights graph)) as [e|]; [|done].
  specialize (Hw e eq_refl).
  by destruct (Z.gtb_spec (value e) 0); [lia|].
Qed.

(** C8.  In every run of Dijkstra's shortest paths that reaches its
    [return], an edge whose weight is zero or negative is never used for
    relaxation: the step for such an edge leaves the whole state as it
    was, every assignment to a [dist] and a [pred] entry made in the main
    loop went along an edge of the graph of weight greater than 0, and the
    final [dist] and [pred] are the initial ones updated by exactly those
    assignments. *)
Theorem dijkstra_relaxes_positive_edges_only (graph : Graph) (start : string)
    (st : DijkstraState) :
  dijkstra_run graph start = Ok st ->
  (forall u v s e,
      dict_get (u ++ "_" ++ v) (edge_weights graph) = Some e ->
      (value e <= 0)%Z -> dijkstra_relax graph u v s = Ok s) /\
  Forall (positive_edge graph) (relaxed st) /\
  dist st = replay_dist (relaxed st) (dijkstra_dist0 graph start) /\
  pred st = replay_pred (relaxed st) (dijkstra_pred0 graph start).
Proof.
  intros Hrun. split.
  { intros u v s e He Hw. apply dijkstra_relax_guard. intros e' He'.
    by simplify_eq. }
  rewrite dijkstra_run_unfold in Hrun.
  inv_bind Hrun. inv_bind Hrun.
  eapply (dijkstra_outer_accounted graph start) in Hrun; [exact Hrun|].
  split; [constructor | done].
Qed.

Lemma dijkstra_relaxes_positive_edges_only_witness :
  (forall u v s e,
      dict_get (u ++ "_" ++ v) (edge_weights G_dijkstra_graph) = Some e ->
      (value e <= 0)%Z -> dijkstra_relax G_dijkstra_graph u v s = Ok s) /\
  Forall (positive_edge G_dijkstra_graph) (relaxed G_dijkstra_final) /\
  dist G_dijkstra_final =
    replay_dist (relaxed G_dijkstra_final) (dijkstra_dist0 G_dijkstra_graph "V1") /\
  pred G_dijkstra_final =
    replay_pred (relaxed G_dijkstra_final) (dijkstra_pred0 G_dijkstra_graph "V1").
Proof.
  apply (dijkstra_relaxes_positive_edges_only G_dijkstra_graph "V1"
           G_dijkstra_final).
  vm_compute. reflexivity.
Defined.

(** ** An unknown target (C9) *)

Section PushPop.
Context {V : Type}.
Implicit Types q : BinaryHeapPriorityQueue V.

Lemma push_Ok q value priority :
  1 <= d (items q) ->
  exists q', push q value priority = Ok q' /\
             heap (items q') ≡ₚ mkTreeNode priority value :: heap (items q) /\
             d (items q') = d (items q).
Proof.
  intros Hd. unfold push.
  destruct (insert_Ok (items q) priority value Hd)
    as (h' & -> & Hperm & _ & _ & Hdd & _).
  simpl. by exists (mkPQ h').
Qed.

Lemma pop_Ok q :
  1 <= d (items q) -> heap (items q) <> [] ->
  exists root q', pop q = Ok (data root, q') /\
                  heap (items q) ≡ₚ root :: heap (items q') /\
                  d (items q') = d (items q).
Proof.
  intros Hd Hne. unfold pop.
  destruct (extract_Ok (items q) Hd Hne)
    as (root & h' & -> & _ & Hperm & _ & _ & Hdd & _).
  simpl. by exists root, (mkPQ h').
Qed.

End PushPop.

Section UnknownTarget.
Context (graph : Graph).

Lemma dijkstra_relax_wf u v st :
  u ∈ vertices graph -> v ∈ vertices graph ->
  dijkstra_wf graph st ->
  exists st', dijkstra_relax graph u v st = Ok st' /\
              dijkstra_wf graph st' /\ queue_length st <= queue_length st'.
Proof.
  intros Hu Hv (Hvis & Hdist & Hq & Hd).
  unfold dijkstra_relax.
  destruct (dict_get (u ++ "_" ++ v) (edge_weights graph)) as [e|];
    [|by exists st].
  destruct (value e >? 0)%Z; [|by exists st].
  destruct (Hvis v Hv) as [vis Evis]. rewrite (dict_item_Some _ _ _ Evis).
  simpl. destruct vis; simpl; [by exists st|].
  destruct (proj2 (Hdist v) Hv) as [dv Edv]. rewrite (dict_item_Some _ _ _ Edv).
  destruct (proj2 (Hdist u) Hu) as [du Edu]. rewrite (dict_item_Some _ _ _ Edu).
  simpl. destruct (num_ltb (num_add du (value e)) dv); [|by exists st].
  destruct (push_Ok (pq st) v (num_add du (value e)) ltac:(lia))
    as (q' & -> & Hperm & Hdd).
  simpl. eexists. split; [done|]. split.
  - split; [done|]. split; [|split]; simpl.
    + intros k. rewrite dict_get_set_is_Some, Hdist. naive_solver.
    + rewrite Hperm. by constructor.
    + lia.
  - unfold queue_length. simpl. rewrite Hperm. simpl. lia.
Qed.

Lemma dijkstra_inner_wf u vs : forall st,
  u ∈ vertices graph -> (forall v, v ∈ vs -> v ∈ vertices graph) ->
  dijkstra_wf graph st ->
  exists st', dijkstra_inner graph u vs st = Ok st' /\
              dijkstra_wf graph st' /\ queue_length st <= queue_length st'.
Proof.
  induction vs as [|v vs IH]; intros st Hu Hvs Hwf; simpl.
  - by exists st.
  - destruct (dijkstra_relax_wf u v st Hu ltac:(apply Hvs; by left) Hwf)
      as (st1 & -> & Hwf1 & Hlen1).
    simpl.
    destruct (IH st1 Hu ltac:(intros; apply Hvs; by right) Hwf1)
      as (st' & -> & Hwf' & Hlen').
    exists st'. split; [done|]. split; [done | lia].
Qed.

Lemma dijkstra_outer_wf n : forall st,
  dijkstra_wf graph st -> n <= queue_length st ->
  exists st', dijkstra_outer graph n st = Ok st' /\ dijkstra_wf graph st'.
Proof.
  induction n as [|n IH]; intros st Hwf Hn; simpl.
  - by exists st.
  - destruct Hwf as (Hvis & Hdist & Hq & Hd).
    unfold queue_length in Hn.
    destruct (pop_Ok (pq st) ltac:(lia))
      as (root & q' & -> & Hperm & Hdd).
    { intros E. rewrite E in Hn. simpl in Hn. lia. }
    simpl.
    assert (Hroot : data root ∈ vertices graph).
    { rewrite Hperm in Hq. by apply Forall_cons in Hq as [? _]. }
    assert (Hwf1 : dijkstra_wf graph
              (mkDijkstra (dict_set (data root) true (visited st)) (dist st)
                 (pred st) q' (relaxed st))).
    { split; [|split; [|split]]; simpl.
      - intros v Hv. rewrite dict_get_set_is_Some. right. by apply Hvis.
      - done.
      - rewrite Hperm in Hq. by apply Forall_cons in Hq as [_ ?].
      - lia. }
    destruct (dijkstra_inner_wf (data root) (vertices graph) _ Hroot
                ltac:(done) Hwf1) as (st2 & -> & Hwf2 & Hlen2).
    simpl. apply IH; [done|].
    unfold queue_length in *. simpl in Hlen2.
    apply Permutation_length in Hperm. simpl in Hperm. lia.
Qed.

Lemma dijkstra_init_keys start vs : forall vis dst prd,
  let r := dijkstra_init start vs vis dst prd in
  (forall k, is_Some (dict_get k r.1.1) <->
             k ∈ vs \/ is_Some (dict_get k vis)) /\
  (forall k, is_Some (dict_get k r.1.2) <->
             (k ∈ vs /\ k <> start) \/ is_Some (dict_get k dst)).
Proof.
  induction vs as [|v vs IH]; intros vis dst prd; simpl.
  - split; intros k; rewrite elem_of_nil; naive_solver.
  - destruct (IH (dict_set v false vis)
                (if negb (String.eqb v start) then dict_set v Inf dst else dst)
                (dict_set v None prd)) as [H1 H2].
    split; intros k; rewrite elem_of_cons.
    + rewrite H1, dict_get_set_is_Some. naive_solver.
    + rewrite H2. destruct (String.eqb_spec v start) as [->|Hne]; simpl.
      * naive_solver.
      * rewrite dict_get_set_is_Some. naive_solver.
Qed.

Lemma dijkstra_fill_Ok dst ks : forall q : BinaryHeapPriorityQueue string,
  (forall k, k ∈ ks -> is_Some (dict_get k dst)) ->
  d (items q) = 2 ->
  exists q', dijkstra_fill dst ks q = Ok q' /\
             length (heap (items q')) = length ks + length (heap (items q)) /\
             (forall P : TreeNode string -> Prop,
                (forall k x, k ∈ ks -> P (mkTreeNode x k)) ->
                Forall P (heap (items q)) -> Forall P (heap (items q'))) /\
             d (items q') = 2.
Proof.
  induction ks as [|k ks IH]; intros q Hks Hd; simpl.
  - by exists q.
  - destruct (Hks k ltac:(by left)) as [dv Edv].
    rewrite (dict_item_Some _ _ _ Edv). simpl.
    destruct (push_Ok q k dv ltac:(lia)) as (q1 & -> & Hperm & Hdd). simpl.
    destruct (IH q1 ltac:(intros; apply Hks; by right) ltac:(lia))
      as (q' & -> & Hlen & HP & Hd').
    exists q'. split; [done|]. split.
    { rewrite Hlen, Hperm. simpl. lia. }
    split; [|done].
    intros P Hk HPq. apply HP; [intros; apply Hk; by right|].
    rewrite Hperm. constructor; [apply Hk; by left | done].
Qed.

Lemma dijkstra_run_wf start :
  NoDup (vertices graph) -> start ∈ vertices graph ->
  exists st, dijkstra_run graph start = Ok st /\ dijkstra_wf graph st.
Proof.
  intros Hnd Hstart. rewrite dijkstra_run_unfold.
  assert (Hq0 : PriorityQueue_new (V := string) "binary_heap" None =
                Ok (mkPQ (mkDHeap (fun u v => num_ltb u v) [] 2 "min")))
    by reflexivity.
  rewrite Hq0. simpl bind.
  destruct (dijkstra_init_keys start (vertices graph) [] [] []) as [Hvis Hdst].
  assert (Hkeys : forall k, is_Some (dict_get k (dijkstra_dist0 graph start))
                            <-> k ∈ vertices graph).
  { intros k. unfold dijkstra_dist0. rewrite dict_get_set_is_Some, Hdst.
    simpl. split.
    - intros [->|[[? _]|[? ?]]]; done.
    - intros Hk. destruct (decide (k = start)); [by left | right; by left]. }
  destruct (dijkstra_fill_Ok (dijkstra_dist0 graph start)
              (dict_keys (dijkstra_dist0 graph start))
              (mkPQ (mkDHeap (fun u v => num_ltb u v) [] 2 "min")))
    as (q & -> & Hlen & HP & Hd); [|done|].
  { intros k Hk. by apply dict_get_keys. }
  simpl bind. apply dijkstra_outer_wf.
  - split; [|split; [|split]]; simpl.
    + intros v Hv. apply Hvis. by left.
    + done.
    + apply HP; [|constructor].
      intros k x Hk. simpl. apply Hkeys. by apply dict_get_keys.
    + done.
  - unfold queue_length. simpl. rewrite Hlen. simpl.
    rewrite Nat.add_0_r. apply submseteq_length, NoDup_submseteq; [done|].
    intros k Hk. apply dict_get_keys. by apply Hkeys.
Qed.

End UnknownTarget.

(** C9.  For every graph (vertex identifiers unique) and every source that
    is a vertex of it, Dijkstra's shortest paths called with a non-empty
    target that is not a vertex of the graph raises the [KeyError] of the
    lookup [dist[target]] and returns nothing. *)
Theorem dijkstra_unknown_target_raises (graph : Graph)
    (start target : string) :
  NoDup (vertices graph) -> start ∈ vertices graph ->
  target <> "" -> target ∉ vertices graph ->
  _impl graph = "adjacency_list" \/ _impl graph = "adjacency_matrix" ->
  _dijkstra_adjacency_list graph start target = Raise (KeyError target) /\
  shortest_paths graph "dijkstra" start target = Raise (KeyError target).
Proof.
  intros Hnd Hstart Hne Hnot Himpl.
  assert (Hd : _dijkstra_adjacency_list graph start target
               = Raise (KeyError target)).
  { unfold _dijkstra_adjacency_list.
    destruct (dijkstra_run_wf graph start Hnd Hstart)
      as (st & -> & _ & Hdist & _).
    simpl. destruct (String.eqb_spec target ""); [done|]. simpl.
    rewrite dict_item_None; [done|].
    destruct (dict_get target (dist st)) eqn:E; [|done].
    exfalso. apply Hnot, Hdist. by rewrite E. }
  split; [done|].
  unfold shortest_paths. by destruct Himpl as [-> | ->].
Qed.

Lemma dijkstra_unknown_target_raises_witness :
  _dijkstra_adjacency_list G_dijkstra_graph "V1" "V9" = Raise (KeyError "V9") /\
  shortest_paths G_dijkstra_graph "dijkstra" "V1" "V9" = Raise (KeyError "V9").
Proof.
  apply (dijkstra_unknown_target_raises G_dijkstra_graph "V1" "V9").
  - apply (bool_decide_unpack (NoDup (vertices G_dijkstra_graph))).
    vm_compute. exact I.
  - apply (bool_decide_unpack ("V1" ∈ vertices G_dijkstra_graph)).
    vm_compute. exact I.
  - discriminate.
  - apply (bool_decide_unpack ("V9" ∉ vertices G_dijkstra_graph)).
    vm_compute. exact I.
  - left. reflexivity.
Defined.

(** * Further properties of the code *)

(** ** Heap order under a strict comparator

    The priority queue replaces the comparator of its heap by
    [lambda u, v: u < v].  The sifting loops then decide with [comp] but
    keep the heap ordered by the weaker relation [le] that [comp] refines:
    [comp a b] implies [le a b], and a failed [comp a b] implies [le b a]. *)

Section Refined.
Context {D : Type} (comp le : num -> num -> bool) (dd : nat).
Hypothesis dd_pos : 1 <= dd.
Hypothesis comp_sound : forall a b, comp a b = true -> le a b = true.
Hypothesis comp_failed : forall a b, comp a b = false -> le b a = true.
Hypothesis le_trans :
  forall a b c, le a b = true -> le b c = true -> le a c = true.
Implicit Types l : list (TreeNode D).

Lemma le_refl_of_comp (a : num) : le a a = true.
Proof.
  destruct (comp a a) eqn:E; [by apply comp_sound | by apply comp_failed].
Qed.

Lemma le_dominates_refl l c : dominates le l c c.
Proof. intros np nc Hp Hc. simplify_eq. apply le_refl_of_comp. Qed.

Lemma le_dominates_trans l a b c :
  b < length l ->
  dominates le l a b -> dominates le l b c -> dominates le l a c.
Proof.
  intros Hb Hab Hbc na nc Ha Hc.
  destruct (lookup_lt_is_Some_2 l b Hb) as [nb Hnb]. eauto.
Qed.

Lemma scan_children_least l n : forall a t0 t,
  t0 < a ->
  scan_children comp l t0 (seq a n) = Ok t ->
  forall c, c = t0 \/ a <= c < a + n -> dominates le l t c.
Proof.
  induction n as [|n IH]; intros a t0 t Ht0 Hs c Hc; simpl in Hs.
  - simplify_eq. destruct Hc as [->|?]; [apply le_dominates_refl | lia].
  - unfold array_last_pos_filled in Hs. case_match eqn:Hlast.
    2:{ apply Z.leb_gt in Hlast. simplify_eq.
        destruct Hc as [->|?]; [apply le_dominates_refl|].
        intros np nc _ Hl. apply lookup_lt_Some in Hl. lia. }
    apply Z.leb_le in Hlast.
    destruct (array_getitem_lt l a ltac:(lia)) as (na & Hna & Ga).
    destruct (array_getitem_lt l t0 ltac:(lia)) as (n0 & Hn0 & G0).
    rewrite Ga, G0 in Hs. simpl in Hs.
    set (t1 := if comp (key na) (key n0) then a else t0) in *.
    assert (Ht1 : t1 < S a) by (subst t1; case_match; lia).
    assert (Ht1len : t1 < length l) by lia.
    pose proof (IH (S a) t1 t Ht1 Hs) as Hbest.
    assert (H10 : dominates le l t1 t0).
    { subst t1. destruct (comp (key na) (key n0)) eqn:E.
      - intros ? ? ? ?. simplify_eq. by apply comp_sound.
      - apply le_dominates_refl. }
    assert (H1a : dominates le l t1 a).
    { subst t1. destruct (comp (key na) (key n0)) eqn:E.
      - apply le_dominates_refl.
      - intros ? ? ? ?. simplify_eq. by apply comp_failed. }
    destruct Hc as [->|Hc].
    + eapply le_dominates_trans; [exact Ht1len | apply Hbest; by left | done].
    + destruct (decide (c = a)) as [->|?].
      * eapply le_dominates_trans; [exact Ht1len | apply Hbest; by left | done].
      * apply Hbest. right. lia.
Qed.

Lemma heapify_target_least l i t :
  heapify_target comp dd l i = Ok t ->
  forall c, c = i \/ (0 < c /\ parent_of dd c = i) -> dominates le l t c.
Proof.
  rewrite heapify_target_unfold by done. intros Hs c Hc.
  eapply scan_children_least; [|exact Hs|]; [nia|].
  destruct Hc as [?|Hc]; [by left | right].
  apply parent_of_child in Hc; [lia | done].
Qed.

Lemma heapify_loop_weak lo fuel : forall l i l',
  lo <= i ->
  heapify_loop fuel comp dd l i = Ok l' ->
  down_except le dd lo l i -> ordered_from le dd lo l'.
Proof.
  induction fuel as [|fuel IH]; intros l i l' Hlo Hrun Hex; [done|].
  simpl in Hrun.
  destruct (heapify_target_range comp dd dd_pos l i) as (t & Ht & Hr).
  rewrite Ht in Hrun. simpl in Hrun.
  pose proof (heapify_target_least l i t Ht) as Hbest.
  destruct Hex as [H1 H2].
  destruct (Nat.eqb_spec t i) as [Heq|Hne]; simpl in Hrun.
  - simplify_eq. intros c Hc Hloc.
    destruct (decide (parent_of dd c = i)) as [E|E]; [|by apply H1].
    rewrite E. apply Hbest. by right.
  - destruct Hr as [?|(Ht0 & Hpar & Htlen)]; [done|].
    pose proof (parent_of_lt dd t dd_pos Ht0) as Hti. rewrite Hpar in Hti.
    destruct (_swap_spec l t i Htlen ltac:(lia)) as (l1 & Hsw & Hlen1 & Hl1).
    rewrite Hsw in Hrun. simpl in Hrun.
    eapply (IH l1 t); [lia | exact Hrun|].
    split.
    + intros c Hc Hloc Hpc. eapply dominates_swapped; [exact Hl1|].
      pose proof (parent_of_lt dd c dd_pos Hc) as Hpclt.
      destruct (decide (c = t)) as [->|Hct].
      { rewrite Hpar, transp_r, transp_l. apply Hbest. by left. }
      destruct (decide (c = i)) as [->|Hci].
      { rewrite transp_r, transp_other by lia. apply H2; done. }
      rewrite (transp_other t i c) by done.
      destruct (decide (parent_of dd c = i)) as [Hpi|Hpi].
      { rewrite Hpi, transp_r. apply Hbest. by right. }
      rewrite transp_other by done. by apply H1.
    + intros _ _ c Hc Hpc. eapply dominates_swapped; [exact Hl1|].
      pose proof (parent_of_lt dd c dd_pos Hc) as Hpclt.
      rewrite Hpar, transp_r, transp_other by lia.
      rewrite <- Hpc. apply H1; [done | lia | lia].
Qed.

Lemma sift_up_weak fuel : forall l i l',
  i < length l ->
  sift_up fuel comp dd l i = Ok l' ->
  up_except le dd l i -> ordered_from le dd 0 l'.
Proof.
  induction fuel as [|fuel IH]; intros l i l' Hi Hrun Hex; [done|].
  simpl in Hrun. rewrite (dd_nonzero dd dd_pos) in Hrun.
  destruct (Nat.eqb_spec i 0) as [Hi0|Hi0].
  { simplify_eq. intros c Hc _. apply Hex; lia. }
  pose proof (parent_of_lt dd i dd_pos ltac:(lia)) as Hp.
  fold (parent_of dd i) in Hrun.
  destruct (array_getitem_lt l (parent_of dd i) ltac:(lia)) as (np & Hnp & Gp).
  destruct (array_getitem_lt l i Hi) as (ni & Hni & Gi).
  rewrite Gp, Gi in Hrun. simpl in Hrun.
  destruct (comp (key np) (key ni)) eqn:Hcmp.
  { simplify_eq. intros c Hc _.
    destruct (decide (c = i)) as [->|Hci]; [|by apply Hex].
    intros ? ? ? ?. simplify_eq. by apply comp_sound. }
  destruct (_swap_spec l i (parent_of dd i) Hi ltac:(lia))
    as (l1 & Hsw & Hlen1 & Hl1).
  rewrite Hsw in Hrun. simpl in Hrun.
  eapply (IH l1 (parent_of dd i)); [lia | exact Hrun |].
  destruct Hex as [H1 H2].
  set (p := parent_of dd i) in *.
  assert (Hip : dominates le l i p).
  { intros ? ? ? ?. simplify_eq. by apply comp_failed. }
  split.
  - intros c Hc Hcp. eapply dominates_swapped; [exact Hl1|].
    pose proof (parent_of_lt dd c dd_pos Hc) as Hpc.
    destruct (decide (c = i)) as [->|Hci].
    { fold p. by rewrite transp_r, transp_l. }
    rewrite (transp_other i p c) by done.
    destruct (decide (parent_of dd c = i)) as [Hq|Hq].
    { rewrite Hq, transp_l. apply H2; [lia | done | done]. }
    destruct (decide (parent_of dd c = p)) as [Hq'|Hq'].
    { rewrite Hq', transp_r. eapply (le_dominates_trans l i p c); [lia | done |].
      rewrite <- Hq'. by apply H1. }
    rewrite transp_other by done. by apply H1.
  - intros Hp0 c Hc Hcp. eapply dominates_swapped; [exact Hl1|].
    pose proof (parent_of_lt dd p dd_pos Hp0) as Hq.
    rewrite (transp_other i p (parent_of dd p)) by lia.
    assert (Hqp : dominates le l (parent_of dd p) p) by (apply H1; lia).
    destruct (decide (c = i)) as [->|Hci].
    { by rewrite transp_l. }
    pose proof (parent_of_lt dd c dd_pos Hc).
    rewrite transp_other by lia.
    eapply (le_dominates_trans l _ p c); [lia | done |].
    rewrite <- Hcp. by apply H1.
Qed.

End Refined.

Lemma refines_self (comp : num -> num -> bool) :
  total_preorder comp -> refines comp comp.
Proof. intros [Ht Hr]. split; [done|]. split; [exact Ht | exact Hr]. Qed.

Lemma ltb_refines_leb : refines (fun u v => num_ltb u v) num_leb.
Proof.
  split; [|split].
  - intros [a|] [b|]; simpl; try done. lia.
  - intros [a|] [b|]; simpl; try done. lia.
  - apply num_leb_trans.
Qed.

Section WeakOperations.
Context {D : Type} (le : num -> num -> bool).
Implicit Types h : DHeap D.

Lemma insert_weak h k x h' :
  1 <= d h -> refines (_comp h) le ->
  insert h k x = Ok h' -> weakly_ordered le h -> weakly_ordered le h'.
Proof.
  intros Hd (Hs & Hf & Hr) Hins Hinv. unfold weakly_ordered in *.
  rewrite insert_unfold in Hins. inv_bind Hins. simplify_eq. simpl.
  eapply (sift_up_weak (_comp h) le (d h) Hd Hs Hf Hr); [|exact Ha|].
  { rewrite length_app. simpl. lia. }
  split.
  - intros c Hc Hne np nc Hp Hl.
    pose proof (parent_of_lt (d h) c Hd Hc) as Hpc.
    pose proof (lookup_lt_Some _ _ _ Hl) as Hclen.
    rewrite length_app in Hclen. simpl in Hclen.
    rewrite lookup_app_l in Hp, Hl by lia.
    eapply Hinv; eauto. lia.
  - intros Hn c Hc Hpar np nc _ Hl.
    pose proof (parent_of_lt (d h) c Hd Hc) as Hpc.
    apply lookup_lt_Some in Hl. rewrite length_app in Hl. simpl in Hl. lia.
Qed.

Lemma extract_weak h root h' :
  1 <= d h -> refines (_comp h) le ->
  extract h = Ok (root, h') -> weakly_ordered le h -> weakly_ordered le h'.
Proof.
  intros Hd (Hs & Hf & Hr) Hex Hinv. unfold weakly_ordered in *.
  destruct (heap h) as [|r rest] eqn:Hh.
  { by rewrite (extract_empty h Hh) in Hex. }
  rewrite (extract_unfold h r rest Hh) in Hex.
  assert (Hlast : S (length rest) = length (heap h)) by (by rewrite Hh).
  destruct (_swap_spec (heap h) 0 (length rest) ltac:(lia) ltac:(lia))
    as (l1 & Hsw & Hlen1 & Hl1).
  rewrite Hsw in Hex. simpl in Hex. inv_bind Hex. simplify_eq. simpl.
  eapply (heapify_loop_weak (_comp h) le (d h) Hd Hs Hf Hr 0);
    [done | exact Ha |].
  split; [|lia].
  intros c Hc _ Hp0 np nc Hp Hl.
  pose proof (parent_of_lt (d h) c Hd Hc) as Hpc.
  pose proof (lookup_lt_Some _ _ _ Hl) as Hclen.
  rewrite length_delete in Hclen by (apply lookup_lt_is_Some; lia).
  rewrite list_lookup_delete_lt in Hp, Hl by lia.
  rewrite Hl1, transp_other in Hp, Hl by lia.
  rewrite <- Hh in Hinv. eapply Hinv; eauto. lia.
Qed.

Lemma root_least h :
  1 <= d h -> refines (_comp h) le -> weakly_ordered le h ->
  forall c n0 nc, heap h !! 0 = Some n0 -> heap h !! c = Some nc ->
                  le (key n0) (key nc) = true.
Proof.
  intros Hd (Hs & Hf & Hr) Hinv c. induction (lt_wf c) as [c _ IH].
  intros n0 nc H0 Hc. destruct (decide (c = 0)) as [->|Hne].
  - simplify_eq. by apply (le_refl_of_comp (_comp h) le).
  - pose proof (parent_of_lt (d h) c Hd ltac:(lia)) as Hp.
    destruct (lookup_lt_is_Some_2 (heap h) (parent_of (d h) c)) as [np Hnp].
    { apply lookup_lt_Some in Hc. lia. }
    eapply Hr; [eapply (IH _ Hp); eauto|].
    apply (Hinv c ltac:(lia) ltac:(lia) np nc); done.
Qed.

Lemma reachable_weak h0 h :
  1 <= d h0 -> refines (_comp h0) le -> weakly_ordered le h0 ->
  reachable h0 h ->
  weakly_ordered le h /\ _comp h = _comp h0 /\ d h = d h0.
Proof.
  intros Hd Hpre Hinv Hreach.
  induction Hreach as [|h k x h' _ IH Hins|h nd h' _ IH Hex]; [done|..].
  - destruct IH as (Hi & Hc & Hdd).
    destruct (insert_Ok h k x ltac:(lia)) as (h'' & E & _ & _ & Hc' & Hd' & _).
    assert (h'' = h') as -> by congruence.
    split; [|by rewrite Hc', Hd'].
    eapply insert_weak; [| |exact Hins|done]; [lia | by rewrite Hc].
  - destruct IH as (Hi & Hc & Hdd).
    assert (Hne : heap h <> []).
    { intros E. by rewrite (extract_empty h E) in Hex. }
    destruct (extract_Ok h ltac:(lia) Hne)
      as (r & h'' & E & _ & _ & _ & Hc' & Hd' & _).
    assert (h'' = h') as -> by congruence.
    split; [|by rewrite Hc', Hd'].
    eapply extract_weak; [| |exact Hex|done]; [lia | by rewrite Hc].
Qed.

(** What [extract] returns is least among what it leaves. *)
Lemma extract_least h root h' :
  1 <= d h -> refines (_comp h) le -> weakly_ordered le h ->
  extract h = Ok (root, h') ->
  Forall (fun nd => le (key root) (key nd) = true) (heap h').
Proof.
  intros Hd Href Hinv Hex.
  assert (Hne : heap h <> []).
  { intros E. by rewrite (extract_empty h E) in Hex. }
  destruct (extract_Ok h Hd Hne) as (r & h'' & E & H0 & Hperm & _).
  assert (r = root /\ h'' = h') as [-> ->] by (split; congruence).
  assert (Hall : Forall (fun nd => le (key root) (key nd) = true) (heap h)).
  { apply Forall_lookup. intros c nc Hl. by eapply root_least. }
  rewrite Hperm in Hall. by apply Forall_cons in Hall as [_ ?].
Qed.

End WeakOperations.

Section WeakSequences.
Context {D : Type} (le : num -> num -> bool).
Implicit Types h : DHeap D.

Lemma insert_all_weak (kvs : list (num * D)) : forall h h',
  1 <= d h -> refines (_comp h) le ->
  insert_all h kvs = Ok h' -> weakly_ordered le h -> weakly_ordered le h'.
Proof.
  induction kvs as [|[k x] kvs IH]; intros h h' Hd Href Hrun Hinv;
    simpl in Hrun.
  - by simplify_eq.
  - inv_bind Hrun.
    destruct (insert_Ok h k x Hd) as (h1 & E & _ & _ & Hc & Hdd & _).
    assert (h1 = a) as -> by congruence.
    eapply (IH a h'); [lia | by rewrite Hc | done |].
    by eapply insert_weak.
Qed.

Lemma extract_n_inv n : forall h out h',
  1 <= d h -> extract_n h n = Ok (out, h') ->
  heap h ≡ₚ out ++ heap h' /\ length out = n.
Proof.
  induction n as [|n IH]; intros h out h' Hd Hrun; simpl in Hrun.
  - by simplify_eq.
  - inv_bind Hrun. destruct a as [root h1]. inv_bind Hrun.
    destruct a as [out1 h2]. simplify_eq.
    assert (Hne : heap h <> []).
    { intros E. by rewrite (extract_empty h E) in Ha. }
    destruct (extract_Ok h Hd Hne) as (r & h1' & E & _ & Hperm & _ & _ & Hdd & _).
    assert (r = root /\ h1' = h1) as [-> ->] by (split; congruence).
    destruct (IH h1 out1 h' ltac:(lia) Ha0) as [Hperm1 Hlen1].
    split; [by rewrite Hperm, Hperm1 | simpl; lia].
Qed.

Lemma extract_n_weak n : forall h out h',
  1 <= d h -> refines (_comp h) le -> weakly_ordered le h ->
  extract_n h n = Ok (out, h') ->
  StronglySorted (fun a b => le a b = true) (map key out).
Proof.
  induction n as [|n IH]; intros h out h' Hd Href Hinv Hrun; simpl in Hrun.
  - simplify_eq. constructor.
  - inv_bind Hrun. destruct a as [root h1]. inv_bind Hrun.
    destruct a as [out1 h2]. simplify_eq.
    assert (Hne : heap h <> []).
    { intros E. by rewrite (extract_empty h E) in Ha. }
    destruct (extract_Ok h Hd Hne) as (r & h1' & E & _ & _ & Hlen & Hc & Hdd & _).
    assert (r = root /\ h1' = h1) as [-> ->] by (split; congruence).
    pose proof (extract_weak le h root h1 Hd Href Ha Hinv) as Hinv1.
    pose proof (extract_least le h root h1 Hd Href Hinv Ha) as Hleast.
    simpl. constructor.
    + eapply (IH h1); [lia | by rewrite Hc | done | done].
    + destruct (extract_n_inv n h1 out1 h' ltac:(lia) Ha0) as [Hperm _].
      rewrite Hperm in Hleast. apply Forall_app in Hleast as [Hleast _].
      apply Forall_map. eapply Forall_impl; [exact Hleast|]. done.
Qed.

End WeakSequences.

Section QueueFacts.
Context {V : Type}.
Implicit Types q : BinaryHeapPriorityQueue V.

Lemma push_all_insert_all (vps : list (V * num)) : forall q,
  push_all q vps =
  let* h := insert_all (items q) (map (fun vp => (vp.2, vp.1)) vps) in
  Ok (mkPQ h).
Proof.
  induction vps as [|[v p] vps IH]; intros q; simpl.
  - by destruct q.
  - unfold push. destruct (insert (items q) p v) as [h| |]; simpl; [|done..].
    by rewrite IH.
Qed.

Lemma pop_n_extract_n n : forall q,
  pop_n q n =
  let* (out, h) := extract_n (items q) n in
  Ok (map data out, mkPQ h).
Proof.
  induction n as [|n IH]; intros q; simpl.
  - by destruct q.
  - unfold pop. destruct (extract (items q)) as [[nd h]| |]; simpl; [|done..].
    rewrite IH. simpl.
    by destruct (extract_n h n) as [[out h']| |].
Qed.

Lemma pq_reachable_heap q0 q :
  pq_reachable q0 q -> reachable (items q0) (items q).
Proof.
  induction 1 as [|q v p q' _ IH Hpush|q v q' _ IH Hpop].
  - constructor.
  - unfold push in Hpush. inv_bind Hpush. simplify_eq.
    by eapply reach_insert.
  - unfold pop in Hpop. inv_bind Hpop. destruct a as [nd h]. simplify_eq.
    by eapply reach_extract.
Qed.

Lemma PriorityQueue_new_default :
  PriorityQueue_new (V := V) "binary_heap" None =
  Ok (mkPQ (mkDHeap (fun u v => num_ltb u v) [] 2 "min")).
Proof. reflexivity. Qed.

End QueueFacts.

(** ** The constructor's outcomes *)

(** X1.  [DHeap(elements, heap_property, d)]: a heap property other than
    ['min'] and ['max'] raises [ValueError], whatever the arity; with a
    valid property an arity of 0 raises [ZeroDivisionError] (in [_build]);
    with a valid property and any arity of 1 or more (the unary heap
    included) the constructor returns a heap that holds exactly the given
    nodes and satisfies the heap invariant. *)
Theorem DHeap_new_outcomes {D : Type} (elements : option (list (TreeNode D)))
    (hp : string) (dd : nat) :
  (hp <> "min" -> hp <> "max" ->
   DHeap_new elements hp dd
   = Raise (ValueError (hp ++ " is invalid heap property"))) /\
  (hp = "min" \/ hp = "max" -> dd = 0 ->
   DHeap_new elements hp dd = Raise ZeroDivisionError) /\
  (hp = "min" \/ hp = "max" -> 1 <= dd ->
   exists h, DHeap_new elements hp dd = Ok h /\
             heap h ≡ₚ elements_of elements /\ d h = dd /\
             heap_invariant h).
Proof.
  split; [|split].
  - intros Hmin Hmax. unfold DHeap_new.
    destruct (String.eqb_spec hp "min"); [done|].
    destruct (String.eqb_spec hp "max"); [done|]. done.
  - intros [-> | ->] ->; reflexivity.
  - intros Hhp Hd.
    destruct (DHeap_new_Ok elements hp dd Hd Hhp) as (h & E & Hperm & Hdd & _).
    exists h. repeat split; try done.
    by eapply DHeap_new_invariant.
Qed.

(** ** What [extract] and [pop] return *)

(** X2.  On every heap reached by [insert] and [extract] from a heap the
    constructor returned, [extract] returns the root node, and its key is
    the least of all stored keys for ['min'] (the greatest for ['max']):
    no node left in the heap has a smaller (greater) key. *)
Theorem extract_returns_extreme {D : Type}
    (elements : option (list (TreeNode D))) (hp : string) (dd : nat)
    (h0 h h' : DHeap D) (root : TreeNode D) :
  DHeap_new elements hp dd = Ok h0 -> reachable h0 h ->
  extract h = Ok (root, h') ->
  heap h !! 0 = Some root /\
  heap h ≡ₚ root :: heap h' /\
  Forall (fun nd => (hp = "min" -> num_le (key root) (key nd)) /\
                    (hp = "max" -> num_ge (key root) (key nd))) (heap h').
Proof.
  intros Hnew Hreach Hex.
  destruct (DHeap_new_inv _ _ _ _ Hnew) as [Hd Hhp].
  destruct (DHeap_new_Ok elements hp dd Hd Hhp)
    as (h0' & E & _ & Hdd & _ & Hpre & Hmin & Hmax).
  assert (h0' = h0) as -> by congruence.
  pose proof (DHeap_new_invariant elements hp dd h0 Hd Hnew) as Hinv0.
  destruct (reachable_invariant h0 h ltac:(lia) Hpre Hinv0 Hreach)
    as (Hinv & Hc & Hdh & _).
  assert (Hne : heap h <> []).
  { intros E0. by rewrite (extract_empty h E0) in Hex. }
  destruct (extract_Ok h ltac:(lia) Hne) as (r & h1 & E1 & H0 & Hperm & _).
  assert (r = root /\ h1 = h') as [-> ->] by (split; congruence).
  split; [done|]. split; [done|].
  assert (Href : refines (_comp h) (_comp h))
    by (apply refines_self; by rewrite Hc).
  pose proof (extract_least (_comp h) h root h' ltac:(lia) Href
                (proj1 (heap_invariant_ordered h) Hinv) Hex) as Hleast.
  eapply Forall_impl; [exact Hleast|]. simpl. intros nd Hnd.
  rewrite Hc in Hnd. split; intros Ep.
  - unfold num_le. by rewrite (Hmin Ep) in Hnd.
  - unfold num_ge. by rewrite (Hmax Ep) in Hnd.
Qed.

Lemma extract_returns_extreme_witness :
  [mkTreeNode (Fin 2) "b"; mkTreeNode (Fin 7) "a"; mkTreeNode (Fin 9) "c"] !! 0
    = Some (mkTreeNode (Fin 2) "b") /\
  [mkTreeNode (Fin 2) "b"; mkTreeNode (Fin 7) "a"; mkTreeNode (Fin 9) "c"]
    ≡ₚ mkTreeNode (Fin 2) "b"
       :: [mkTreeNode (Fin 7) "a"; mkTreeNode (Fin 9) "c"] /\
  Forall (fun nd => ("min" = "min" -> num_le (Fin 2) (key nd)) /\
                    ("min" = "max" -> num_ge (Fin 2) (key nd)))
    [mkTreeNode (Fin 7) "a"; mkTreeNode (Fin 9) "c"].
Proof.
  apply (extract_returns_extreme
           (Some [mkTreeNode (Fin 7) "a"; mkTreeNode (Fin 2) "b";
                  mkTreeNode (Fin 9) "c"]) "min" 2
           (mkDHeap (fun kp kc => num_leb kp kc)
              [mkTreeNode (Fin 2) "b"; mkTreeNode (Fin 7) "a";
               mkTreeNode (Fin 9) "c"] 2 "min")
           (mkDHeap (fun kp kc => num_leb kp kc)
              [mkTreeNode (Fin 2) "b"; mkTreeNode (Fin 7) "a";
               mkTreeNode (Fin 9) "c"] 2 "min")
           (mkDHeap (fun kp kc => num_leb kp kc)
              [mkTreeNode (Fin 7) "a"; mkTreeNode (Fin 9) "c"] 2 "min")
           (mkTreeNode (Fin 2) "b")).
  - reflexivity.
  - apply reach_start.
  - reflexivity.
Defined.

(** X3.  On every queue reached by [push] and [pop] from a new queue with
    the default comparator [u < v], stale duplicates included: when [pop]
    returns, [peek] returns the root node without raising, the value
    popped is that node's, and its priority is less than or equal to every
    priority left in the queue. *)
Theorem pop_returns_least_priority {V : Type}
    (q0 q q' : BinaryHeapPriorityQueue V) (v : V) :
  PriorityQueue_new "binary_heap" None = Ok q0 ->
  pq_reachable q0 q -> pop q = Ok (v, q') ->
  exists nd,
    peek q = Ok nd /\ data nd = v /\
    heap (items q) ≡ₚ nd :: heap (items q') /\
    Forall (fun x => num_le (key nd) (key x)) (heap (items q')).
Proof.
  intros Hnew Hreach Hpop.
  rewrite PriorityQueue_new_default in Hnew. simplify_eq.
  apply pq_reachable_heap in Hreach. simpl in Hreach.
  set (h0 := mkDHeap (fun u v : num => num_ltb u v) ([] : list (TreeNode V))
               2 "min") in *.
  assert (Hw0 : weakly_ordered num_leb h0).
  { intros c Hc _ np nc Hp. by destruct (parent_of 2 c). }
  destruct (reachable_weak num_leb h0 (items q) ltac:(simpl; lia)
              ltac:(apply ltb_refines_leb) Hw0 Hreach) as (Hw & Hc & Hd).
  simpl in Hc, Hd.
  unfold pop in Hpop. inv_bind Hpop. destruct a as [nd h]. simplify_eq.
  assert (Hne : heap (items q) <> []).
  { intros E0. by rewrite (extract_empty _ E0) in Ha. }
  destruct (extract_Ok (items q) ltac:(lia) Hne)
    as (r & h1 & E1 & H0 & Hperm & _).
  assert (r = nd /\ h1 = h) as [-> ->] by (split; congruence).
  exists nd. split.
  { unfold peek, is_empty, array_last_pos_filled.
    destruct (heap (items q)) as [|x rest] eqn:Eh; [done|].
    destruct (Z.eqb_spec (Z.of_nat (length (x :: rest)) - 1) (-1));
      [simpl in *; lia|].
    by apply array_getitem_lookup. }
  split; [done|]. split; [done|].
  eapply (extract_least num_leb (items q)); [lia | | done | exact Ha].
  rewrite Hc. apply ltb_refines_leb.
Qed.

Lemma pop_returns_least_priority_witness :
  exists nd,
    peek (mkPQ (mkDHeap (fun u v => num_ltb u v)
                  [mkTreeNode (Fin 3) "x"; mkTreeNode (Fin 3) "y"] 2 "min"))
      = Ok nd /\
    data nd = "x" /\
    [mkTreeNode (Fin 3) "x"; mkTreeNode (Fin 3) "y"]
      ≡ₚ nd :: [mkTreeNode (Fin 3) "y"] /\
    Forall (fun x => num_le (key nd) (key x)) [mkTreeNode (Fin 3) "y"].
Proof.
  apply (pop_returns_least_priority
           (mkPQ (mkDHeap (fun u v => num_ltb u v) [] 2 "min"))
           (mkPQ (mkDHeap (fun u v => num_ltb u v)
                    [mkTreeNode (Fin 3) "x"; mkTreeNode (Fin 3) "y"] 2 "min"))
           (mkPQ (mkDHeap (fun u v => num_ltb u v)
                    [mkTreeNode (Fin 3) "y"] 2 "min"))
           "x").
  - reflexivity.
  - eapply pq_reach_push
      with (q := mkPQ (mkDHeap (fun u v => num_ltb u v)
                         [mkTreeNode (Fin 3) "y"] 2 "min"))
           (v := "x") (p := Fin 3);
      [|reflexivity].
    eapply pq_reach_push with (v := "y") (p := Fin 3);
      [apply pq_reach_start | reflexivity].
  - reflexivity.
Defined.

(** X4.  Pushing any list of [(value, priority)] pairs into a new queue
    with the default comparator and popping as many times returns, without
    raising, the pushed values in an order of non-decreasing priority, and
    leaves the queue empty. *)
Theorem pops_come_in_priority_order {V : Type}
    (q0 : BinaryHeapPriorityQueue V) (vps : list (V * num)) :
  PriorityQueue_new "binary_heap" None = Ok q0 ->
  exists q1 nodes q2,
    push_all q0 vps = Ok q1 /\
    pop_n q1 (length vps) = Ok (map data nodes, q2) /\
    nodes ≡ₚ map (fun vp => mkTreeNode vp.2 vp.1) vps /\
    Sorted num_le (map key nodes) /\
    pq_is_empty q2 = true.
Proof.
  intros Hnew. rewrite PriorityQueue_new_default in Hnew. simplify_eq.
  set (h0 := mkDHeap (fun u v : num => num_ltb u v) ([] : list (TreeNode V))
               2 "min").
  assert (Hw0 : weakly_ordered num_leb h0).
  { intros c Hc _ np nc Hp. by destruct (parent_of 2 c). }
  destruct (insert_all_Ok (map (fun vp : V * num => (vp.2, vp.1)) vps) h0
              ltac:(simpl; lia))
    as (h1 & E1 & Hperm1 & Hlen1 & Hc1 & Hd1 & _).
  pose proof (insert_all_weak num_leb _ h0 h1 ltac:(simpl; lia)
                ltac:(apply ltb_refines_leb) E1 Hw0) as Hw1.
  rewrite length_map in Hlen1. simpl in Hlen1, Hc1, Hd1.
  destruct (extract_n_Ok (length vps) h1 ltac:(lia) ltac:(lia))
    as (out & h2 & E2 & Hperm2 & Hlen2 & _).
  pose proof (extract_n_weak num_leb (length vps) h1 out h2 ltac:(lia)
                ltac:(rewrite Hc1; apply ltb_refines_leb) Hw1 E2) as Hss.
  exists (mkPQ h1), out, (mkPQ h2).
  split; [by rewrite push_all_insert_all; simpl; rewrite E1|].
  split; [by rewrite pop_n_extract_n; simpl; rewrite E2|].
  assert (Hh2 : heap h2 = []).
  { apply Permutation_length in Hperm2. rewrite length_app in Hperm2.
    destruct (heap h2); [done | simpl in Hperm2; lia]. }
  split.
  { rewrite Hh2, app_nil_r in Hperm2. simpl in Hperm1.
    rewrite app_nil_r in Hperm1. rewrite <- Hperm2, Hperm1.
    rewrite map_map. done. }
  split; [by apply StronglySorted_Sorted in Hss|].
  unfold pq_is_empty, is_empty. simpl. by rewrite Hh2.
Qed.

Lemma pops_come_in_priority_order_witness :
  exists q1 nodes q2,
    push_all (mkPQ (mkDHeap (fun u v => num_ltb u v) [] 2 "min"))
      [("V2", Inf); ("V3", Fin 21); ("V2", Fin 11); ("V1", Fin 0)] = Ok q1 /\
    pop_n q1 4 = Ok (map data nodes, q2) /\
    nodes ≡ₚ map (fun vp => mkTreeNode vp.2 vp.1)
               [("V2", Inf); ("V3", Fin 21); ("V2", Fin 11); ("V1", Fin 0)] /\
    Sorted num_le (map key nodes) /\
    pq_is_empty q2 = true.
Proof.
  apply (pops_come_in_priority_order
           (mkPQ (mkDHeap (fun u v => num_ltb u v) [] 2 "min"))
           [("V2", Inf); ("V3", Fin 21); ("V2", Fin 11); ("V1", Fin 0)]).
  reflexivity.
Defined.

(** ** What Dijkstra's result means *)

Lemma dict_item_Ok {V : Type} k (m : dict V) v :
  dict_item k m = Ok v -> dict_get k m = Some v.
Proof. unfold dict_item. destruct (dict_get k m); intros; by simplify_eq. Qed.

Lemma dijkstra_relax_cases_full graph u v st st' :
  dijkstra_relax graph u v st = Ok st' ->
  st' = st \/
  exists e x dv q,
    dict_get (u ++ "_" ++ v) (edge_weights graph) = Some e /\
    (0 < value e)%Z /\
    dict_get v (visited st) = Some false /\
    dict_get v (dist st) = Some dv /\
    dict_get u (dist st) = Some (Fin x) /\
    num_ltb (Fin (x + value e)) dv = true /\
    st' = mkDijkstra (visited st)
            (dict_set v (Fin (x + value e)) (dist st))
            (dict_set v (Some u) (pred st)) q
            (relaxed st ++ [mkRelaxation u v (value e) (Fin (x + value e))]).
Proof.
  unfold dijkstra_relax. intros H.
  destruct (dict_get (u ++ "_" ++ v) (edge_weights graph)) as [e|] eqn:He;
    [|left; congruence].
  destruct (Z.gtb_spec (value e) 0) as [Hpos|_]; [|left; congruence].
  inv_bind H. apply dict_item_Ok in Ha.
  destruct a; simpl in H; [left; congruence|].
  inv_bind H. inv_bind H. apply dict_item_Ok in Ha0, Ha1.
  destruct (num_ltb (num_add a0 (value e)) a) eqn:Hlt; [|left; congruence].
  inv_bind H. right.
  destruct a0 as [x|]; [|by destruct a].
  exists e, x, a, a1. simpl in *. simplify_eq.
  repeat split; try done; lia.
Qed.

Lemma dijkstra_relax_sound graph start u v st st' :
  dijkstra_relax graph u v st = Ok st' ->
  dict_get u (visited st) = Some true ->
  dijkstra_sound graph start st ->
  dijkstra_sound graph start st' /\ visited st' = visited st.
Proof.
  intros Hrel Hu (N1 & N2 & P & Q).
  destruct (dijkstra_relax_cases_full _ _ _ _ _ Hrel)
    as [->|(e & x & dv & q & He & Hpos & Hv & Hdv & Hdu & Hlt & ->)]; [done|].
  split; [|done]. simpl.
  pose proof (N2 u _ Hdu) as Hx. simpl in Hx. apply Z.leb_le in Hx.
  assert (Hvs : v <> start).
  { intros ->. rewrite N1 in Hdv. simplify_eq. simpl in Hlt.
    apply Z.ltb_lt in Hlt. lia. }
  assert (Huv : u <> v) by (intros ->; congruence).
  split; [|split; [|split]]; simpl.
  - by rewrite dict_get_set_ne.
  - intros k dk. destruct (decide (k = v)) as [->|Hk].
    + rewrite dict_get_set_eq. intros ?; simplify_eq. simpl.
      apply Z.leb_le. lia.
    + rewrite dict_get_set_ne by done. apply N2.
  - intros v1 u1. destruct (decide (v1 = v)) as [->|Hv1].
    + rewrite dict_get_set_eq. intros ?; simplify_eq.
      split; [done|]. split; [done|]. exists e, x.
      rewrite dict_get_set_eq, dict_get_set_ne by done. done.
    + rewrite dict_get_set_ne by done. intros Hp.
      destruct (P v1 u1 Hp) as (Hs & Hvis & e1 & x1 & He1 & Hp1 & Hd1 & Hd2).
      split; [done|]. split; [done|]. exists e1, x1.
      rewrite !dict_get_set_ne; [done | done |].
      intros ->. congruence.
  - intros v1 x1. destruct (decide (v1 = v)) as [->|Hv1].
    + intros _. right. exists u. by rewrite dict_get_set_eq.
    + rewrite !dict_get_set_ne by done. apply Q.
Qed.

Lemma dijkstra_inner_sound graph start u vs : forall st st',
  dijkstra_inner graph u vs st = Ok st' ->
  dict_get u (visited st) = Some true ->
  dijkstra_sound graph start st -> dijkstra_sound graph start st'.
Proof.
  induction vs as [|v vs IH]; intros st st' Hrun Hu Hs; simpl in Hrun.
  - by simplify_eq.
  - inv_bind Hrun.
    destruct (dijkstra_relax_sound _ start _ _ _ _ Ha Hu Hs) as [Hs1 Hvis].
    eapply IH; [exact Hrun | by rewrite Hvis | done].
Qed.

Lemma dijkstra_outer_sound graph start n : forall st st',
  dijkstra_outer graph n st = Ok st' ->
  dijkstra_sound graph start st -> dijkstra_sound graph start st'.
Proof.
  induction n as [|n IH]; intros st st' Hrun Hs; simpl in Hrun.
  - by simplify_eq.
  - inv_bind Hrun. destruct a as [u q]. inv_bind Hrun.
    eapply IH; [exact Hrun|].
    eapply dijkstra_inner_sound; [exact Ha0 | apply dict_get_set_eq |].
    destruct Hs as (N1 & N2 & P & Q).
    split; [done|]. split; [done|]. split; [|done]. simpl.
    intros v1 u1 Hp.
    destruct (P v1 u1 Hp) as (Hs1 & Hvis & Hrest).
    split; [done|]. split; [|done].
    destruct (decide (u1 = u)) as [->|Hne];
      [apply dict_get_set_eq | by rewrite dict_get_set_ne].
Qed.

Lemma dijkstra_init_values start vs : forall vis dst prd,
  (forall k x, dict_get k dst = Some x -> x = Inf) ->
  (forall k y, dict_get k prd = Some y -> y = None) ->
  let r := dijkstra_init start vs vis dst prd in
  (forall k x, dict_get k r.1.2 = Some x -> x = Inf) /\
  (forall k y, dict_get k r.2 = Some y -> y = None).
Proof.
  induction vs as [|v vs IH]; intros vis dst prd Hd Hp; simpl; [done|].
  apply IH.
  - intros k x. destruct (negb (String.eqb v start)); [|apply Hd].
    destruct (decide (k = v)) as [->|Hk].
    + rewrite dict_get_set_eq. congruence.
    + rewrite dict_get_set_ne by done. apply Hd.
  - intros k y. destruct (decide (k = v)) as [->|Hk].
    + rewrite dict_get_set_eq. congruence.
    + rewrite dict_get_set_ne by done. apply Hp.
Qed.

Lemma dijkstra_run_sound graph start st :
  dijkstra_run graph start = Ok st -> dijkstra_sound graph start st.
Proof.
  intros Hrun. rewrite dijkstra_run_unfold in Hrun.
  inv_bind Hrun. inv_bind Hrun.
  eapply dijkstra_outer_sound; [exact Hrun|].
  destruct (dijkstra_init_values start (vertices graph) [] [] [])
    as [Hd Hp]; [done | done |].
  split; [|split; [|split]]; simpl.
  - unfold dijkstra_dist0. apply dict_get_set_eq.
  - intros k dk. unfold dijkstra_dist0.
    destruct (decide (k = start)) as [->|Hk].
    + rewrite dict_get_set_eq. by intros ?; simplify_eq.
    + rewrite dict_get_set_ne by done. intros Hk'. by rewrite (Hd _ _ Hk').
  - intros v u Hv. unfold dijkstra_pred0 in Hv. by apply Hp in Hv.
  - intros v x. unfold dijkstra_dist0.
    destruct (decide (v = start)) as [->|Hk]; [by left|].
    rewrite dict_get_set_ne by done. intros Hv. by apply Hd in Hv.
Qed.


Lemma dijkstra_init_pred_keys start vs : forall vis dst prd k,
  is_Some (dict_get k (dijkstra_init start vs vis dst prd).2) <->
  k ∈ vs \/ is_Some (dict_get k prd).
Proof.
  induction vs as [|v vs IH]; intros vis dst prd k; simpl.
  - rewrite elem_of_nil. naive_solver.
  - rewrite IH, elem_of_cons, dict_get_set_is_Some. naive_solver.
Qed.

Lemma dijkstra_inner_pred_keys graph u vs : forall st st',
  (forall v, v ∈ vs -> v ∈ vertices graph) ->
  dijkstra_inner graph u vs st = Ok st' ->
  pred_on_vertices graph st -> pred_on_vertices graph st'.
Proof.
  induction vs as [|v vs IH]; intros st st' Hvs Hrun Hk; simpl in Hrun.
  - by simplify_eq.
  - inv_bind Hrun.
    eapply IH; [intros; apply Hvs; by right | exact Hrun |].
    destruct (dijkstra_relax_cases _ _ _ _ _ Ha)
      as [->|(e & du & q & _ & _ & _ & _ & ->)]; [done|].
    intros k. simpl. rewrite dict_get_set_is_Some, (Hk k).
    split; [|by right]. intros [->|?]; [|done]. apply Hvs. by left.
Qed.

Lemma dijkstra_outer_pred_keys graph n : forall st st',
  dijkstra_outer graph n st = Ok st' ->
  pred_on_vertices graph st -> pred_on_vertices graph st'.
Proof.
  induction n as [|n IH]; intros st st' Hrun Hk; simpl in Hrun.
  - by simplify_eq.
  - inv_bind Hrun. destruct a as [u q]. inv_bind Hrun.
    eapply IH; [exact Hrun|].
    eapply dijkstra_inner_pred_keys; [|exact Ha0|]; done.
Qed.

Lemma dijkstra_run_pred_keys graph start st :
  dijkstra_run graph start = Ok st -> pred_on_vertices graph st.
Proof.
  intros Hrun. rewrite dijkstra_run_unfold in Hrun.
  inv_bind Hrun. inv_bind Hrun.
  eapply dijkstra_outer_pred_keys; [exact Hrun|].
  intros k. simpl. unfold dijkstra_pred0.
  rewrite dijkstra_init_pred_keys. simpl.
  split; [intros [?|[? ?]]; done | by left].
Qed.

Lemma dijkstra_all_paths_inv graph start distances predecessors :
  _dijkstra_adjacency_list graph start "" = Ok (AllPaths distances predecessors) ->
  exists st, dijkstra_run graph start = Ok st /\
             distances = dist st /\ predecessors = pred st.
Proof.
  unfold _dijkstra_adjacency_list. intros H. inv_bind H.
  simpl in H. exists a. by simplify_eq.
Qed.

(** X5.  On a graph with unique vertex identifiers and a source that is one
    of its vertices, Dijkstra never raises: with no target it returns
    distances and predecessors that have an entry for exactly the vertices
    of the graph, and with a target that is a vertex it returns that
    vertex's entry of the same distances. *)
Theorem dijkstra_returns_on_vertices (graph : Graph) (start : string) :
  NoDup (vertices graph) -> start ∈ vertices graph ->
  exists distances predecessors,
    _dijkstra_adjacency_list graph start ""
      = Ok (AllPaths distances predecessors) /\
    (forall k, is_Some (dict_get k distances) <-> k ∈ vertices graph) /\
    (forall k, is_Some (dict_get k predecessors) <-> k ∈ vertices graph) /\
    (forall target, target <> "" -> target ∈ vertices graph ->
       exists dt, dict_get target distances = Some dt /\
                  _dijkstra_adjacency_list graph start target
                    = Ok (ToTarget dt predecessors)).
Proof.
  intros Hnd Hstart.
  destruct (dijkstra_run_wf graph start Hnd Hstart) as (st & Hrun & _ & Hd & _).
  pose proof (dijkstra_run_pred_keys graph start st Hrun) as Hp.
  exists (dist st), (pred st). unfold _dijkstra_adjacency_list. rewrite Hrun.
  simpl. split; [done|]. split; [done|]. split; [done|].
  intros target Hne Hin. destruct (proj2 (Hd target) Hin) as [dt Hdt].
  exists dt. split; [done|].
  destruct (String.eqb_spec target ""); [done|]. simpl.
  by rewrite (dict_item_Some _ _ _ Hdt).
Qed.

Lemma dijkstra_returns_on_vertices_witness :
  exists distances predecessors,
    _dijkstra_adjacency_list G_dijkstra_graph "V2" ""
      = Ok (AllPaths distances predecessors) /\
    (forall k, is_Some (dict_get k distances)
               <-> k ∈ vertices G_dijkstra_graph) /\
    (forall k, is_Some (dict_get k predecessors)
               <-> k ∈ vertices G_dijkstra_graph) /\
    (forall target, target <> "" -> target ∈ vertices G_dijkstra_graph ->
       exists dt, dict_get target distances = Some dt /\
                  _dijkstra_adjacency_list G_dijkstra_graph "V2" target
                    = Ok (ToTarget dt predecessors)).
Proof.
  apply (dijkstra_returns_on_vertices G_dijkstra_graph "V2").
  - apply (bool_decide_unpack (NoDup (vertices G_dijkstra_graph))).
    vm_compute. exact I.
  - apply (bool_decide_unpack ("V2" ∈ vertices G_dijkstra_graph)).
    vm_compute. exact I.
Defined.

(** X6.  In every result of Dijkstra the distance of the source is 0, no
    distance is negative, and the predecessor of a source that is a vertex
    is [None]. *)
Theorem dijkstra_source_distance_zero (graph : Graph) (start : string)
    (distances : dict num) (predecessors : dict (option string)) :
  _dijkstra_adjacency_list graph start "" = Ok (AllPaths distances predecessors) ->
  dict_get start distances = Some (Fin 0) /\
  (forall k dk, dict_get k distances = Some dk -> num_le (Fin 0) dk) /\
  (start ∈ vertices graph -> dict_get start predecessors = Some None).
Proof.
  intros H. destruct (dijkstra_all_paths_inv _ _ _ _ H) as (st & Hrun & -> & ->).
  destruct (dijkstra_run_sound graph start st Hrun) as (N1 & N2 & P & _).
  split; [done|]. split; [exact N2|].
  intros Hin.
  destruct (proj2 (dijkstra_run_pred_keys graph start st Hrun start) Hin)
    as [[u|] Hp]; [|done].
  by destruct (P start u Hp) as [? _].
Qed.

Lemma dijkstra_source_distance_zero_witness :
  dict_get "V1" (dist G_dijkstra_final) = Some (Fin 0) /\
  (forall k dk, dict_get k (dist G_dijkstra_final) = Some dk ->
                num_le (Fin 0) dk) /\
  ("V1" ∈ vertices G_dijkstra_graph ->
   dict_get "V1" (pred G_dijkstra_final) = Some None).
Proof.
  apply (dijkstra_source_distance_zero G_dijkstra_graph "V1"
           (dist G_dijkstra_final) (pred G_dijkstra_final)).
  vm_compute. reflexivity.
Defined.





(** ** The two dispatchers *)

Lemma string_length_append (s t : string) :
  String.length (s ++ t) = String.length s + String.length t.
Proof. induction s as [|c s IH]; simpl; [done | by rewrite IH]. Qed.

Lemma string_append_inj (t t' : string) : forall s s' : string,
  String.length t = String.length t' ->
  (s ++ t = s' ++ t')%string -> s = s' /\ t = t'.
Proof.
  intros s s' Hlen.
  revert s'; induction s as [|c s IH]; intros [|c' s'] H.
  - done.
  - apply (f_equal String.length) in H.
    rewrite !string_length_append in H. cbn [String.length] in H. lia.
  - apply (f_equal String.length) in H.
    rewrite !string_length_append in H. cbn [String.length] in H. lia.
  - change (String c (s ++ t) = String c' (s' ++ t')) in H.
    injection H as -> H. destruct (IH _ H) as [-> ->]. done.
Qed.

Lemma string_append_cancel_r (t : string) (s s' : string) :
  (s ++ t = s' ++ t)%string -> s = s'.
Proof. intros H. by destruct (string_append_inj t t s s' eq_refl H). Qed.

Lemma mst_function_found (algorithm : string) :
  algorithms_hasattr
    ("_minimum_spanning_tree_" ++ algorithm ++ "_" ++ "adjacency_list") = true ->
  algorithm = "prim".
Proof.
  unfold algorithms_hasattr, algorithms_functions. simpl.
  rewrite !orb_false_r. intros H.
  apply String.eqb_eq in H.
  by apply (string_append_cancel_r "_adjacency_list" algorithm "prim").
Qed.

(** X9.  For a graph of the adjacency-list implementation,
    [minimum_spanning_tree] raises [NotImplementedError] for every
    algorithm name other than ['prim'] -- the documented ['kruskal']
    included -- before looking at the graph. *)
Theorem minimum_spanning_tree_only_prim (fuel : nat) (graph : Graph)
    (algorithm : string) :
  _impl graph = "adjacency_list" -> algorithm <> "prim" ->
  minimum_spanning_tree fuel graph algorithm =
  Raise (NotImplementedError
    ("Currently " ++ algorithm ++ " algoithm for adjacency_list" ++
     " implementation of graphs isn't implemented for finding minimum spanning trees.")).
Proof.
  intros Himpl Hne. unfold minimum_spanning_tree. rewrite Himpl.
  destruct (algorithms_hasattr _) eqn:E; [|reflexivity].
  by apply mst_function_found in E.
Qed.

Lemma minimum_spanning_tree_only_prim_witness :
  minimum_spanning_tree 10 G_dijkstra_graph "kruskal" =
  Raise (NotImplementedError
    ("Currently " ++ "kruskal" ++ " algoithm for adjacency_list" ++
     " implementation of graphs isn't implemented for finding minimum spanning trees.")).
Proof.
  apply (minimum_spanning_tree_only_prim 10 G_dijkstra_graph "kruskal").
  - reflexivity.
  - discriminate.
Defined.

Lemma shortest_path_function_found (algorithm : string) :
  algorithms_hasattr ("_" ++ algorithm ++ "_" ++ "adjacency_list") = true ->
  algorithm = "dijkstra" \/ algorithm = "minimum_spanning_tree_prim".
Proof.
  unfold algorithms_hasattr, algorithms_functions.
  cbn [existsb]. rewrite !orb_true_iff, !String.eqb_eq.
  change ("_" ++ algorithm ++ "_" ++ "adjacency_list")
    with (String "_" (algorithm ++ "_adjacency_list")).
  intros [H|[H|[H|[H|[H|H]]]]]; try done.
  - injection H as H.
    destruct (string_append_inj "_adjacency_list" "rate_mst_object"
                algorithm "gene" eq_refl H) as [_ ?]. discriminate.
  - injection H as H. apply (f_equal String.length) in H.
    rewrite string_length_append in H. simpl in H. lia.
  - injection H as H. right.
    by apply (string_append_cancel_r "_adjacency_list").
  - injection H as H. left.
    by apply (string_append_cancel_r "_adjacency_list").
  - injection H as H.
    destruct (string_append_inj "_adjacency_list" "djacency_matrix"
                algorithm "dijkstra_a" eq_refl H) as [_ ?]. discriminate.
Qed.

(** X10.  For a graph of the adjacency-list implementation,
    [shortest_paths] returns a result for no algorithm name other than
    ['dijkstra']: for every other name -- the documented ['bellman_ford']
    included -- it raises [NotImplementedError], or [TypeError] when the
    name happens to build the name of another function of the module. *)
Theorem shortest_paths_only_dijkstra (graph : Graph)
    (algorithm src tgt : string) :
  _impl graph = "adjacency_list" -> algorithm <> "dijkstra" ->
  shortest_paths graph algorithm src tgt =
    Raise (NotImplementedError
      ("Currently " ++ algorithm ++
       " algorithm isn't implemented for finding shortest paths in graphs."))
  \/ (algorithm = "minimum_spanning_tree_prim" /\
      shortest_paths graph algorithm src tgt = Raise TypeError).
Proof.
  intros Himpl Hne. unfold shortest_paths. rewrite Himpl.
  destruct (algorithms_hasattr _) eqn:E; [|by left].
  apply shortest_path_function_found in E as [->| ->]; [done|].
  right. split; reflexivity.
Qed.

Lemma shortest_paths_only_dijkstra_witness :
  shortest_paths G_dijkstra_graph "bellman_ford" "V1" "" =
    Raise (NotImplementedError
      ("Currently " ++ "bellman_ford" ++
       " algorithm isn't implemented for finding shortest paths in graphs."))
  \/ ("bellman_ford" = "minimum_spanning_tree_prim" /\
      shortest_paths G_dijkstra_graph "bellman_ford" "V1" "" = Raise TypeError).
Proof.
  apply (shortest_paths_only_dijkstra G_dijkstra_graph "bellman_ford" "V1" "").
  - reflexivity.
  - discriminate.
Defined.

(** ** Heap sort by the constructor *)

(** X11.  The constructor followed by as many [extract]s as there are nodes
    sorts them: for every list of nodes and every arity of 1 or more, all
    the calls return, the extracted nodes are the given ones in ascending
    order of key for ['min'] (descending for ['max']), and the heap is left
    empty. *)
Theorem build_then_drain_sorts {D : Type} (elements : list (TreeNode D))
    (hp : string) (dd : nat) :
  1 <= dd -> hp = "min" \/ hp = "max" ->
  exists h out h',
    DHeap_new (Some elements) hp dd = Ok h /\
    extract_n h (length elements) = Ok (out, h') /\
    out ≡ₚ elements /\ is_empty h' = true /\
    (hp = "min" -> Sorted num_le (map key out)) /\
    (hp = "max" -> Sorted num_ge (map key out)).
Proof.
  intros Hd Hhp.
  destruct (DHeap_new_Ok (Some elements) hp dd Hd Hhp)
    as (h & E & Hperm & Hdd & _ & Hpre & Hmin & Hmax).
  pose proof (DHeap_new_invariant _ hp dd h Hd E) as Hinv.
  simpl in Hperm. pose proof (Permutation_length Hperm) as Hlen.
  destruct (extract_n_Ok (length elements) h ltac:(lia) ltac:(lia))
    as (out & h' & E2 & Hperm2 & Hlen2 & _ & _ & Hsorted).
  destruct (Hsorted Hpre Hinv) as [_ Hss].
  exists h, out, h'. split; [done|]. split; [done|].
  assert (Hh' : heap h' = []).
  { apply Permutation_length in Hperm2. rewrite length_app in Hperm2.
    destruct (heap h'); [done | simpl in Hperm2; lia]. }
  rewrite Hh', app_nil_r in Hperm2.
  split; [by rewrite <- Hperm2|].
  split; [unfold is_empty; by rewrite Hh'|].
  apply StronglySorted_Sorted in Hss.
  split; intros Ep.
  - by rewrite (Hmin Ep) in Hss.
  - by rewrite (Hmax Ep) in Hss.
Qed.

Lemma build_then_drain_sorts_witness :
  exists h out h',
    DHeap_new (Some [mkTreeNode (Fin 7) "a"; mkTreeNode (Fin 2) "b";
                     mkTreeNode Inf "c"; mkTreeNode (Fin 2) "d"]) "max" 1
      = Ok h /\
    extract_n h 4 = Ok (out, h') /\
    out ≡ₚ [mkTreeNode (Fin 7) "a"; mkTreeNode (Fin 2) "b";
            mkTreeNode Inf "c"; mkTreeNode (Fin 2) "d"] /\
    is_empty h' = true /\
    ("max" = "min" -> Sorted num_le (map key out)) /\
    ("max" = "max" -> Sorted num_ge (map key out)).
Proof.
  apply (build_then_drain_sorts
           [mkTreeNode (Fin 7) "a"; mkTreeNode (Fin 2) "b";
            mkTreeNode Inf "c"; mkTreeNode (Fin 2) "d"] "max" 1).
  - lia.
  - right. reflexivity.
Defined.

(** ** The stream of [min_max_stream.py] *)

Section StreamFacts.
Context {D : Type}.
Implicit Types h : DHeap (option D).

Lemma tracks_step (k : Z) seen h x :
  (1 <= k)%Z -> tracks k seen h ->
  exists h1, insert h (Fin x) None = Ok h1 /\
  exists h2,
    (if (array_num (heap h1) >? k)%Z then
       let* (nd, h') := extract h1 in Ok h'
     else Ok h1) = Ok h2 /\
    tracks k (seen ++ [x]) h2 /\ _comp h2 = _comp h.
Proof.
  intros Hk (Hd & Hpre & Hinv & Hlen & dropped & Hperm & Hdrop).
  destruct (insert_Ok h (Fin x) None Hd)
    as (h1 & Hins & Hp1 & Hl1 & Hc1 & Hd1 & _).
  exists h1; split; [done|].
  assert (Hinv1 : heap_invariant h1) by (by eapply insert_invariant).
  assert (Hplen := Permutation_length Hperm).
  rewrite length_fmap, length_app, length_fmap in Hplen.
  unfold array_num. rewrite Z.gtb_ltb.
  destruct (Z.ltb_spec k (Z.of_nat (length (heap h1)))) as [Hgt|Hle].
  - assert (Hne : heap h1 <> []) by (intros E; rewrite E in Hl1; done).
    destruct (extract_Ok h1 ltac:(lia) Hne)
      as (root & h2 & Hext & Hroot & Hp2 & Hl2 & Hc2 & Hd2 & _).
    rewrite Hext. simpl. exists h2. split; [done|].
    assert (Hpre1 : total_preorder (_comp h1)) by (by rewrite Hc1).
    assert (Hdom : forall n, n ∈ heap h2 ->
              _comp h (key root) (key n) = true).
    { intros n Hn. rewrite <- Hc1.
      assert (Hn1 : n ∈ heap h1) by (rewrite Hp2; by right).
      apply list_elem_of_lookup in Hn1 as [c Hc].
      eapply (root_dominates h1); eauto. lia. }
    split; [|congruence].
    split; [lia|]. split; [by rewrite Hc2, Hc1|].
    split; [apply (extract_invariant h1 root h2); [lia|done|done|done] |].
    split; [rewrite length_app; simpl; lia|].
    exists (key root :: dropped). split.
    + rewrite fmap_app. simpl.
      rewrite <- Permutation_cons_append, Hperm.
      assert (Hkeys : Fin x :: (key <$> heap h) ≡ₚ key root :: (key <$> heap h2)).
      { change (Fin x :: (key <$> heap h))
          with (key <$> (mkTreeNode (Fin x) (@None D) :: heap h)).
        by rewrite <- Hp1, Hp2. }
      rewrite app_comm_cons, Hkeys. simpl. apply Permutation_middle.
    + intros b n Hb Hn. rewrite Hc2, Hc1.
      apply elem_of_cons in Hb as [->|Hb]; [by apply Hdom|].
      assert (Hr : root ∈ mkTreeNode (Fin x) None :: heap h).
      { rewrite <- Hp1, Hp2. by left. }
      apply elem_of_cons in Hr as [Hr|Hr].
      * apply Hdrop; [done|].
        rewrite Hr in Hp2. rewrite Hp1 in Hp2.
        apply Permutation_cons_inv in Hp2. by rewrite Hp2.
      * destruct Hpre as [_ Htr]. eapply Htr; [by apply Hdrop|by apply Hdom].
  - exists h1. split; [done|]. split; [|done].
    assert (dropped = []) as ->.
    { apply length_zero_iff_nil. lia. }
    split; [lia|]. split; [by rewrite Hc1|]. split; [done|].
    split; [rewrite length_app; simpl; lia|].
    exists []. split; [|intros b n Hb; by apply elem_of_nil in Hb].
    rewrite app_nil_r in *. rewrite fmap_app. simpl.
    rewrite <- Permutation_cons_append, Hperm, Hp1. done.
Qed.

Lemma tracks_root (k : Z) seen h :
  (1 <= k)%Z -> seen <> [] -> tracks k seen h ->
  exists n0, array_getitem (heap h) 0 = Ok n0 /\
             kth_from_end (fun a b => _comp h a b = true) k seen (key n0).
Proof.
  intros Hk Hne (Hd & Hpre & Hinv & Hlen & dropped & Hperm & Hdrop).
  destruct (heap h) as [|n0 l] eqn:E.
  { destruct seen; [done|]. simpl in Hlen. lia. }
  exists n0. split; [done|].
  assert (Hdom : forall n, n ∈ heap h -> _comp h (key n0) (key n) = true).
  { intros n Hn. apply list_elem_of_lookup in Hn as [c Hc].
    eapply (root_dominates h); eauto. by rewrite E. }
  exists (key <$> heap h), dropped. rewrite E in *.
  split; [done|]. split; [by rewrite length_fmap|].
  split; [simpl; by left|]. split.
  - intros a Ha. apply list_elem_of_fmap in Ha as (n & -> & Hn). by apply Hdom.
  - intros b Hb. apply Hdrop; [done|by left].
Qed.

Lemma modify_heaps_stream_tracks (k : Z) (nums : list Z) :
  (1 <= k)%Z ->
  forall seen (min_heap max_heap : DHeap (option D)),
  tracks k seen min_heap -> tracks k seen max_heap ->
  _comp min_heap = (fun a b => num_leb a b) ->
  _comp max_heap = (fun a b => num_leb b a) ->
  exists outs min_heap' max_heap',
    modify_heaps_stream min_heap max_heap nums k
      = Ok (outs, min_heap', max_heap') /\
    length outs = length nums /\
    forall i large small, outs !! i = Some (large, small) ->
      kth_from_end num_le k (seen ++ take (S i) nums) small /\
      kth_from_end num_ge k (seen ++ take (S i) nums) large.
Proof.
  intros Hk. induction nums as [|x nums IH]; intros seen hmin hmax Tmin Tmax Cmin Cmax.
  { exists [], hmin, hmax. split; [done|]. split; [done|]. intros i ? ? Hi. done. }
  destruct (tracks_step k seen hmin x Hk Tmin)
    as (a1 & Ha1 & a2 & Ha2 & Ta & Ca).
  destruct (tracks_step k seen hmax x Hk Tmax)
    as (b1 & Hb1 & b2 & Hb2 & Tb & Cb).
  assert (Hne : (seen ++ [x])%list <> []) by (by destruct seen).
  destruct (tracks_root k _ a2 Hk Hne Ta) as (na & Hna & Ka).
  destruct (tracks_root k _ b2 Hk Hne Tb) as (nb & Hnb & Kb).
  destruct (IH (seen ++ [x])%list a2 b2 Ta Tb ltac:(congruence) ltac:(congruence))
    as (outs & hmin' & hmax' & Hrun & Hlen & Houts).
  exists ((key nb, key na) :: outs), hmin', hmax'.
  split; [|split].
  - cbn [modify_heaps_stream]. unfold modify_heaps.
    rewrite Ha1. cbn [bind]. rewrite Hb1. cbn [bind].
    rewrite Ha2. cbn [bind]. rewrite Hb2. cbn [bind].
    rewrite Hnb. cbn [bind]. rewrite Hna. cbn [bind].
    rewrite Hrun. done.
  - simpl. by rewrite Hlen.
  - intros [|i] large small Hi.
    + injection Hi as <- <-. rewrite Ca, Cmin in Ka. rewrite Cb, Cmax in Kb.
      simpl. done.
    + simpl in Hi. destruct (Houts i large small Hi) as [H1 H2].
      rewrite <- app_assoc in H1, H2. done.
Qed.

End StreamFacts.

(** X12.  [min_max_stream.py] with [k >= 1]: every call of [modify_heaps]
    returns, and after each number read the pair it returns is the [k]-th
    largest ([small], the root of the min-heap) and the [k]-th smallest
    ([large], the root of the max-heap) of the numbers read so far, or
    their minimum and maximum while fewer than [k] have been read. *)
Theorem min_max_stream_gives_kth (k : Z) (nums : list Z) :
  (1 <= k)%Z ->
  exists outs, min_max_stream k nums = Ok outs /\
    length outs = length nums /\
    forall i large small, outs !! i = Some (large, small) ->
      kth_from_end num_le k (take (S i) nums) small /\
      kth_from_end num_ge k (take (S i) nums) large.
Proof.
  intros Hk. unfold min_max_stream, BinaryHeap_new.
  destruct (DHeap_new_Ok (D := option unit) None "min" 2 ltac:(lia) ltac:(by left))
    as (hmin & Hmin & Pmin & Dmin & _ & Tmin & Cmin & _).
  destruct (DHeap_new_Ok (D := option unit) None "max" 2 ltac:(lia) ltac:(by right))
    as (hmax & Hmax & Pmax & Dmax & _ & Tmax & _ & Cmax).
  apply Permutation_nil_r in Pmin, Pmax.
  assert (Imin : heap_invariant hmin) by (eapply DHeap_new_invariant; [|done]; lia).
  assert (Imax : heap_invariant hmax) by (eapply DHeap_new_invariant; [|done]; lia).
  destruct (modify_heaps_stream_tracks (D := unit) k nums Hk [] hmin hmax)
    as (outs & hmin' & hmax' & Hrun & Hlen & Houts).
  - split; [lia|]. split; [done|]. split; [done|]. rewrite Pmin. simpl.
    split; [lia|]. exists []. split; [done|]. intros b n Hb. by apply elem_of_nil in Hb.
  - split; [lia|]. split; [done|]. split; [done|]. rewrite Pmax. simpl.
    split; [lia|]. exists []. split; [done|]. intros b n Hb. by apply elem_of_nil in Hb.
  - by apply Cmin.
  - by apply Cmax.
  - exists outs. rewrite Hmin, Hmax. cbn [bind]. rewrite Hrun. done.
Qed.

Lemma min_max_stream_gives_kth_witness :
  exists outs, min_max_stream 2 [5; 3; 8; 0]%Z = Ok outs /\
    length outs = 4 /\
    forall i large small, outs !! i = Some (large, small) ->
      kth_from_end num_le 2 (take (S i) [5; 3; 8; 0]%Z) small /\
      kth_from_end num_ge 2 (take (S i) [5; 3; 8; 0]%Z) large.
Proof.
  apply (min_max_stream_gives_kth 2 [5; 3; 8; 0]%Z). lia.
Defined.

(** ** Dijkstra from a source that is not a vertex *)

Section UnknownSource.
Variables (graph : Graph) (start : string).
Hypothesis no_edge_from_start :
  forall v, v ∈ vertices graph ->
    dict_get (start ++ "_" ++ v) (edge_weights graph) = None.

Lemma dijkstra_relax_idle u v st :
  dijkstra_idle graph start st ->
  u = start \/ u ∈ vertices graph -> v ∈ vertices graph ->
  dijkstra_relax graph u v st = Ok st.
Proof.
  intros (H0 & Hv & _ & _) Hu Hvin. unfold dijkstra_relax.
  destruct (dict_get (u ++ "_" ++ v) (edge_weights graph)) as [e|] eqn:Ee;
    [|done].
  destruct Hu as [->|Hu]; [by rewrite no_edge_from_start in Ee|].
  destruct (value e >? 0)%Z; [|done].
  destruct (Hv v Hvin) as (Hdv & _ & [vis Hvis]).
  destruct (Hv u Hu) as (Hdu & _ & _).
  rewrite (dict_item_Some _ _ _ Hvis). simpl.
  destruct vis; [done|]. simpl.
  rewrite (dict_item_Some _ _ _ Hdv). simpl.
  rewrite (dict_item_Some _ _ _ Hdu). simpl. done.
Qed.

Lemma dijkstra_inner_idle u vs : forall st,
  dijkstra_idle graph start st ->
  u = start \/ u ∈ vertices graph ->
  (forall v, v ∈ vs -> v ∈ vertices graph) ->
  dijkstra_inner graph u vs st = Ok st.
Proof.
  induction vs as [|v vs IH]; intros st Hst Hu Hvs; simpl; [done|].
  rewrite dijkstra_relax_idle; [|done|done|apply Hvs; by left].
  simpl. apply IH; [done|done|]. intros; apply Hvs; by right.
Qed.

Lemma dijkstra_outer_idle n : forall st,
  dijkstra_idle graph start st -> n <= queue_length st ->
  exists st', dijkstra_outer graph n st = Ok st' /\
              dist st' = dist st /\ pred st' = pred st.
Proof.
  induction n as [|n IH]; intros st Hst Hn; simpl.
  - by exists st.
  - destruct Hst as (H0 & Hv & Hq & Hd).
    unfold queue_length in Hn.
    destruct (pop_Ok (pq st) ltac:(lia))
      as (root & q' & -> & Hperm & Hdd).
    { intros E. rewrite E in Hn. simpl in Hn. lia. }
    simpl. rewrite Hperm in Hq. apply Forall_cons in Hq as [Hroot Hq].
    set (st1 := mkDijkstra (dict_set (data root) true (visited st)) (dist st)
                  (pred st) q' (relaxed st)).
    assert (Hst1 : dijkstra_idle graph start st1).
    { split; [done|]. split; [|split; [done | simpl; lia]].
      intros v Hvin. destruct (Hv v Hvin) as (? & ? & ?).
      split; [done|]. split; [done|]. simpl.
      rewrite dict_get_set_is_Some. by right. }
    rewrite (dijkstra_inner_idle (data root) (vertices graph) st1 Hst1 Hroot)
      by done.
    simpl. destruct (IH st1 Hst1) as (st' & -> & ? & ?).
    { unfold queue_length. simpl.
      apply Permutation_length in Hperm. simpl in Hperm. lia. }
    by exists st'.
Qed.

End UnknownSource.

(** X13.  A source that is not a vertex of the graph is no error: when no
    edge key starts from it, Dijkstra returns, with distance 0 for the
    source (an entry the graph has no vertex for), infinity and no
    predecessor for every vertex, and no predecessor entry for the
    source. *)
Theorem dijkstra_unknown_source_returns (graph : Graph) (start : string) :
  NoDup (vertices graph) -> start ∉ vertices graph ->
  (forall v, v ∈ vertices graph ->
     dict_get (start ++ "_" ++ v) (edge_weights graph) = None) ->
  exists distances predecessors,
    _dijkstra_adjacency_list graph start ""
      = Ok (AllPaths distances predecessors) /\
    dict_get start distances = Some (Fin 0) /\
    dict_get start predecessors = None /\
    forall v, v ∈ vertices graph ->
      dict_get v distances = Some Inf /\
      dict_get v predecessors = Some None.
Proof.
  intros Hnd Hstart Hedges.
  unfold _dijkstra_adjacency_list. rewrite dijkstra_run_unfold.
  assert (Hq0 : PriorityQueue_new (V := string) "binary_heap" None =
                Ok (mkPQ (mkDHeap (fun u v => num_ltb u v) [] 2 "min")))
    by reflexivity.
  rewrite Hq0. simpl bind.
  destruct (dijkstra_init_keys start (vertices graph) [] [] []) as [Hvis Hdst].
  destruct (dijkstra_init_values start (vertices graph) [] [] [])
    as [Hinf Hnone]; [done|done|].
  pose proof (dijkstra_init_pred_keys start (vertices graph) [] [] []) as Hpk.
  assert (Hd0 : dict_get start (dijkstra_dist0 graph start) = Some (Fin 0))
    by apply dict_get_set_eq.
  assert (HdI : forall v, v ∈ vertices graph ->
            dict_get v (dijkstra_dist0 graph start) = Some Inf).
  { intros v Hv. unfold dijkstra_dist0.
    rewrite dict_get_set_ne by (intros ->; done).
    destruct (proj2 (Hdst v)) as [x Hx]; [left; split; [done|]; by intros ->|].
    simpl in Hx. rewrite Hx. f_equal. by eapply Hinf. }
  assert (HpI : forall v, v ∈ vertices graph ->
            dict_get v (dijkstra_pred0 graph start) = Some None).
  { intros v Hv. unfold dijkstra_pred0.
    destruct (proj2 (Hpk v)) as [y Hy]; [by left|].
    rewrite Hy. f_equal. by eapply Hnone. }
  assert (Hp0 : dict_get start (dijkstra_pred0 graph start) = None).
  { unfold dijkstra_pred0.
    destruct (dict_get start (dijkstra_init start (vertices graph) [] [] []).2)
      eqn:E; [|done].
    destruct (proj1 (Hpk start)) as [?|[? ?]]; [by rewrite E|done|done]. }
  assert (Hkeys : forall k, k ∈ dict_keys (dijkstra_dist0 graph start) ->
            k = start \/ k ∈ vertices graph).
  { intros k Hk. apply dict_get_keys in Hk. unfold dijkstra_dist0 in Hk.
    apply dict_get_set_is_Some in Hk as [?|Hk]; [by left|].
    apply Hdst in Hk as [[? _]|[? ?]]; [by right|done]. }
  destruct (dijkstra_fill_Ok (dijkstra_dist0 graph start)
              (dict_keys (dijkstra_dist0 graph start))
              (mkPQ (mkDHeap (fun u v => num_ltb u v) [] 2 "min")))
    as (q & -> & Hlen & HP & Hd); [|done|].
  { intros k Hk. by apply dict_get_keys. }
  simpl bind.
  edestruct (dijkstra_outer_idle graph start Hedges (length (vertices graph)))
    as (st' & -> & Hdist & Hpred).
  - split; [exact Hd0|]. split; [|split; [|exact Hd]].
    + intros v Hv. split; [by apply HdI|]. split; [by apply HpI|].
      simpl. apply Hvis. by left.
    + simpl. apply HP; [|constructor]. intros k x Hk. simpl. by apply Hkeys.
  - unfold queue_length. simpl. rewrite Hlen. simpl.
    rewrite Nat.add_0_r. apply submseteq_length, NoDup_submseteq; [done|].
    intros k Hk. apply dict_get_keys. rewrite HdI; done.
  - simpl. eexists _, _. split; [done|]. rewrite Hdist, Hpred. simpl.
    split; [done|]. split; [done|]. intros v Hv. split; [by apply HdI | by apply HpI].
Qed.

Lemma dijkstra_unknown_source_returns_witness :
  exists distances predecessors,
    _dijkstra_adjacency_list G_dijkstra_graph "V9" ""
      = Ok (AllPaths distances predecessors) /\
    dict_get "V9" distances = Some (Fin 0) /\
    dict_get "V9" predecessors = None /\
    forall v, v ∈ vertices G_dijkstra_graph ->
      dict_get v distances = Some Inf /\
      dict_get v predecessors = Some None.
Proof.
  apply (dijkstra_unknown_source_returns G_dijkstra_graph "V9").
  - apply (bool_decide_unpack (NoDup (vertices G_dijkstra_graph))).
    vm_compute. exact I.
  - apply (bool_decide_unpack ("V9" ∉ vertices G_dijkstra_graph)).
    vm_compute. exact I.
  - intros v Hv.
    repeat (apply elem_of_cons in Hv as [->|Hv]; [reflexivity|]).
    by apply elem_of_nil in Hv.
Defined.

(** ** Dijkstra and entries left over in the queue *)

(** X14.  The distances Dijkstra returns are not always the shortest.  The
    main loop pops once per vertex, and a pop of an entry left over from an
    earlier, larger distance of a vertex uses up a round like any other:
    there is a graph with unique vertices and positive weights only in
    which the returned distance of a vertex is greater than the weight of a
    walk from the source to it. *)
Theorem dijkstra_can_overestimate :
  exists (graph : Graph) (start v : string) distances predecessors (x y : Z),
    NoDup (vertices graph) /\ start ∈ vertices graph /\
    Forall (fun kv => (0 < value kv.2)%Z) (edge_weights graph) /\
    shortest_paths graph "dijkstra" start ""
      = Ok (AllPaths distances predecessors) /\
    dict_get v distances = Some (Fin x) /\
    walk graph start v y /\ (y < x)%Z.
Proof.
  exists G_stale, "S", "D".
  eexists _, _, 100%Z, 51%Z.
  split; [apply (bool_decide_unpack (NoDup (vertices G_stale)));
          vm_compute; exact I|].
  split; [apply (bool_decide_unpack ("S" ∈ vertices G_stale));
          vm_compute; exact I|].
  split; [repeat constructor|].
  split; [vm_compute; reflexivity|].
  split; [reflexivity|]. split; [|lia].
  change 51%Z with (0 + 50 + 1)%Z.
  eapply (walk_step G_stale "S" "C" "D" (mkEdge "C" "D" 1));
    [|reflexivity|done].
  eapply (walk_step G_stale "S" "S" "C" (mkEdge "S" "C" 50));
    [|reflexivity|done].
  apply walk_start.
Qed.

(** ** The distances of the vertices Dijkstra has popped *)

Lemma num_leb_refl (a : num) : num_leb a a = true.
Proof. destruct a; simpl; [lia | done]. Qed.

Lemma num_ltb_leb (a b : num) : num_ltb a b = true -> num_leb a b = true.
Proof. destruct a, b; simpl; intros; try done; lia. Qed.

Lemma num_ltb_false (a b : num) : num_ltb a b = false -> num_leb b a = true.
Proof. destruct a, b; simpl; intros; try done; lia. Qed.

Lemma num_leb_add (a : num) (e : Z) :
  (0 < e)%Z -> num_leb a (num_add a e) = true.
Proof. destruct a; simpl; intros; [lia | done]. Qed.

Lemma num_leb_add_mono (a : num) (w e : Z) :
  num_leb a (Fin w) = true -> num_leb (num_add a e) (Fin (w + e)) = true.
Proof. destruct a; simpl; intros; [lia | done]. Qed.

Lemma dict_get_set_same {V : Type} k (b : V) m k' :
  dict_get k m = Some b -> dict_get k' (dict_set k b m) = dict_get k' m.
Proof.
  intros H. destruct (decide (k' = k)) as [->|Hne].
  - by rewrite dict_get_set_eq.
  - by rewrite dict_get_set_ne.
Qed.

Lemma dijkstra_relax_outcomes graph u v st st' :
  dijkstra_relax graph u v st = Ok st' ->
  (st' = st /\
   forall e du dv,
     dict_get (u ++ "_" ++ v) (edge_weights graph) = Some e ->
     (0 < value e)%Z ->
     dict_get v (visited st) = Some false ->
     dict_get u (dist st) = Some du -> dict_get v (dist st) = Some dv ->
     num_ltb (num_add du (value e)) dv = false) \/
  exists e x dv q,
    dict_get (u ++ "_" ++ v) (edge_weights graph) = Some e /\
    (0 < value e)%Z /\
    dict_get v (visited st) = Some false /\
    dict_get v (dist st) = Some dv /\
    dict_get u (dist st) = Some (Fin x) /\
    num_ltb (Fin (x + value e)) dv = true /\
    push (pq st) v (Fin (x + value e)) = Ok q /\
    st' = mkDijkstra (visited st)
            (dict_set v (Fin (x + value e)) (dist st))
            (dict_set v (Some u) (pred st)) q
            (relaxed st ++ [mkRelaxation u v (value e) (Fin (x + value e))]).
Proof.
  unfold dijkstra_relax. intros H.
  destruct (dict_get (u ++ "_" ++ v) (edge_weights graph)) as [e|] eqn:He.
  2:{ left. split; [congruence|]. intros; congruence. }
  destruct (Z.gtb_spec (value e) 0) as [Hpos|Hneg].
  2:{ left. split; [congruence|]. intros e0 ? ? E0 ?. simplify_eq. lia. }
  inv_bind H. apply dict_item_Ok in Ha.
  destruct a; simpl in H.
  { left. split; [congruence|]. intros; congruence. }
  inv_bind H. inv_bind H. apply dict_item_Ok in Ha0, Ha1.
  destruct (num_ltb (num_add a0 (value e)) a) eqn:Hlt.
  2:{ left. split; [congruence|]. intros e0 du dv E0 ? ? Hdu Hdv.
      assert (e0 = e) as -> by congruence.
      assert (du = a0) as -> by congruence.
      assert (dv = a) as -> by congruence. done. }
  inv_bind H. right.
  destruct a0 as [x|]; [|by destruct a].
  exists e, x, a, a1. simpl in *. simplify_eq.
  repeat split; try done; lia.
Qed.

Lemma push_inv {V : Type} (q : BinaryHeapPriorityQueue V) v p q' :
  1 <= d (items q) -> push q v p = Ok q' ->
  heap (items q') ≡ₚ mkTreeNode p v :: heap (items q) /\
  d (items q') = d (items q) /\
  _comp (items q') = _comp (items q) /\
  (forall le, refines (_comp (items q)) le ->
     weakly_ordered le (items q) -> weakly_ordered le (items q')).
Proof.
  intros Hd H. unfold push in H. inv_bind H. simplify_eq. simpl.
  destruct (insert_Ok (items q) p v Hd) as (h' & E & Hperm & _ & Hc & Hdd & _).
  assert (h' = a) as -> by congruence.
  split; [done|]. split; [done|]. split; [done|].
  intros le Href Hw. by eapply insert_weak.
Qed.

Lemma pop_inv {V : Type} (q : BinaryHeapPriorityQueue V) u q' :
  1 <= d (items q) -> pop q = Ok (u, q') ->
  exists root,
    data root = u /\
    heap (items q) ≡ₚ root :: heap (items q') /\
    d (items q') = d (items q) /\
    _comp (items q') = _comp (items q) /\
    (forall le, refines (_comp (items q)) le ->
       weakly_ordered le (items q) ->
       weakly_ordered le (items q') /\
       Forall (fun nd => le (key root) (key nd) = true) (heap (items q'))).
Proof.
  intros Hd H. unfold pop in H. inv_bind H. destruct a as [root h].
  simpl in H. simplify_eq. simpl.
  assert (Hne : heap (items q) <> []).
  { intros E0. by rewrite (extract_empty _ E0) in Ha. }
  destruct (extract_Ok (items q) Hd Hne)
    as (r & h1 & E1 & H0 & Hperm & _ & Hc & Hdd & _).
  assert (r = root /\ h1 = h) as [-> ->] by (split; congruence).
  exists root. split; [done|]. split; [done|]. split; [done|]. split; [done|].
  intros le Href Hw. split.
  - by eapply extract_weak.
  - by eapply extract_least.
Qed.

Section Exact.
Variables (graph : Graph) (start : string).

Lemma dijkstra_exact_weaken (P P' : string -> string -> Prop) st :
  (forall u v, v ∈ vertices graph -> P' u v -> P u v) ->
  dijkstra_exact graph start P st -> dijkstra_exact graph start P' st.
Proof.
  intros HP (Hwf & Href & Hw & Hs & H0 & Hpos & Q1 & Q2 & I3 & I1 & O).
  repeat (split; [done|]). split; [|done].
  intros u v e du dv Huv Hu Hv. eapply I1; [by apply HP|done|done].
Qed.

(** Along every walk there is a popped vertex at or below the weight
    walked so far, followed all the way, or a vertex not yet popped. *)
Lemma vertex_walk_frontier st v y :
  dijkstra_exact graph start (fun _ _ => True) st ->
  vertex_walk graph start v y ->
  (dict_get v (visited st) = Some true /\
   exists dv, dict_get v (dist st) = Some dv /\ num_leb dv (Fin y) = true) \/
  (exists z dz, z ∈ vertices graph /\ dict_get z (visited st) = Some false /\
                dict_get z (dist st) = Some dz /\ num_leb dz (Fin y) = true).
Proof.
  intros (Hwf & Href & Hw & Hs & H0 & Hpos & Q1 & Q2 & I3 & I1 & O) Hwalk.
  destruct Hwf as (Hvis & Hdist & _ & _).
  induction Hwalk as [|u v e w Hwalk IH Hv He Hpe].
  - destruct (Hvis start Hs) as [[|] Hb].
    + left. split; [done|]. by exists (Fin 0).
    + right. by exists start, (Fin 0).
  - destruct IH as [(Hu & du & Hdu & Hle)|(z & dz & Hz & Hzv & Hdz & Hle)].
    + destruct (proj2 (Hdist v) Hv) as [dv Hdv].
      assert (Hdvle : num_leb dv (Fin (w + value e)) = true).
      { eapply num_leb_trans; [by eapply (I1 u v e du dv)|].
        by apply num_leb_add_mono. }
      destruct (Hvis v Hv) as [[|] Hb].
      * left. split; [done|]. by exists dv.
      * right. by exists v, dv.
    + right. exists z, dz. repeat (split; [done|]).
      eapply num_leb_trans; [exact Hle|]. simpl. apply Z.leb_le. lia.
Qed.

Lemma dijkstra_relax_exact x dx Pv v st st' :
  dijkstra_exact_from graph start x dx Pv st ->
  x ∈ vertices graph -> v ∈ vertices graph ->
  dijkstra_relax graph x v st = Ok st' ->
  dijkstra_exact_from graph start x dx (fun v' => v' = v \/ Pv v') st'.
Proof.
  intros (Hex & Hxv & Hxd & M) Hx Hv Hrel.
  destruct Hex as (Hwf & Href & Hw & Hs & H0 & Hpos & Q1 & Q2 & I3 & I1 & O).
  pose proof Hwf as (Hvis & Hdist & Hq & Hd).
  destruct (dijkstra_relax_outcomes _ _ _ _ _ Hrel)
    as [[-> G]|(e & xx & dv & q & He & Hpe & Hvf & Hdv & Hdu & Hlt & Hpush & ->)].
  - (* nothing assigned *)
    split; [|done]. repeat (split; [done|]). split; [|done].
    intros u' v' e' du' dv' HP Hu' Hv' He' Hpe' Hdu' Hdv'.
    destruct (decide (u' = x)) as [->|Hne].
    2:{ eapply I1; [by left|done..]. }
    destruct HP as [?|[->|HP]]; [done| |eapply I1; [by right|done..]].
    assert (du' = dx) as -> by congruence.
    destruct (Hvis v Hv) as [[|] Hb].
    + eapply num_leb_trans; [by eapply M|]. by apply num_leb_add.
    + apply num_ltb_false. by eapply G.
  - (* dist[v], pred[v] assigned and v pushed *)
    assert (dx = Fin xx) as -> by congruence.
    assert (Hvx : v <> x) by (intros ->; congruence).
    assert (Hxx : (0 <= xx)%Z).
    { pose proof (Hpos _ _ Hxd) as Hp. simpl in Hp. lia. }
    assert (Hvs : v <> start).
    { intros ->. rewrite H0 in Hdv. simplify_eq. simpl in Hlt. lia. }
    assert (Hnew : num_leb (Fin (xx + value e)) dv = true)
      by (by apply num_ltb_leb).
    destruct (push_inv (pq st) v (Fin (xx + value e)) q ltac:(lia) Hpush)
      as (Hperm & Hdq & Hcq & Hwq).
    destruct (dijkstra_relax_wf graph x v st Hx Hv Hwf) as (st1 & E1 & Hwf1 & _).
    rewrite Hrel in E1. injection E1 as <-.
    split; [|split; [done|split]]; simpl.
    2:{ by rewrite dict_get_set_ne. }
    2:{ intros w dw Hwv Hdw.
        assert (w <> v) by (intros ->; congruence).
        rewrite dict_get_set_ne in Hdw by done. by eapply M. }
    split; [done|]. simpl.
    split; [by rewrite Hcq|]. split; [by apply Hwq|]. split; [done|].
    split; [by rewrite dict_get_set_ne|].
    split.
    { intros k dk. destruct (decide (k = v)) as [->|Hk].
      - rewrite dict_get_set_eq. intros [= <-]. simpl. apply Z.leb_le. lia.
      - rewrite dict_get_set_ne by done. apply Hpos. }
    split.
    { intros nd Hnd. rewrite Hperm in Hnd.
      apply elem_of_cons in Hnd as [->|Hnd]; simpl.
      - rewrite dict_get_set_eq. eexists. split; [done|]. apply num_leb_refl.
      - destruct (Q1 nd Hnd) as (dk & Hdk & Hle).
        destruct (decide (data nd = v)) as [Hk|Hk].
        + rewrite Hk in *. rewrite dict_get_set_eq. eexists. split; [done|].
          assert (dk = dv) as -> by congruence.
          by eapply num_leb_trans.
        + rewrite dict_get_set_ne by done. by exists dk. }
    split.
    { intros z Hz Hzv. destruct (decide (z = v)) as [->|Hk].
      - rewrite dict_get_set_eq. eexists. split; [done|].
        rewrite Hperm. by left.
      - rewrite dict_get_set_ne by done.
        destruct (Q2 z Hz Hzv) as (dz & Hdz & Hin).
        exists dz. split; [done|]. rewrite Hperm. by right. }
    split.
    { intros w dw nd Hwv Hdw Hnd.
      assert (w <> v) by (intros ->; congruence).
      rewrite dict_get_set_ne in Hdw by done.
      rewrite Hperm in Hnd. apply elem_of_cons in Hnd as [->|Hnd]; simpl.
      - eapply num_leb_trans; [by eapply M|]. simpl. apply Z.leb_le. lia.
      - by eapply I3. }
    split.
    { intros u' v' e' du' dv' HP Hu' Hv' He' Hpe' Hdu' Hdv'.
      assert (Hu'v : u' <> v) by (intros ->; congruence).
      rewrite dict_get_set_ne in Hdu' by done.
      destruct (decide (v' = v)) as [->|Hv'v].
      - rewrite dict_get_set_eq in Hdv'. injection Hdv' as <-.
        destruct (decide (u' = x)) as [->|Hne].
        + assert (e' = e) as -> by congruence.
          assert (du' = Fin xx) as -> by congruence.
          simpl. apply Z.leb_le. lia.
        + eapply num_leb_trans; [exact Hnew|].
          eapply (I1 u' v e' du' dv); [by left|done..].
      - rewrite dict_get_set_ne in Hdv' by done.
        eapply (I1 u' v' e' du' dv'); [|done..].
        destruct HP as [?|[?|?]]; [by left|done|by right]. }
    intros u du y Hu Hdu' Hwalk.
    assert (u <> v) by (intros ->; congruence).
    rewrite dict_get_set_ne in Hdu' by done. by eapply O.
Qed.

Lemma dijkstra_inner_exact x dx vs : forall Pv st st',
  dijkstra_exact_from graph start x dx Pv st ->
  x ∈ vertices graph -> (forall v, v ∈ vs -> v ∈ vertices graph) ->
  dijkstra_inner graph x vs st = Ok st' ->
  dijkstra_exact_from graph start x dx (fun v' => v' ∈ vs \/ Pv v') st'.
Proof.
  induction vs as [|v vs IH]; intros Pv st st' Hst Hx Hvs Hin; simpl in Hin.
  - simplify_eq. destruct Hst as (Hex & ? & ? & ?). split; [|done].
    eapply dijkstra_exact_weaken; [|exact Hex].
    intros u v' _ [?|[Hv'|?]]; [by left | by apply elem_of_nil in Hv' | by right].
  - inv_bind Hin.
    pose proof (dijkstra_relax_exact x dx Pv v st a Hst Hx
                  ltac:(apply Hvs; by left) Ha) as Hst1.
    pose proof (IH _ a st' Hst1 Hx ltac:(intros; apply Hvs; by right) Hin)
      as (Hex & ? & ? & ?).
    split; [|done].
    eapply dijkstra_exact_weaken; [|exact Hex].
    intros u v' _ [?|[Hv'|?]]; [by left| |by right; right; right].
    apply elem_of_cons in Hv' as [->|?]; right; [right; by left | by left].
Qed.

(** The round of a vertex popped before assigns nothing. *)
Lemma dijkstra_inner_again x vs : forall st,
  dijkstra_exact graph start (fun _ _ => True) st ->
  dict_get x (visited st) = Some true -> x ∈ vertices graph ->
  (forall v, v ∈ vs -> v ∈ vertices graph) ->
  dijkstra_inner graph x vs st = Ok st.
Proof.
  induction vs as [|v vs IH]; intros st Hst Hxv Hx Hvs; simpl; [done|].
  assert (Hv : v ∈ vertices graph) by (apply Hvs; by left).
  pose proof Hst as (Hwf & _ & _ & _ & _ & _ & _ & _ & _ & I1 & _).
  destruct (dijkstra_relax_wf graph x v st Hx Hv Hwf) as (st1 & E1 & _ & _).
  rewrite E1. simpl.
  destruct (dijkstra_relax_outcomes _ _ _ _ _ E1)
    as [[-> _]|(e & xx & dv & q & He & Hpe & Hvf & Hdv & Hdu & Hlt & _ & _)].
  - apply IH; [done|done|done|]. intros; apply Hvs; by right.
  - exfalso.
    pose proof (I1 x v e (Fin xx) dv I Hxv Hv He Hpe Hdu Hdv) as Hle.
    simpl in Hle. destruct dv; simpl in *; [lia | done].
Qed.

Lemma dijkstra_outer_exact n : forall st st',
  dijkstra_exact graph start (fun _ _ => True) st ->
  dijkstra_outer graph n st = Ok st' ->
  dijkstra_exact graph start (fun _ _ => True) st'.
Proof.
  induction n as [|n IH]; intros st st' Hst Hrun; simpl in Hrun.
  - by simplify_eq.
  - inv_bind Hrun. destruct a as [x q]. inv_bind Hrun.
    eapply IH; [|exact Hrun]. clear IH Hrun st'.
    pose proof Hst as (Hwf & Href & Hw & Hs & H0 & Hpos & Q1 & Q2 & I3 & I1 & O).
    pose proof Hwf as (Hvis & Hdist & Hq & Hd).
    destruct (pop_inv (pq st) x q ltac:(lia) Ha)
      as (root & Hroot & Hperm & Hdq & Hcq & Hleast).
    destruct (Hleast num_leb Href Hw) as [Hwq Hmin]. clear Hleast.
    assert (Hx : x ∈ vertices graph).
    { rewrite Hperm in Hq. apply Forall_cons in Hq as [? _]. by subst x. }
    assert (Hq' : forall nd, nd ∈ heap (items q) -> nd ∈ heap (items (pq st))).
    { intros nd Hnd. rewrite Hperm. by right. }
    assert (Hrin : root ∈ heap (items (pq st))) by (rewrite Hperm; by left).
    destruct (proj2 (Hdist x) Hx) as [dx Hdx].
    assert (Hkx : num_leb dx (key root) = true).
    { destruct (Q1 root Hrin) as (dk & Hdk & Hle). rewrite Hroot in Hdk.
      by assert (dk = dx) as -> by congruence. }
    set (st1 := mkDijkstra (dict_set x true (visited st)) (dist st) (pred st)
                  q (relaxed st)) in *.
    assert (Hwf1 : dijkstra_wf graph st1).
    { split; [|split; [|split]]; simpl.
      - intros v Hv. rewrite dict_get_set_is_Some. right. by apply Hvis.
      - done.
      - rewrite Hperm in Hq. by apply Forall_cons in Hq as [_ ?].
      - lia. }
    assert (Hmin' : forall nd, nd ∈ heap (items q) ->
              num_leb (key root) (key nd) = true).
    { intros nd Hnd. by eapply (proj1 (Forall_forall _ _) Hmin). }
    destruct (Hvis x Hx) as [[|] Hb].
    + (* an entry of a vertex popped before *)
      assert (Hsame : forall k, dict_get k (visited st1) = dict_get k (visited st))
        by (intros k; by apply dict_get_set_same).
      assert (Hst1 : dijkstra_exact graph start (fun _ _ => True) st1).
      { split; [done|]. simpl. split; [by rewrite Hcq|]. split; [done|].
        split; [done|]. split; [done|]. split; [done|].
        split; [intros nd Hnd; by apply Q1, Hq'|].
        split.
        { intros z Hz Hzv. rewrite Hsame in Hzv.
          destruct (Q2 z Hz Hzv) as (dz & Hdz & Hin). exists dz. split; [done|].
          rewrite Hperm in Hin. apply elem_of_cons in Hin as [E|?]; [|done].
          assert (z = x) as -> by (rewrite <- Hroot, <- E; done). congruence. }
        split.
        { intros v dv nd Hv Hdv Hnd. rewrite Hsame in Hv.
          eapply I3; [done|done|by apply Hq']. }
        split.
        { intros u v e du dv _ Hu. rewrite Hsame in Hu. by apply I1. }
        intros u du y Hu. rewrite Hsame in Hu. by apply O. }
      rewrite dijkstra_inner_again in Ha0; [by simplify_eq|done| |done|done].
      simpl. apply dict_get_set_eq.
    + (* the vertex is popped for the first time *)
      assert (Hne : forall k, k <> x ->
                dict_get k (visited st1) = dict_get k (visited st))
        by (intros k Hk; simpl; by rewrite dict_get_set_ne).
      assert (Hxk : num_leb (key root) dx = true).
      { destruct (Q2 x Hx Hb) as (dz & Hdz & Hin).
        assert (dz = dx) as -> by congruence.
        rewrite Hperm in Hin. apply elem_of_cons in Hin as [E|Hin].
        - rewrite <- E. simpl. apply num_leb_refl.
        - by apply (Hmin' _ Hin). }
      assert (Hfrom : dijkstra_exact_from graph start x dx (fun _ => False) st1).
      { split; [|split; [apply dict_get_set_eq|split; [done|]]].
        2:{ intros w dw Hwv Hdw. simpl in Hdw.
            destruct (decide (w = x)) as [->|Hwx].
            - assert (dw = dx) as -> by congruence. apply num_leb_refl.
            - rewrite Hne in Hwv by done.
              eapply num_leb_trans; [|exact Hxk]. by eapply I3. }
        split; [done|]. simpl. split; [by rewrite Hcq|]. split; [done|].
        split; [done|]. split; [done|]. split; [done|].
        split; [intros nd Hnd; by apply Q1, Hq'|].
        split.
        { intros z Hz Hzv.
          assert (Hzx : z <> x).
          { intros ->. rewrite dict_get_set_eq in Hzv. done. }
          rewrite dict_get_set_ne in Hzv by done.
          destruct (Q2 z Hz Hzv) as (dz & Hdz & Hin). exists dz. split; [done|].
          rewrite Hperm in Hin. apply elem_of_cons in Hin as [E|?]; [|done].
          exfalso. apply Hzx. rewrite <- Hroot, <- E. done. }
        split.
        { intros v dv nd Hv Hdv Hnd.
          destruct (decide (v = x)) as [->|Hvx].
          - assert (dv = dx) as -> by congruence.
            eapply num_leb_trans; [exact Hkx|]. by apply Hmin'.
          - rewrite dict_get_set_ne in Hv by done.
            eapply I3; [done|done|by apply Hq']. }
        split.
        { intros u v e du dv [Hux|[]] Hu.
          rewrite dict_get_set_ne in Hu by done. by apply I1. }
        intros u du y Hu Hdu Hwalk.
        destruct (decide (u = x)) as [->|Hux].
        2:{ rewrite dict_get_set_ne in Hu by done. by eapply O. }
        assert (du = dx) as -> by congruence.
        destruct (vertex_walk_frontier st x y Hst Hwalk)
          as [(Hxt & _)|(z & dz & Hz & Hzv & Hdz & Hle)]; [congruence|].
        destruct (Q2 z Hz Hzv) as (dz' & Hdz' & Hin).
        assert (dz' = dz) as -> by congruence.
        rewrite Hperm in Hin. apply elem_of_cons in Hin as [E|Hin].
        - assert (z = x) as -> by (rewrite <- Hroot, <- E; done).
          by assert (dz = dx) as -> by congruence.
        - eapply num_leb_trans; [exact Hkx|].
          eapply num_leb_trans; [by apply (Hmin' _ Hin)|]. done. }
      pose proof (dijkstra_inner_exact x dx (vertices graph) _ st1 a Hfrom Hx
                    ltac:(done) Ha0) as (Hex & _).
      eapply dijkstra_exact_weaken; [|exact Hex].
      intros u v Hv _. right. by left.
Qed.

End Exact.

Lemma dijkstra_init_unvisited start vs : forall vis dst prd,
  (forall k b, dict_get k vis = Some b -> b = false) ->
  forall k b, dict_get k (dijkstra_init start vs vis dst prd).1.1 = Some b ->
              b = false.
Proof.
  induction vs as [|v vs IH]; intros vis dst prd Hv; simpl; [done|].
  apply IH. intros k b. destruct (decide (k = v)) as [->|Hk].
  - rewrite dict_get_set_eq. congruence.
  - rewrite dict_get_set_ne by done. apply Hv.
Qed.

Lemma dijkstra_fill_exact dst ks : forall q q' : BinaryHeapPriorityQueue string,
  d (items q) = 2 -> refines (_comp (items q)) num_leb ->
  weakly_ordered num_leb (items q) ->
  dijkstra_fill dst ks q = Ok q' ->
  d (items q') = 2 /\ refines (_comp (items q')) num_leb /\
  weakly_ordered num_leb (items q') /\
  forall nd, nd ∈ heap (items q') <->
    nd ∈ heap (items q) \/
    exists k dk, k ∈ ks /\ dict_get k dst = Some dk /\ nd = mkTreeNode dk k.
Proof.
  induction ks as [|k ks IH]; intros q q' Hd Href Hw Hfill; simpl in Hfill.
  - simplify_eq. repeat (split; [done|]). intros nd. split; [by left|].
    intros [?|(k & dk & Hk & _)]; [done | by apply elem_of_nil in Hk].
  - inv_bind Hfill. inv_bind Hfill. apply dict_item_Ok in Ha.
    destruct (push_inv q k a a0 ltac:(lia) Ha0) as (Hperm & Hdq & Hcq & Hwq).
    destruct (IH a0 q' ltac:(lia) ltac:(by rewrite Hcq) ltac:(by apply Hwq) Hfill)
      as (Hd' & Href' & Hw' & Hmem).
    repeat (split; [done|]). intros nd. rewrite Hmem, Hperm. split.
    + intros [Hin|(k' & dk & Hk' & Hdk & ->)].
      * apply elem_of_cons in Hin as [->|?]; [|by left].
        right. exists k, a. split; [by left|done].
      * right. exists k', dk. split; [by right|done].
    + intros [?|(k' & dk & Hk' & Hdk & ->)]; [left; by right|].
      apply elem_of_cons in Hk' as [->|?].
      * assert (dk = a) as -> by congruence. left. by left.
      * right. by exists k', dk.
Qed.

Lemma dijkstra_run_exact graph start st :
  start ∈ vertices graph -> dijkstra_run graph start = Ok st ->
  dijkstra_exact graph start (fun _ _ => True) st.
Proof.
  intros Hstart Hrun. rewrite dijkstra_run_unfold in Hrun.
  assert (Hq0 : PriorityQueue_new (V := string) "binary_heap" None =
                Ok (mkPQ (mkDHeap (fun u v => num_ltb u v) [] 2 "min")))
    by reflexivity.
  rewrite Hq0 in Hrun. simpl bind in Hrun. inv_bind Hrun.
  eapply dijkstra_outer_exact; [|exact Hrun]. clear Hrun st.
  destruct (dijkstra_init_keys start (vertices graph) [] [] []) as [Hvis Hdst].
  destruct (dijkstra_init_values start (vertices graph) [] [] [])
    as [Hinf _]; [done|done|].
  pose proof (dijkstra_init_unvisited start (vertices graph) [] [] []
                ltac:(done)) as Hfalse.
  assert (Hkeys : forall k, is_Some (dict_get k (dijkstra_dist0 graph start))
                            <-> k ∈ vertices graph).
  { intros k. unfold dijkstra_dist0. rewrite dict_get_set_is_Some, Hdst.
    simpl. split.
    - intros [->|[[? _]|[? ?]]]; done.
    - intros Hk. destruct (decide (k = start)); [by left | right; by left]. }
  destruct (dijkstra_fill_exact (dijkstra_dist0 graph start)
              (dict_keys (dijkstra_dist0 graph start))
              (mkPQ (mkDHeap (fun u v => num_ltb u v) [] 2 "min")) a)
    as (Hd & Href & Hw & Hmem);
    [done | apply ltb_refines_leb
     | intros c Hc _ np nc Hp; by destruct (parent_of 2 c) | exact Ha |].
  simpl in Hmem.
  assert (Hnone : forall u, dict_get u
             (dijkstra_init start (vertices graph) [] [] []).1.1 <> Some true).
  { intros u Hu. by apply Hfalse in Hu. }
  split.
  { split; [|split; [|split]]; simpl.
    - intros v Hv. apply Hvis. by left.
    - done.
    - apply Forall_forall. intros nd Hnd.
      apply Hmem in Hnd as [Hnd|(k & dk & Hk & Hdk & ->)];
        [by apply elem_of_nil in Hnd|].
      simpl. apply Hkeys. by rewrite Hdk.
    - done. }
  simpl. split; [done|]. split; [done|]. split; [done|].
  split; [apply dict_get_set_eq|].
  split.
  { intros k dk. unfold dijkstra_dist0.
    destruct (decide (k = start)) as [->|Hk].
    - rewrite dict_get_set_eq. by intros [= <-].
    - rewrite dict_get_set_ne by done. intros Hdk.
      by rewrite (Hinf _ _ Hdk). }
  split.
  { intros nd Hnd.
    apply Hmem in Hnd as [Hnd|(k & dk & Hk & Hdk & ->)];
      [by apply elem_of_nil in Hnd|].
    simpl. exists dk. split; [done | apply num_leb_refl]. }
  split.
  { intros z Hz _. destruct (proj2 (Hkeys z) Hz) as [dz Hdz].
    exists dz. split; [done|]. apply Hmem. right. exists z, dz.
    split; [|done]. apply dict_get_keys. by rewrite Hdz. }
  split; [intros v dv nd Hv; by apply Hnone in Hv|].
  split; [intros u v e du dv _ Hu; by apply Hnone in Hu|].
  intros u du y Hu. by apply Hnone in Hu.
Qed.

(** X15.  When the main loop of Dijkstra ends, the distance of every vertex
    it has popped and marked visited is finite and at most the weight of
    every walk from the source to that vertex along edges of positive
    weight between vertices: the distances of popped vertices are the
    shortest ones.  (A vertex that was never popped may keep a larger
    distance.) *)
Theorem dijkstra_popped_vertices_are_exact (graph : Graph) (start : string)
    (st : DijkstraState) (u : string) (y : Z) :
  start ∈ vertices graph ->
  dijkstra_run graph start = Ok st ->
  dict_get u (visited st) = Some true ->
  vertex_walk graph start u y ->
  exists x, dict_get u (dist st) = Some (Fin x) /\ (x <= y)%Z.
Proof.
  intros Hstart Hrun Hu Hwalk.
  pose proof (dijkstra_run_exact graph start st Hstart Hrun)
    as (Hwf & _ & _ & _ & _ & _ & _ & _ & _ & _ & O).
  destruct Hwf as (_ & Hdist & _ & _).
  assert (Hin : u ∈ vertices graph) by (by destruct Hwalk).
  destruct (proj2 (Hdist u) Hin) as [du Hdu].
  pose proof (O u du y Hu Hdu Hwalk) as Hle.
  destruct du as [x|]; [|done]. exists x. split; [done|].
  simpl in Hle. lia.
Qed.

Lemma dijkstra_popped_vertices_are_exact_witness :
  exists x, dict_get "V3" (dist G_dijkstra_final) = Some (Fin x) /\ (x <= 21)%Z.
Proof.
  apply (dijkstra_popped_vertices_are_exact G_dijkstra_graph "V1"
           G_dijkstra_final "V3" 21).
  - apply (bool_decide_unpack ("V1" ∈ vertices G_dijkstra_graph)).
    vm_compute. exact I.
  - vm_compute. reflexivity.
  - vm_compute. reflexivity.
  - change 21%Z with (0 + 11 + 10)%Z.
    apply (vertex_walk_step G_dijkstra_graph "V1" "V2" "V3"
             (mkEdge "V2" "V3" 10) (0 + 11));
      [|apply (bool_decide_unpack ("V3" ∈ vertices G_dijkstra_graph));
        vm_compute; exact I
       |reflexivity|reflexivity].
    apply (vertex_walk_step G_dijkstra_graph "V1" "V1" "V2"
             (mkEdge "V1" "V2" 11) 0);
      [apply vertex_walk_start
       |apply (bool_decide_unpack ("V2" ∈ vertices G_dijkstra_graph));
        vm_compute; exact I
       |reflexivity|reflexivity].
Defined.

(** X16.  In every result of Dijkstra from a source that is a vertex, the
    distance of a vertex that is the predecessor of another is the
    shortest: it is finite and at most the weight of every walk from the
    source to it along edges of positive weight between vertices. *)
Theorem dijkstra_predecessors_are_exact (graph : Graph) (start : string)
    (distances : dict num) (predecessors : dict (option string))
    (v u : string) (y : Z) :
  start ∈ vertices graph ->
  _dijkstra_adjacency_list graph start "" = Ok (AllPaths distances predecessors) ->
  dict_get v predecessors = Some (Some u) ->
  vertex_walk graph start u y ->
  exists x, dict_get u distances = Some (Fin x) /\ (x <= y)%Z.
Proof.
  intros Hstart H Hp Hwalk.
  destruct (dijkstra_all_paths_inv _ _ _ _ H) as (st & Hrun & -> & ->).
  destruct (dijkstra_run_sound graph start st Hrun) as (_ & _ & P & _).
  destruct (P v u Hp) as (_ & Hu & _).
  pose proof (dijkstra_run_exact graph start st Hstart Hrun)
    as (Hwf & _ & _ & _ & _ & _ & _ & _ & _ & _ & O).
  destruct Hwf as (_ & Hdist & _ & _).
  assert (Hin : u ∈ vertices graph) by (by destruct Hwalk).
  destruct (proj2 (Hdist u) Hin) as [du Hdu].
  pose proof (O u du y Hu Hdu Hwalk) as Hle.
  destruct du as [x|]; [|done]. exists x. split; [done|].
  simpl in Hle. lia.
Qed.

Lemma dijkstra_predecessors_are_exact_witness :
  exists x, dict_get "V2" (dist G_dijkstra_final) = Some (Fin x) /\ (x <= 11)%Z.
Proof.
  apply (dijkstra_predecessors_are_exact G_dijkstra_graph "V1"
           (dist G_dijkstra_final) (pred G_dijkstra_final) "V3" "V2" 11).
  - apply (bool_decide_unpack ("V1" ∈ vertices G_dijkstra_graph)).
    vm_compute. exact I.
  - vm_compute. reflexivity.
  - vm_compute. reflexivity.
  - change 11%Z with (0 + 11)%Z.
    apply (vertex_walk_step G_dijkstra_graph "V1" "V1" "V2"
             (mkEdge "V1" "V2" 11) 0);
      [apply vertex_walk_start
       |apply (bool_decide_unpack ("V2" ∈ vertices G_dijkstra_graph));
        vm_compute; exact I
       |reflexivity|reflexivity].
Defined.

(** ** A queue with a comparator of the caller's *)

Lemma gtb_refines_geb :
  refines (fun u v => num_ltb v u) (fun u v => num_leb v u).
Proof.
  split; [|split].
  - intros a b. destruct a, b; simpl; intros; try done; lia.
  - intros a b. destruct a, b; simpl; intros; try done; lia.
  - intros a b c. destruct a, b, c; simpl; intros; try done; lia.
Qed.

(** X17.  A queue made with a comparator of the caller's, such as the
    [lambda u, v: u > v] of the documentation, follows it: when the
    comparator decides an order [le] (it implies [le], and where it fails
    the reverse [le] holds), on every queue reached by [push] and [pop] a
    [pop] that returns gives the value of the node [peek] shows, and that
    node comes first in [le] among all nodes of the queue. *)
Theorem pop_follows_given_comparator {V : Type} (comp le : num -> num -> bool)
    (q0 q q' : BinaryHeapPriorityQueue V) (v : V) :
  refines comp le ->
  PriorityQueue_new "binary_heap" (Some comp) = Ok q0 ->
  pq_reachable q0 q -> pop q = Ok (v, q') ->
  exists nd,
    peek q = Ok nd /\ data nd = v /\
    heap (items q) ≡ₚ nd :: heap (items q') /\
    Forall (fun x => le (key nd) (key x) = true) (heap (items q')).
Proof.
  intros Href Hnew Hreach Hpop.
  assert (Hq0 : PriorityQueue_new (V := V) "binary_heap" (Some comp) =
                Ok (mkPQ (mkDHeap comp [] 2 "min"))) by reflexivity.
  rewrite Hq0 in Hnew. simplify_eq.
  apply pq_reachable_heap in Hreach. simpl in Hreach.
  set (h0 := mkDHeap comp ([] : list (TreeNode V)) 2 "min") in *.
  assert (Hw0 : weakly_ordered le h0).
  { intros c Hc _ np nc Hp. by destruct (parent_of 2 c). }
  destruct (reachable_weak le h0 (items q) ltac:(simpl; lia) Href Hw0 Hreach)
    as (Hw & Hc & Hd).
  simpl in Hc, Hd.
  assert (Href' : refines (_comp (items q)) le) by (by rewrite Hc).
  clear Hc Hreach Hw0. clearbody h0.
  unfold pop in Hpop. inv_bind Hpop. destruct a as [nd h].
  assert (v = data nd /\ q' = mkPQ h) as [-> ->]
    by (split; simpl in Hpop; congruence).
  assert (Hne : heap (items q) <> []).
  { intros E0. by rewrite (extract_empty _ E0) in Ha. }
  destruct (extract_Ok (items q) ltac:(lia) Hne)
    as (r & h1 & E1 & H0 & Hperm & _).
  assert (r = nd /\ h1 = h) as [-> ->] by (split; congruence).
  exists nd. split.
  { unfold peek, is_empty, array_last_pos_filled.
    destruct (heap (items q)) as [|x rest] eqn:Eh; [done|].
    destruct (Z.eqb_spec (Z.of_nat (length (x :: rest)) - 1) (-1));
      [simpl in *; lia|].
    by apply array_getitem_lookup. }
  split; [done|]. split; [done|].
  eapply (extract_least le (items q)); [lia | done | done | exact Ha].
Qed.

Lemma pop_follows_given_comparator_witness :
  exists nd,
    peek (mkPQ (mkDHeap (fun u v => num_ltb v u)
                  [mkTreeNode (Fin 3) 2; mkTreeNode (Fin 2) 1] 2 "min"))
      = Ok nd /\
    data nd = 2 /\
    [mkTreeNode (Fin 3) 2; mkTreeNode (Fin 2) 1]
      ≡ₚ nd :: [mkTreeNode (Fin 2) 1] /\
    Forall (fun x => num_leb (key x) (key nd) = true) [mkTreeNode (Fin 2) 1].
Proof.
  apply (pop_follows_given_comparator
           (fun u v => num_ltb v u) (fun u v => num_leb v u)
           (mkPQ (mkDHeap (fun u v => num_ltb v u) [] 2 "min"))
           (mkPQ (mkDHeap (fun u v => num_ltb v u)
                    [mkTreeNode (Fin 3) 2; mkTreeNode (Fin 2) 1] 2 "min"))
           (mkPQ (mkDHeap (fun u v => num_ltb v u)
                    [mkTreeNode (Fin 2) 1] 2 "min"))
           2).
  - apply gtb_refines_geb.
  - reflexivity.
  - eapply pq_reach_push
      with (q := mkPQ (mkDHeap (fun u v => num_ltb v u)
                         [mkTreeNode (Fin 2) 1] 2 "min"))
           (v := 2) (p := Fin 3);
      [|reflexivity].
    eapply pq_reach_push with (v := 1) (p := Fin 2);
      [apply pq_reach_start | reflexivity].
  - reflexivity.
Defined.
